(** * Escrow engine of a2a-payments: a shallow embedding and its properties

    The JavaScript class [EscrowSystem] (escrow.js) keeps every escrow in
    one object [this.escrows] keyed by the escrow id, mutates the records in
    place and rewrites a JSON file after each successful transition.  The
    subclass [EscrowWithWebhooks] (escrow-webhooks.js) wraps each operation
    and reports it to a webhook manager.

    The embedding below follows the source method by method.  The object
    [this.escrows] is a finite map from strings to records; a method is a
    computation in a state-and-exception monad whose state survives a
    [throw], because JavaScript does not roll mutations back.  [Date.now()]
    and [crypto.randomBytes] are read from oracles carried by the state.

    JavaScript numbers that the engine only stores or compares (instants
    in milliseconds, minutes, amounts) are integers here; an argument that
    a caller may leave out is an [option], [None] standing for
    [undefined] or [null]. *)

From Stdlib Require Import ZArith.
From stdpp Require Import base option gmap strings list fin_maps.

Open Scope Z_scope.

(** ** Data model *)

(** The six values the field [state] takes. *)
Inductive EscrowState : Type :=
  | Pending | Funded | Locked | Released | Refunded | Disputed.

#[global] Instance EscrowState_eq_dec : EqDecision EscrowState.
Proof. solve_decision. Defined.

(** The text a template literal prints for a state. *)
Definition stateName (s : EscrowState) : string :=
  match s with
  | Pending => "pending" | Funded => "funded" | Locked => "locked"
  | Released => "released" | Refunded => "refunded" | Disputed => "disputed"
  end.

(** [escrow.conditions] as stored.  Each boolean is the truthiness of the
    stored property; a property that was never written ([undefined]) is
    falsy.  The keys [protocol] and [token], which no method of the engine
    reads, are left out. *)
Record Conditions : Type := mkConditions {
  requiresApproval : bool;
  requiresDelivery : bool;
  requiresArbiter : bool;
  requiresClientConfirmation : bool;
  autoRelease : bool;
  customConditions : list string
}.

(** The [conditions] object a caller hands to [create]: [None] is an
    absent key, [Some b] a key holding the boolean [b]. *)
Record ConditionsArg : Type := mkConditionsArg {
  argRequiresApproval : option bool;
  argRequiresDelivery : option bool;
  argRequiresArbiter : option bool;
  argRequiresClientConfirmation : option bool;
  argAutoRelease : option bool;
  argCustomConditions : option (list string)
}.

(** [escrow.timeline]; [None] is [null].  Instants are milliseconds. *)
Record Timeline : Type := mkTimeline {
  created : Z;
  funded : option Z;
  locked : option Z;
  released : option Z;
  refunded : option Z;
  disputed : option Z
}.

(** [escrow.deliveryProof] when it is not [null]. *)
Record DeliveryProof : Type := mkDeliveryProof {
  submittedBy : string;
  timestamp : Z;
  data : string;
  signature : option string
}.

(** The [proof] argument of [submitDelivery]; [None] is a missing key. *)
Record ProofArg : Type := mkProofArg {
  argSubmittedBy : option string;
  argData : string;
  argSignature : option string
}.

(** [escrow.disputeReason] when it is not [null].  The two strings are
    stored as they were passed, so either may be [undefined] ([None]). *)
Record DisputeReason : Type := mkDisputeReason {
  disputerId : option string;
  reason : option string;
  disputeTimestamp : Z
}.

(** [escrow.metadata]; [None] is a key never written. *)
Record Metadata : Type := mkMetadata {
  releaseReason : option string;
  refundReason : option string;
  arbiter : option string
}.

(** One escrow record.  [amount] is the number the caller passed; the
    engine stores it and never computes with it in the methods below. *)
Record Escrow : Type := mkEscrow {
  escrowId : string;
  payer : string;
  payee : string;
  amount : Z;
  purpose : string;
  conditions : Conditions;
  state : EscrowState;
  timeline : Timeline;
  timeout : option Z;
  approvals : list string;
  deliveryProof : option DeliveryProof;
  disputeReason : option DisputeReason;
  txHash : option string;
  metadata : Metadata
}.

(** The parameter object of [create]. *)
Record CreateParams : Type := mkCreateParams {
  paramPayer : string;
  paramPayee : string;
  paramAmount : Z;
  paramPurpose : string;
  paramConditions : option ConditionsArg;
  paramTimeoutMinutes : option Z
}.

(** What [this.webhookManager.emit] was called with.  Only the event of the
    wrapper's [dispute] is needed here. *)
Inductive Event : Type :=
  | EscrowDisputedEvent (eid epayer epayee : string) (eamount : Z)
      (edisputer ereason : option string) (edisputedAt : option Z).

(** The messages of the [Error] objects the engine throws.  The last six
    are the messages that print a state when the value looked up has no
    [state] at all. *)
Inductive Error : Type :=
  | EscrowNotFound
  | CannotFund (s : EscrowState)
  | CannotApprove (s : EscrowState)
  | CannotSubmitDelivery (s : EscrowState)
  | CannotRelease (s : EscrowState)
  | DeliveryProofRequired
  | CannotRefund (s : EscrowState)
  | CannotDispute (s : EscrowState)
  | NotInDisputedState
  | InvalidDisputeResolution (decision : string)
  | CannotFundUndefined
  | CannotApproveUndefined
  | CannotSubmitDeliveryUndefined
  | CannotReleaseUndefined
  | CannotRefundUndefined
  | CannotDisputeUndefined.

Definition message (e : Error) : string :=
  match e with
  | EscrowNotFound => "Escrow not found"
  | CannotFund s => "Cannot fund escrow in state: " +:+ stateName s
  | CannotApprove s => "Cannot approve escrow in state: " +:+ stateName s
  | CannotSubmitDelivery s =>
      "Cannot submit delivery for escrow in state: " +:+ stateName s
  | CannotRelease s => "Cannot release escrow in state: " +:+ stateName s
  | DeliveryProofRequired => "Delivery proof required before release"
  | CannotRefund s => "Cannot refund escrow in state: " +:+ stateName s
  | CannotDispute s => "Cannot dispute escrow in state: " +:+ stateName s
  | NotInDisputedState => "Escrow not in disputed state"
  | InvalidDisputeResolution d => "Invalid dispute resolution: " +:+ d
  | CannotFundUndefined => "Cannot fund escrow in state: undefined"
  | CannotApproveUndefined => "Cannot approve escrow in state: undefined"
  | CannotSubmitDeliveryUndefined =>
      "Cannot submit delivery for escrow in state: undefined"
  | CannotReleaseUndefined => "Cannot release escrow in state: undefined"
  | CannotRefundUndefined => "Cannot refund escrow in state: undefined"
  | CannotDisputeUndefined => "Cannot dispute escrow in state: undefined"
  end.

(** Everything a method can read or change: the object [this.escrows], the
    contents of the file at [storePath] (empty when the file is missing,
    as [loadState] reads it), the readings [Date.now()] will give, the ids
    [crypto.randomBytes] will give, and the calls made to the webhook
    manager, latest last. *)
Record World : Type := mkWorld {
  escrows : gmap string Escrow;
  persisted : gmap string Escrow;
  clock : nat → Z;
  ticks : nat;
  entropy : nat → string;
  draws : nat;
  events : list Event
}.

(** ** Field updates (JavaScript assignments to one property) *)

Definition setState (s : EscrowState) (e : Escrow) : Escrow :=
  mkEscrow (escrowId e) (payer e) (payee e) (amount e) (purpose e)
    (conditions e) s (timeline e) (timeout e) (approvals e)
    (deliveryProof e) (disputeReason e) (txHash e) (metadata e).

Definition setTimeline (t : Timeline) (e : Escrow) : Escrow :=
  mkEscrow (escrowId e) (payer e) (payee e) (amount e) (purpose e)
    (conditions e) (state e) t (timeout e) (approvals e)
    (deliveryProof e) (disputeReason e) (txHash e) (metadata e).

Definition setApprovals (a : list string) (e : Escrow) : Escrow :=
  mkEscrow (escrowId e) (payer e) (payee e) (amount e) (purpose e)
    (conditions e) (state e) (timeline e) (timeout e) a
    (deliveryProof e) (disputeReason e) (txHash e) (metadata e).

Definition setDeliveryProof (p : option DeliveryProof) (e : Escrow) : Escrow :=
  mkEscrow (escrowId e) (payer e) (payee e) (amount e) (purpose e)
    (conditions e) (state e) (timeline e) (timeout e) (approvals e)
    p (disputeReason e) (txHash e) (metadata e).

Definition setDisputeReason (d : option DisputeReason) (e : Escrow) : Escrow :=
  mkEscrow (escrowId e) (payer e) (payee e) (amount e) (purpose e)
    (conditions e) (state e) (timeline e) (timeout e) (approvals e)
    (deliveryProof e) d (txHash e) (metadata e).

Definition setTxHash (h : option string) (e : Escrow) : Escrow :=
  mkEscrow (escrowId e) (payer e) (payee e) (amount e) (purpose e)
    (conditions e) (state e) (timeline e) (timeout e) (approvals e)
    (deliveryProof e) (disputeReason e) h (metadata e).

Definition setMetadata (m : Metadata) (e : Escrow) : Escrow :=
  mkEscrow (escrowId e) (payer e) (payee e) (amount e) (purpose e)
    (conditions e) (state e) (timeline e) (timeout e) (approvals e)
    (deliveryProof e) (disputeReason e) (txHash e) m.

Definition stampFunded (t : Z) (tl : Timeline) : Timeline :=
  mkTimeline (created tl) (Some t) (locked tl) (released tl) (refunded tl)
    (disputed tl).

Definition stampLocked (t : Z) (tl : Timeline) : Timeline :=
  mkTimeline (created tl) (funded tl) (Some t) (released tl) (refunded tl)
    (disputed tl).

Definition stampReleased (t : Z) (tl : Timeline) : Timeline :=
  mkTimeline (created tl) (funded tl) (locked tl) (Some t) (refunded tl)
    (disputed tl).

Definition stampRefunded (t : Z) (tl : Timeline) : Timeline :=
  mkTimeline (created tl) (funded tl) (locked tl) (released tl) (Some t)
    (disputed tl).

Definition stampDisputed (t : Z) (tl : Timeline) : Timeline :=
  mkTimeline (created tl) (funded tl) (locked tl) (released tl) (refunded tl)
    (Some t).

Definition setReleaseReason (r : string) (m : Metadata) : Metadata :=
  mkMetadata (Some r) (refundReason m) (arbiter m).

Definition setRefundReason (r : string) (m : Metadata) : Metadata :=
  mkMetadata (releaseReason m) (Some r) (arbiter m).

Definition setArbiter (a : string) (m : Metadata) : Metadata :=
  mkMetadata (releaseReason m) (refundReason m) (Some a).

(** [a || b] on a string that may be missing: the empty string is falsy. *)
Definition orElse (a : option string) (b : string) : string :=
  match a with
  | Some s => if decide (s = "") then b else s
  | None => b
  end.

(** [a || null] *)
Definition orNull (a : option string) : option string :=
  match a with
  | Some s => if decide (s = "") then None else Some s
  | None => None
  end.

(** The assignments each transition makes to the record. *)

(** [state = 'funded'; timeline.funded = Date.now(); txHash = txHash] *)
Definition markFunded (t : Z) (tx : string) (e : Escrow) : Escrow :=
  setTxHash (Some tx)
    (setTimeline (stampFunded t (timeline e)) (setState Funded e)).

(** [state = 'locked'; timeline.locked = Date.now()] *)
Definition markLocked (t : Z) (e : Escrow) : Escrow :=
  setTimeline (stampLocked t (timeline e)) (setState Locked e).

(** [state = 'released'; timeline.released = Date.now();
     metadata.releaseReason = reason] *)
Definition markReleased (t : Z) (why : string) (e : Escrow) : Escrow :=
  setMetadata (setReleaseReason why (metadata e))
    (setTimeline (stampReleased t (timeline e)) (setState Released e)).

(** [state = 'refunded'; timeline.refunded = Date.now();
     metadata.refundReason = reason] *)
Definition markRefunded (t : Z) (why : string) (e : Escrow) : Escrow :=
  setMetadata (setRefundReason why (metadata e))
    (setTimeline (stampRefunded t (timeline e)) (setState Refunded e)).

(** [state = 'disputed'; timeline.disputed = Date.now();
     disputeReason = { disputerId, reason, timestamp: Date.now() }] *)
Definition markDisputed (t t' : Z) (who why : option string) (e : Escrow)
  : Escrow :=
  setDisputeReason (Some (mkDisputeReason who why t'))
    (setTimeline (stampDisputed t (timeline e)) (setState Disputed e)).

(** [deliveryProof = { submittedBy: proof.submittedBy || escrow.payee,
     timestamp: Date.now(), data: proof.data,
     signature: proof.signature || null }] *)
Definition markDelivered (t : Z) (proof : ProofArg) (e : Escrow) : Escrow :=
  setDeliveryProof
    (Some (mkDeliveryProof (orElse (argSubmittedBy proof) (payee e)) t
             (argData proof) (orNull (argSignature proof))))
    e.

(** [metadata.arbiter = arbiter] *)
Definition markArbiter (who : string) (e : Escrow) : Escrow :=
  setMetadata (setArbiter who (metadata e)) e.

Definition setEscrows (m : gmap string Escrow) (w : World) : World :=
  mkWorld m (persisted w) (clock w) (ticks w) (entropy w) (draws w) (events w).

Definition setPersisted (m : gmap string Escrow) (w : World) : World :=
  mkWorld (escrows w) m (clock w) (ticks w) (entropy w) (draws w) (events w).

Definition setTicks (n : nat) (w : World) : World :=
  mkWorld (escrows w) (persisted w) (clock w) n (entropy w) (draws w) (events w).

Definition setDraws (n : nat) (w : World) : World :=
  mkWorld (escrows w) (persisted w) (clock w) (ticks w) (entropy w) n (events w).

Definition setEvents (l : list Event) (w : World) : World :=
  mkWorld (escrows w) (persisted w) (clock w) (ticks w) (entropy w) (draws w) l.

(** ** The monad of engine methods *)

(** A method takes the world and gives the world it leaves behind together
    with either the error it threw or the value it returned. *)
Definition M (A : Type) : Type := World → World * (Error + A).

#[global] Instance M_ret : MRet M := λ A a w, (w, inr a).

#[global] Instance M_bind : MBind M := λ A B f m w,
  match m w with
  | (w', inr a) => f a w'
  | (w', inl err) => (w', inl err)
  end.

Definition throw {A : Type} (err : Error) : M A := λ w, (w, inl err).

(** [Date.now()] *)
Definition dateNow : M Z :=
  λ w, (setTicks (S (ticks w)) w, inr (clock w (ticks w))).

(** ['esc_' + crypto.randomBytes(16).toString('hex')] *)
Definition freshId : M string :=
  λ w, (setDraws (S (draws w)) w, inr (entropy w (draws w))).

(** The property names every plain object inherits from
    [Object.prototype].  [this.escrows] is a plain object, [{}] or what
    [JSON.parse] gave, so [this.escrows[k]] is one of these inherited
    values, a function or the prototype itself, when [k] is such a name and
    no record is stored under it. *)
Definition objectPrototypeNames : list string :=
  ["constructor"; "__proto__"; "hasOwnProperty"; "isPrototypeOf";
   "propertyIsEnumerable"; "toString"; "toLocaleString"; "valueOf";
   "__defineGetter__"; "__defineSetter__"; "__lookupGetter__";
   "__lookupSetter__"].

Definition inherited (id : string) : bool :=
  bool_decide (id ∈ objectPrototypeNames).

(** [const escrow = this.escrows[escrowId];
     if (!escrow) throw new Error('Escrow not found')],
    up to the test of [escrow.state] that follows it in every method.  A
    stored record is returned to that test.  An inherited value is truthy,
    so it passes [!escrow]; its [state] is [undefined], which fails
    whichever test of the state the method makes, and the method throws
    [stateless], its own message for that. *)
Definition findEscrow (stateless : Error) (id : string) : M Escrow :=
  λ w, match escrows w !! id with
       | Some e => (w, inr e)
       | None =>
           if inherited id then (w, inl stateless)
           else (w, inl EscrowNotFound)
       end.

(** The record [this.escrows[id]] after assignments to its properties. *)
Definition putEscrow (id : string) (e : Escrow) : M unit :=
  λ w, (setEscrows (<[id := e]> (escrows w)) w, inr tt).

(** [this.saveState()] *)
Definition saveState : M unit :=
  λ w, (setPersisted (escrows w) w, inr tt).

(** [this.webhookManager.emit(...)], fire and forget. *)
Definition emit (ev : Event) : M unit :=
  λ w, (setEvents (events w ++ [ev]) w, inr tt).

(** [array.includes(x)] on an array of strings. *)
Definition includes (x : string) (l : list string) : bool :=
  bool_decide (x ∈ l).

(** ** EscrowSystem *)

(** The [conditions] property built by [create]: the defaults first, then
    the spread of the caller's object over them. *)
Definition buildConditions (c : ConditionsArg) : Conditions :=
  mkConditions
    (default true (argRequiresApproval c))
    (default false (argRequiresDelivery c))
    (default false (argRequiresArbiter c))
    (default false (argRequiresClientConfirmation c))
    (default false (argAutoRelease c))
    (default [] (argCustomConditions c)).

Definition noConditions : ConditionsArg :=
  mkConditionsArg None None None None None None.

(** [timeoutMinutes ? now + (timeoutMinutes * 60 * 1000) : null] *)
Definition timeoutOf (now : Z) (timeoutMinutes : option Z) : option Z :=
  match timeoutMinutes with
  | Some m => if decide (m = 0) then None else Some (now + m * 60 * 1000)
  | None => None
  end.

Definition create (p : CreateParams) : M Escrow :=
  id ← freshId;
  now ← dateNow;
  let escrow :=
    mkEscrow id (paramPayer p) (paramPayee p) (paramAmount p) (paramPurpose p)
      (buildConditions (default noConditions (paramConditions p)))
      Pending
      (mkTimeline now None None None None None)
      (timeoutOf now (paramTimeoutMinutes p))
      [] None None None (mkMetadata None None None) in
  putEscrow id escrow;;
  saveState;;
  mret escrow.

Definition fund (id : string) (tx : string) : M Escrow :=
  escrow ← findEscrow CannotFundUndefined id;
  if decide (state escrow ≠ Pending) then throw (CannotFund (state escrow))
  else
    t ← dateNow;
    let escrow := markFunded t tx escrow in
    escrow ← (if requiresApproval (conditions escrow) then mret escrow
              else t' ← dateNow; mret (markLocked t' escrow));
    putEscrow id escrow;;
    saveState;;
    mret escrow.

Definition approve (id : string) (approverId : string) : M Escrow :=
  escrow ← findEscrow CannotApproveUndefined id;
  if decide (state escrow ≠ Funded) then throw (CannotApprove (state escrow))
  else
    let escrow :=
      if includes approverId (approvals escrow) then escrow
      else setApprovals (approvals escrow ++ [approverId]) escrow in
    let requiredApprovers := [payer escrow; payee escrow] in
    let allApproved :=
      forallb (λ a, includes a (approvals escrow)) requiredApprovers in
    escrow ← (if allApproved then t ← dateNow; mret (markLocked t escrow)
              else mret escrow);
    putEscrow id escrow;;
    saveState;;
    mret escrow.

Definition release (id : string) (why : option string) : M Escrow :=
  let why := default "manual release" why in
  escrow ← findEscrow CannotReleaseUndefined id;
  if decide (state escrow ≠ Locked) then throw (CannotRelease (state escrow))
  else if requiresDelivery (conditions escrow)
          && bool_decide (deliveryProof escrow = None)
  then throw DeliveryProofRequired
  else
    t ← dateNow;
    let escrow := markReleased t why escrow in
    putEscrow id escrow;;
    saveState;;
    mret escrow.

Definition refund (id : string) (why : option string) : M Escrow :=
  let why := default "manual refund" why in
  escrow ← findEscrow CannotRefundUndefined id;
  if negb (bool_decide (state escrow ∈ [Funded; Locked; Disputed]))
  then throw (CannotRefund (state escrow))
  else
    t ← dateNow;
    let escrow := markRefunded t why escrow in
    putEscrow id escrow;;
    saveState;;
    mret escrow.

(** [submitDelivery] writes the proof into the record before it calls
    [this.release], which reads the same record again. *)
Definition submitDelivery (id : string) (proof : ProofArg) : M Escrow :=
  escrow ← findEscrow CannotSubmitDeliveryUndefined id;
  if decide (state escrow ≠ Locked)
  then throw (CannotSubmitDelivery (state escrow))
  else
    t ← dateNow;
    putEscrow id (markDelivered t proof escrow);;
    (if requiresDelivery (conditions escrow)
        && negb (requiresArbiter (conditions escrow))
        && negb (requiresClientConfirmation (conditions escrow))
     then release id (Some "automatic - delivery confirmed");; mret tt
     else mret tt);;
    saveState;;
    findEscrow CannotSubmitDeliveryUndefined id.

(** [disputerId] and [reason] have no default: a caller who leaves one out
    stores [undefined]. *)
Definition dispute (id : string) (who why : option string) : M Escrow :=
  escrow ← findEscrow CannotDisputeUndefined id;
  if decide (state escrow ≠ Locked) then throw (CannotDispute (state escrow))
  else
    t ← dateNow;
    t' ← dateNow;
    let escrow := markDisputed t t' who why escrow in
    putEscrow id escrow;;
    saveState;;
    mret escrow.

(** After the delegated call the local [escrow] still names the record in
    the store, so the arbiter is written onto what that call left there. *)
Definition resolveDispute (id : string) (decision : string) (who : string)
  : M Escrow :=
  escrow ← findEscrow NotInDisputedState id;
  if decide (state escrow ≠ Disputed) then throw NotInDisputedState
  else
    (if decide (decision = "release")
     then release id (Some ("arbiter decision by " +:+ who));; mret tt
     else if decide (decision = "refund")
     then refund id (Some ("arbiter decision by " +:+ who));; mret tt
     else throw (InvalidDisputeResolution decision));;
    escrow ← findEscrow NotInDisputedState id;
    let escrow := markArbiter who escrow in
    putEscrow id escrow;;
    saveState;;
    mret escrow.

(** The test of the loop in [processTimeouts]:
    [escrow.timeout && escrow.timeout < now &&
     ['funded', 'locked'].includes(escrow.state)].
    A timeout of [null] or [0] is falsy. *)
Definition timedOut (now : Z) (e : Escrow) : bool :=
  match timeout e with
  | Some t =>
      negb (bool_decide (t = 0)) && bool_decide (t < now)
      && bool_decide (state e ∈ [Funded; Locked])
  | None => false
  end.

(** One turn of the loop.  The [escrow] of an entry is the object held in
    [this.escrows], so the test reads the record as it is now. *)
Definition sweepOne (now : Z) (expired : list string) (id : string)
  : M (list string) :=
  λ w, match escrows w !! id with
       | Some e =>
           if timedOut now e
           then (refund id (Some "automatic timeout");;
                 mret (expired ++ [id])) w
           else (w, inr expired)
       | None => (w, inr expired)
       end.

Fixpoint sweepLoop (now : Z) (ids : list string) (expired : list string)
  : M (list string) :=
  match ids with
  | [] => mret expired
  | id :: rest =>
      expired ← sweepOne now expired id;
      sweepLoop now rest expired
  end.

(** The keys of [Object.entries(this.escrows)], listed once when the loop
    begins.  They come in the order the map enumerates them, which need not
    be JavaScript's insertion order; each key comes once.  What is stated
    of a sweep below is which ids it reports and which records it refunds,
    never the order of the ids or which refund read the clock first. *)
Definition entryIds : M (list string) :=
  λ w, (w, inr (fst <$> map_to_list (escrows w))).

(** [processTimeouts()]: reads the clock once, then walks the entries. *)
Definition processTimeouts : M (list string) :=
  now ← dateNow;
  ids ← entryIds;
  sweepLoop now ids [].

(** ** EscrowWithWebhooks *)

Module EscrowWithWebhooks.

(** [const escrow = super.dispute(escrowId, reason)]: the base method is
    called with two arguments, so its [disputerId] receives the wrapper's
    [reason] and its [reason] is [undefined].  The event carries the
    wrapper's own arguments. *)
Definition dispute (id : string) (who why : option string) : M Escrow :=
  escrow ← dispute id why None;
  emit (EscrowDisputedEvent (escrowId escrow) (payer escrow) (payee escrow)
          (amount escrow) who why (disputed (timeline escrow)));;
  mret escrow.

End EscrowWithWebhooks.

(** ** Vocabulary of the statements *)

(** The world after one reading of the clock. *)
Definition tick (w : World) : World := setTicks (S (ticks w)) w.

(** The world after the record under [id] became [e] and [saveState] ran. *)
Definition commit (id : string) (e : Escrow) (w : World) : World :=
  setPersisted (<[id := e]> (escrows w))
    (setEscrows (<[id := e]> (escrows w)) w).

(** The operations of the engine as data. *)
Inductive Op : Type :=
  | OpCreate (p : CreateParams)
  | OpFund (id tx : string)
  | OpApprove (id approverId : string)
  | OpSubmitDelivery (id : string) (proof : ProofArg)
  | OpRelease (id : string) (why : option string)
  | OpRefund (id : string) (why : option string)
  | OpDispute (id : string) (who why : option string)
  | OpResolveDispute (id decision who : string)
  | OpProcessTimeouts.

(** The world an operation leaves behind, whether it returned or threw. *)
Definition after (o : Op) (w : World) : World :=
  match o with
  | OpCreate p => fst (create p w)
  | OpFund id tx => fst (fund id tx w)
  | OpApprove id a => fst (approve id a w)
  | OpSubmitDelivery id proof => fst (submitDelivery id proof w)
  | OpRelease id why => fst (release id why w)
  | OpRefund id why => fst (refund id why w)
  | OpDispute id who why => fst (dispute id who why w)
  | OpResolveDispute id d who => fst (resolveDispute id d who w)
  | OpProcessTimeouts => fst (processTimeouts w)
  end.

(** Whether an [approve] names the payer or the payee of its escrow; true
    of every other operation. *)
Definition approverIsParty (o : Op) (w : World) : bool :=
  match o with
  | OpApprove id a =>
      match escrows w !! id with
      | Some e => includes a [payer e; payee e]
      | None => true
      end
  | _ => true
  end.

(** A freshly constructed engine whose store file does not exist. *)
Definition newWorld (clk : nat → Z) (ent : nat → string) : World :=
  mkWorld ∅ ∅ clk 0 ent 0 [].

(** Worlds reached from a new engine by operations whose approvers are
    parties of the escrow they approve. *)
Inductive partyReachable : World → Prop :=
  | reach_new clk ent : partyReachable (newWorld clk ent)
  | reach_step w o :
      partyReachable w → approverIsParty o w = true →
      partyReachable (after o w).

(** [approvals ⊆ {payer, payee}] for one record. *)
Definition approvalsWithinParties (e : Escrow) : Prop :=
  approvals e ⊆ [payer e; payee e].

(** The invariant on the whole store. *)
Definition storeWithinParties (w : World) : Prop :=
  map_Forall (λ _ e, approvalsWithinParties e) (escrows w).

(** A computation keeps the store invariant, whether it returns or throws,
    and what it returns satisfies [R]. *)
Definition keeps {A : Type} (m : M A) (R : A → Prop) : Prop :=
  ∀ w, storeWithinParties w →
       storeWithinParties (fst (m w)) ∧ ∀ a, snd (m w) = inr a → R a.

(** What a call gave back, keeping of a returned record only its state. *)
Definition outcomeState (r : Error + Escrow) : Error + EscrowState :=
  match r with
  | inl err => inl err
  | inr e => inr (state e)
  end.

(** How one sweep over the entries [ids], reading the clock at [now], takes
    the store of [w] to the store of [w'] and which ids it reports: a
    record that passes the loop's test is refunded with reason "automatic
    timeout" and reported, every other record is as it was. *)
Definition sweptFrom (now : Z) (ids : list string) (w w' : World)
  (swept : list string) : Prop :=
  ∀ id,
    match escrows w !! id with
    | None => escrows w' !! id = None ∧ id ∉ swept
    | Some e =>
        if timedOut now e && bool_decide (id ∈ ids)
        then (id ∈ swept
              ∧ ∃ t, escrows w' !! id
                     = Some (markRefunded t "automatic timeout" e))
        else ((id ∉ swept) ∧ escrows w' !! id = Some e)
    end.

(** ** Sample runs *)

Definition sampleClock (n : nat) : Z := 1000 + Z.of_nat n.

Definition sampleEntropy (n : nat) : string :=
  match n with
  | O => "esc_01"
  | _ => "esc_02"
  end.

Definition sampleWorld : World := newWorld sampleClock sampleEntropy.

Definition deliveryOnly : ConditionsArg :=
  mkConditionsArg None (Some true) None None None None.

Definition deliveryWithArbiter : ConditionsArg :=
  mkConditionsArg None (Some true) (Some true) None None None.

Definition sampleParams (c : option ConditionsArg) (minutes : option Z)
  : CreateParams :=
  mkCreateParams "alice" "bob" 100 "translation" c minutes.

(** create, fund, approve by the payer, approve by the payee: the first
    sample escrow, ["esc_01"], is then locked. *)
Definition lockedRun (c : option ConditionsArg) : M Escrow :=
  e ← create (sampleParams c None);
  fund (escrowId e) "0xtx1";;
  approve (escrowId e) "alice";;
  approve (escrowId e) "bob".

Definition lockedWorld (c : option ConditionsArg) : World :=
  fst (lockedRun c sampleWorld).

(** The record that run leaves under ["esc_01"]. *)
Definition lockedSample (c : option ConditionsArg) : Escrow :=
  mkEscrow "esc_01" "alice" "bob" 100 "translation"
    (buildConditions (default noConditions c)) Locked
    (mkTimeline 1000 (Some 1001) (Some 1002) None None None)
    None ["alice"; "bob"] None None (Some "0xtx1")
    (mkMetadata None None None).

Definition disputedWorld : World :=
  fst (dispute "esc_01" (Some "alice") (Some "Incomplete delivery")
         (lockedWorld None)).

Definition sampleProof : ProofArg :=
  mkProofArg (Some "bob") "https://storage.example.com/model.pth" None.

Definition secondProof : ProofArg :=
  mkProofArg (Some "bob") "https://storage.example.com/other.pth" None.

(** A clock that reads 1000 at [create], 2000 at [fund] and 61000, the
    very instant of a one-minute timeout, from then on. *)
Definition boundaryClock (n : nat) : Z :=
  match n with
  | O => 1000
  | S O => 2000
  | _ => 61000
  end.

(** A funded escrow whose timeout is 61000. *)
Definition fundedWithTimeout : World :=
  fst ((e ← create (sampleParams None (Some 1)); fund (escrowId e) "0xtx1")
         (newWorld boundaryClock sampleEntropy)).

(** A clock that stands still, an escrow created with a timeout of minus
    one minute (already past, as in the repository's timeout test) and
    funded. *)
Definition frozenClock (n : nat) : Z := 5000.

Definition overdueWorld : World :=
  fst ((e ← create (sampleParams None (Some (-1))); fund (escrowId e) "0xtx1")
         (newWorld frozenClock sampleEntropy)).

(** ** The rest of the engine: reads, statistics and the X402 helpers *)

(** [get(escrowId)]: [this.escrows[escrowId] || null], as far as it is a
    record.  [None] stands for [null] and, when the id is one of
    [objectPrototypeNames], for the inherited value the method then
    returns; [inherited] tells the two apart where a caller goes on to
    read the value. *)
Definition get (id : string) (w : World) : option Escrow := escrows w !! id.

(** [get] as a step of a method: it reads and changes nothing. *)
Definition getNow (id : string) : M (option Escrow) :=
  λ w, (w, inr (get id w)).

(** The [filters] object of [list]: [None] is a missing key.  A key is
    used only when its value is truthy, so an empty string or a minimum
    amount of zero filters nothing. *)
Record Filters : Type := mkFilters {
  filterPayer : option string;
  filterPayee : option string;
  filterState : option string;
  filterMinAmount : option Z
}.

Definition noFilters : Filters := mkFilters None None None None.

(** [Object.values(this.escrows)], in the order the map enumerates them,
    which need not be JavaScript's insertion order: what is stated of
    [allEscrows] and of [listEscrows] below is which records they hold and
    how many, never where in the array. *)
Definition allEscrows (w : World) : list Escrow :=
  snd <$> map_to_list (escrows w).

(** [list(filters)]: the four filters are applied one after the other. *)
Definition listEscrows (filters : Filters) (w : World) : list Escrow :=
  let results := allEscrows w in
  let results :=
    match orNull (filterPayer filters) with
    | Some p => filter (λ e, payer e = p) results
    | None => results
    end in
  let results :=
    match orNull (filterPayee filters) with
    | Some p => filter (λ e, payee e = p) results
    | None => results
    end in
  let results :=
    match orNull (filterState filters) with
    | Some s => filter (λ e, stateName (state e) = s) results
    | None => results
    end in
  match filterMinAmount filters with
  | Some m =>
      if decide (m = 0) then results
      else filter (λ e, m ≤ amount e) results
  | None => results
  end.

(** The object [getStats] returns.  [byState] has a key only for a state
    some escrow is in.  [totalLocked] is the exact sum of the amounts; the
    engine adds them as doubles, which agrees as long as every partial sum
    is an integer below 2^53.  Nothing below is stated of [totalLocked]. *)
Record Stats : Type := mkStats {
  total : nat;
  byState : gmap string nat;
  totalLocked : Z;
  activeEscrows : nat
}.

(** [acc[e.state] = (acc[e.state] || 0) + 1] *)
Definition countState (acc : gmap string nat) (e : Escrow) : gmap string nat :=
  <[stateName (state e) := (default 0%nat (acc !! stateName (state e)) + 1)%nat]>
    acc.

Definition getStats (w : World) : Stats :=
  let all := allEscrows w in
  mkStats
    (length all)
    (foldl countState ∅ all)
    (foldl (λ sum e, sum + amount e) 0 (filter (λ e, state e = Locked) all))
    (length (filter (λ e, state e ∈ [Funded; Locked]) all)).

(** The [paymentInfo] and [options] arguments of [createX402Escrow]. *)
Record PaymentInfo : Type := mkPaymentInfo {
  recipient : string;
  paymentAmount : Z;
  paymentToken : option string;
  description : string
}.

Record X402Options : Type := mkX402Options {
  optionPayer : option string;
  optionAutoRelease : option bool;
  optionTimeoutMinutes : option Z
}.

(** The parameters [createX402Escrow] hands to [create]:
    [payer = options.payer || 'x402-client'],
    [autoRelease = options.autoRelease !== false],
    [timeout = options.timeoutMinutes || 5]. *)
Definition x402Params (paymentInfo : PaymentInfo) (options : X402Options)
  : CreateParams :=
  mkCreateParams
    (orElse (optionPayer options) "x402-client")
    (recipient paymentInfo)
    (paymentAmount paymentInfo)
    ("X402: " +:+ description paymentInfo)
    (Some (mkConditionsArg (Some false) (Some true) (Some false) None
             (Some (default true (optionAutoRelease options))) None))
    (Some (match optionTimeoutMinutes options with
           | Some m => if decide (m = 0) then 5 else m
           | None => 5
           end)).

Definition createX402Escrow (paymentInfo : PaymentInfo)
  (options : X402Options) : M Escrow :=
  create (x402Params paymentInfo options).

(** The [error] strings of [verifyX402Payment]. *)
Inductive X402Failure : Type :=
  | X402EscrowNotFound
  | X402NotFunded (s : EscrowState)
  | X402NotFundedUndefined
  | X402Insufficient (paid expected : Z)
  | X402NotX402.

(** [verifyX402Payment(escrowId, expectedAmount)]: [inr escrow] stands for
    [{ valid: true, escrow }], [inl] for [{ valid: false, error }].  An
    empty purpose fails the prefix test as it fails [!escrow.purpose].  An
    inherited value is not [null] and has no [state], so it is answered
    with "Escrow not funded (state: undefined)". *)
Definition verifyX402Payment (id : string) (expectedAmount : Z) (w : World)
  : X402Failure + Escrow :=
  match get id w with
  | None =>
      if inherited id then inl X402NotFundedUndefined
      else inl X402EscrowNotFound
  | Some escrow =>
      if negb (bool_decide (state escrow ∈ [Funded; Locked]))
      then inl (X402NotFunded (state escrow))
      else if bool_decide (amount escrow < expectedAmount)
      then inl (X402Insufficient (amount escrow) expectedAmount)
      else if negb (String.prefix "X402:" (purpose escrow))
      then inl X402NotX402
      else inr escrow
  end.

(** [releaseX402(escrowId, serviceDescription)].  A description left out
    reaches [release] as [undefined], and so as its default reason, in the
    second call; the template literal of the first prints it.  [null] and
    an inherited value, which has no [conditions], both take the second
    call. *)
Definition releaseX402 (id : string) (serviceDescription : option string)
  : M Escrow :=
  escrow ← getNow id;
  match escrow with
  | Some e =>
      if autoRelease (conditions e)
      then release id
             (Some ("X402 auto-release: "
                    +:+ default "undefined" serviceDescription))
      else release id serviceDescription
  | None => release id serviceDescription
  end.

(** ** The state machine the methods implement *)

(** [approve]'s push: [if (!approvals.includes(id)) approvals.push(id)]. *)
Definition addApproval (a : string) (e : Escrow) : Escrow :=
  if includes a (approvals e) then e
  else setApprovals (approvals e ++ [a]) e.

(** [requiredApprovers.every(id => escrow.approvals.includes(id))] *)
Definition allApproved (e : Escrow) : bool :=
  forallb (λ a, includes a (approvals e)) [payer e; payee e].

(** The test under which [submitDelivery] releases on its own. *)
Definition deliveryOnlyCondition (e : Escrow) : bool :=
  requiresDelivery (conditions e)
  && negb (requiresArbiter (conditions e))
  && negb (requiresClientConfirmation (conditions e)).

(** Every way a method rewrites a stored record, one constructor for each
    path through the source that reaches an assignment. *)
Inductive trans : Escrow → Escrow → Prop :=
  | trans_fund e t tx :
      state e = Pending → requiresApproval (conditions e) = true →
      trans e (markFunded t tx e)
  | trans_fund_lock e t t' tx :
      state e = Pending → requiresApproval (conditions e) = false →
      trans e (markLocked t' (markFunded t tx e))
  | trans_approve e a :
      state e = Funded → allApproved (addApproval a e) = false →
      trans e (addApproval a e)
  | trans_approve_lock e a t :
      state e = Funded → allApproved (addApproval a e) = true →
      trans e (markLocked t (addApproval a e))
  | trans_deliver e t proof :
      state e = Locked → deliveryOnlyCondition e = false →
      trans e (markDelivered t proof e)
  | trans_deliver_release e t t' proof :
      state e = Locked → deliveryOnlyCondition e = true →
      trans e (markReleased t' "automatic - delivery confirmed"
                 (markDelivered t proof e))
  | trans_release e t why :
      state e = Locked →
      requiresDelivery (conditions e) = false ∨ is_Some (deliveryProof e) →
      trans e (markReleased t why e)
  | trans_refund e t why :
      state e ∈ [Funded; Locked; Disputed] →
      trans e (markRefunded t why e)
  | trans_dispute e t t' who why :
      state e = Locked →
      trans e (markDisputed t t' who why e)
  | trans_resolve_refund e t who :
      state e = Disputed →
      trans e (markArbiter who
                 (markRefunded t ("arbiter decision by " +:+ who) e)).

(** The record [create] stores under the id it drew. *)
Definition born (id : string) (e : Escrow) : Prop :=
  escrowId e = id ∧ state e = Pending ∧ approvals e = []
  ∧ deliveryProof e = None ∧ disputeReason e = None ∧ txHash e = None
  ∧ metadata e = mkMetadata None None None
  ∧ funded (timeline e) = None ∧ locked (timeline e) = None
  ∧ released (timeline e) = None ∧ refunded (timeline e) = None
  ∧ disputed (timeline e) = None.

(** How one operation changes what is stored under one id: nothing, one
    rewrite of the record, or (for [create] alone) a new record. *)
Definition moved (o : Op) (id : string) (before after : option Escrow)
  : Prop :=
  after = before
  ∨ (∃ e e', before = Some e ∧ after = Some e' ∧ trans e e')
  ∨ (∃ p e', o = OpCreate p ∧ after = Some e' ∧ born id e').

(** The arrows of the state diagram, with staying put. *)
Definition edge (s s' : EscrowState) : bool :=
  match s, s' with
  | Pending, (Pending | Funded | Locked) => true
  | Funded, (Funded | Locked | Refunded) => true
  | Locked, (Locked | Released | Refunded | Disputed) => true
  | Disputed, (Disputed | Refunded) => true
  | Released, Released => true
  | Refunded, Refunded => true
  | _, _ => false
  end.

(** The error an operation threw, if it threw. *)
Definition thrown {A : Type} (r : World * (Error + A)) : option Error :=
  match snd r with
  | inl err => Some err
  | inr _ => None
  end.

Definition outcome (o : Op) (w : World) : option Error :=
  match o with
  | OpCreate p => thrown (create p w)
  | OpFund id tx => thrown (fund id tx w)
  | OpApprove id a => thrown (approve id a w)
  | OpSubmitDelivery id proof => thrown (submitDelivery id proof w)
  | OpRelease id why => thrown (release id why w)
  | OpRefund id why => thrown (refund id why w)
  | OpDispute id who why => thrown (dispute id who why w)
  | OpResolveDispute id d who => thrown (resolveDispute id d who w)
  | OpProcessTimeouts => thrown (processTimeouts w)
  end.

(** The id an operation is called on. *)
Definition target (o : Op) : option string :=
  match o with
  | OpCreate _ | OpProcessTimeouts => None
  | OpFund id _ | OpApprove id _ | OpSubmitDelivery id _ | OpRelease id _
  | OpRefund id _ | OpDispute id _ _ | OpResolveDispute id _ _ => Some id
  end.

Definition isCreate (o : Op) : bool :=
  match o with
  | OpCreate _ => true
  | _ => false
  end.

(** Worlds reached from a new engine by any operations at all. *)
Inductive reachable : World → Prop :=
  | reachable_new clk ent : reachable (newWorld clk ent)
  | reachable_step w o : reachable w → reachable (after o w).

(** What holds of every record of a reachable store. *)
Record wellFormed (e : Escrow) : Prop := mkWellFormed {
  wf_approvals : NoDup (approvals e);
  wf_funded : state e = Funded → requiresApproval (conditions e) = true;
  wf_locked :
    state e ∈ [Locked; Released; Disputed] →
    requiresApproval (conditions e) = true →
    payer e ∈ approvals e ∧ payee e ∈ approvals e;
  wf_released :
    state e = Released → requiresDelivery (conditions e) = true →
    is_Some (deliveryProof e);
  wf_proof :
    is_Some (deliveryProof e) →
    state e ∈ [Locked; Released; Refunded; Disputed]
    ∧ (deliveryOnlyCondition e = true → state e = Released);
  wf_txHash : is_Some (txHash e) ↔ state e ≠ Pending;
  wf_stamp_funded : is_Some (funded (timeline e)) ↔ state e ≠ Pending;
  wf_stamp_locked :
    (state e ∈ [Locked; Released; Disputed] → is_Some (locked (timeline e)))
    ∧ (is_Some (locked (timeline e)) → state e ∉ [Pending; Funded]);
  wf_stamp_released : is_Some (released (timeline e)) ↔ state e = Released;
  wf_stamp_refunded : is_Some (refunded (timeline e)) ↔ state e = Refunded;
  wf_stamp_disputed :
    (state e = Disputed → is_Some (disputed (timeline e))
                          ∧ is_Some (disputeReason e))
    ∧ (is_Some (disputed (timeline e)) → state e ∈ [Disputed; Refunded]);
  wf_releaseReason :
    is_Some (releaseReason (metadata e)) ↔ state e = Released;
  wf_refundReason :
    is_Some (refundReason (metadata e)) ↔ state e = Refunded;
  wf_arbiter :
    ∀ who, arbiter (metadata e) = Some who →
           state e = Refunded
           ∧ refundReason (metadata e)
             = Some ("arbiter decision by " +:+ who)
           ∧ is_Some (disputed (timeline e))
}.

(** The saved file holds what the engine holds in memory. *)
Definition synced (w : World) : Prop := persisted w = escrows w.

(** The states an operation is legal from, and the error it throws from
    any other state. *)
Definition sources (o : Op) : list EscrowState :=
  match o with
  | OpFund _ _ => [Pending]
  | OpApprove _ _ => [Funded]
  | OpSubmitDelivery _ _ | OpRelease _ _ | OpDispute _ _ _ => [Locked]
  | OpRefund _ _ => [Funded; Locked; Disputed]
  | OpResolveDispute _ _ _ => [Disputed]
  | OpCreate _ | OpProcessTimeouts => []
  end.

Definition rejection (o : Op) (s : EscrowState) : Error :=
  match o with
  | OpFund _ _ => CannotFund s
  | OpApprove _ _ => CannotApprove s
  | OpSubmitDelivery _ _ => CannotSubmitDelivery s
  | OpRelease _ _ => CannotRelease s
  | OpRefund _ _ => CannotRefund s
  | OpDispute _ _ _ => CannotDispute s
  | OpResolveDispute _ _ _ => NotInDisputedState
  | OpCreate _ | OpProcessTimeouts => EscrowNotFound
  end.

(** What an operation throws when the value it looked up is inherited from
    [Object.prototype] and so has no [state]: the message of its test of
    the state, printed with [undefined]. *)
Definition stateless (o : Op) : Error :=
  match o with
  | OpFund _ _ => CannotFundUndefined
  | OpApprove _ _ => CannotApproveUndefined
  | OpSubmitDelivery _ _ => CannotSubmitDeliveryUndefined
  | OpRelease _ _ => CannotReleaseUndefined
  | OpRefund _ _ => CannotRefundUndefined
  | OpDispute _ _ _ => CannotDisputeUndefined
  | OpResolveDispute _ _ _ => NotInDisputedState
  | OpCreate _ | OpProcessTimeouts => EscrowNotFound
  end.

(** A sequence of operations, each run on what the one before left. *)
Definition runOps (ops : list Op) (w : World) : World :=
  foldl (λ w o, after o w) w ops.

(** ** More sample runs *)

Definition lockingOps (c : option ConditionsArg) : list Op :=
  [OpCreate (sampleParams c None); OpFund "esc_01" "0xtx1";
   OpApprove "esc_01" "alice"; OpApprove "esc_01" "bob"].

(** Delivery is the only condition; the proof is submitted. *)
Definition deliveredSample : World :=
  runOps (lockingOps (Some deliveryOnly)
          ++ [OpSubmitDelivery "esc_01" sampleProof]) sampleWorld.

(** Locked, with delivery as the only condition and nothing delivered. *)
Definition awaitingDeliverySample : World :=
  runOps (lockingOps (Some deliveryOnly)) sampleWorld.

(** Disputed, then refunded by the arbiter. *)
Definition arbitratedSample : World :=
  runOps (lockingOps None
          ++ [OpDispute "esc_01" (Some "alice") (Some "Incomplete delivery");
              OpResolveDispute "esc_01" "refund" "arbiter-agent"])
    sampleWorld.

(** Funded, approved by the payer only. *)
Definition halfApprovedSample : World :=
  runOps [OpCreate (sampleParams None None); OpFund "esc_01" "0xtx1";
          OpApprove "esc_01" "alice"] sampleWorld.

(** The sample escrow once funded, with the approvals given. *)
Definition fundedSample (approved : list string) : Escrow :=
  mkEscrow "esc_01" "alice" "bob" 100 "translation"
    (buildConditions noConditions) Funded
    (mkTimeline 1000 (Some 1001) None None None None)
    None approved None None (Some "0xtx1") (mkMetadata None None None).

Definition samplePayment : PaymentInfo :=
  mkPaymentInfo "0xServer" 20 (Some "USDC") "market data".

Definition defaultOptions : X402Options := mkX402Options None None None.

(** ** EscrowWithWebhooks, every method *)

(** The subclass overrides every method of the engine.  A method of the
    base class that calls [this.release] or [this.refund] reaches, on a
    wrapper instance, the override; the bodies below that make such calls
    therefore take the callee as a parameter.  [this.webhookManager.emit]
    returns a promise whose rejection is caught, so a call to it is
    recorded and cannot fail the method. *)
Module Wrapper.

(** The event names and payloads the wrapper passes to [emit]. *)
Inductive Webhook : Type :=
  | EscrowCreated (id payerId payeeId : string) (value : Z) (token about : string)
      (terms : Conditions) (createdAt : Z)
  | EscrowFunded (id payerId payeeId : string) (value : Z) (tx : option string)
      (fundedAt : option Z)
  | EscrowLocked (id payerId payeeId : string) (value : Z) (approved : list string)
      (lockedAt : option Z)
  | DeliveryProofSubmitted (id submitter : string) (stamp : Z)
  | EscrowReleased (id payerId payeeId : string) (value : Z) (why : string)
      (releasedAt : option Z)
  | EscrowRefunded (id payerId payeeId : string) (value : Z) (why : string)
      (refundedAt : option Z)
  | EscrowDisputed (id payerId payeeId : string) (value : Z)
      (who why : option string) (disputedAt : option Z)
  | DisputeResolved (id decision who : string) (resolvedAt : Z)
  | EscrowTimeout (id payerId payeeId : string) (value : Z) (timeoutAt : option Z).

(** The engine's world together with the calls made to [emit], latest
    last. *)
Record Hooked : Type := mkHooked {
  engine : World;
  sent : list Webhook
}.

(** What a wrapper method can throw: an error of the engine, or the
    [TypeError] of reading a property of [null]. *)
Inductive HookedError : Type :=
  | EngineError (err : Error)
  | TypeError.

Definition H (A : Type) : Type := Hooked → Hooked * (HookedError + A).

#[global] Instance H_ret : MRet H := λ A a h, (h, inr a).

#[global] Instance H_bind : MBind H := λ A B f m h,
  match m h with
  | (h', inr a) => f a h'
  | (h', inl err) => (h', inl err)
  end.

(** A method of the engine run on the wrapper's engine state. *)
Definition lift {A : Type} (m : M A) : H A :=
  λ h, match m (engine h) with
       | (w', inr a) => (mkHooked w' (sent h), inr a)
       | (w', inl err) => (mkHooked w' (sent h), inl (EngineError err))
       end.

Definition raise {A : Type} (err : HookedError) : H A := λ h, (h, inl err).

(** [this.webhookManager.emit(...).catch(...)] *)
Definition emitHook (ev : Webhook) : H unit :=
  λ h, (mkHooked (engine h) (sent h ++ [ev]), inr tt).

(** The bodies of the base methods that call [this.release] or
    [this.refund], with the callee left open. *)
Section Dispatch.

Variables thisRelease thisRefund : string → option string → H Escrow.

Definition submitDeliveryVia (id : string) (proof : ProofArg) : H Escrow :=
  escrow ← lift (findEscrow CannotSubmitDeliveryUndefined id);
  if decide (state escrow ≠ Locked)
  then raise (EngineError (CannotSubmitDelivery (state escrow)))
  else
    t ← lift dateNow;
    lift (putEscrow id (markDelivered t proof escrow));;
    (if requiresDelivery (conditions escrow)
        && negb (requiresArbiter (conditions escrow))
        && negb (requiresClientConfirmation (conditions escrow))
     then thisRelease id (Some "automatic - delivery confirmed");; mret tt
     else mret tt);;
    lift saveState;;
    lift (findEscrow CannotSubmitDeliveryUndefined id).

Definition resolveDisputeVia (id : string) (decision : string)
  (who : string) : H Escrow :=
  escrow ← lift (findEscrow NotInDisputedState id);
  if decide (state escrow ≠ Disputed)
  then raise (EngineError NotInDisputedState)
  else
    (if decide (decision = "release")
     then thisRelease id (Some ("arbiter decision by " +:+ who));; mret tt
     else if decide (decision = "refund")
     then thisRefund id (Some ("arbiter decision by " +:+ who));; mret tt
     else raise (EngineError (InvalidDisputeResolution decision)));;
    escrow ← lift (findEscrow NotInDisputedState id);
    let escrow := markArbiter who escrow in
    lift (putEscrow id escrow);;
    lift saveState;;
    mret escrow.

Definition sweepOneVia (now : Z) (expired : list string) (id : string)
  : H (list string) :=
  λ h, match escrows (engine h) !! id with
       | Some e =>
           if timedOut now e
           then (thisRefund id (Some "automatic timeout");;
                 mret (expired ++ [id])) h
           else (h, inr expired)
       | None => (h, inr expired)
       end.

Fixpoint sweepLoopVia (now : Z) (ids : list string) (expired : list string)
  : H (list string) :=
  match ids with
  | [] => mret expired
  | id :: rest =>
      expired ← sweepOneVia now expired id;
      sweepLoopVia now rest expired
  end.

Definition processTimeoutsVia : H (list string) :=
  now ← lift dateNow;
  ids ← lift entryIds;
  sweepLoopVia now ids [].

End Dispatch.

(** [create(params)]; [token] is [params.token]. *)
Definition create (p : CreateParams) (token : option string) : H Escrow :=
  escrow ← lift (create p);
  emitHook (EscrowCreated (escrowId escrow) (payer escrow) (payee escrow)
              (amount escrow) (orElse token "SHIB") (purpose escrow)
              (conditions escrow) (created (timeline escrow)));;
  mret escrow.

Definition fund (id : string) (tx : string) : H Escrow :=
  escrow ← lift (fund id tx);
  emitHook (EscrowFunded (escrowId escrow) (payer escrow) (payee escrow)
              (amount escrow) (txHash escrow) (funded (timeline escrow)));;
  mret escrow.

(** The event is emitted only when the escrow came back locked. *)
Definition approve (id : string) (approverId : string) : H Escrow :=
  escrow ← lift (approve id approverId);
  (if decide (state escrow = Locked)
   then emitHook (EscrowLocked (escrowId escrow) (payer escrow)
                    (payee escrow) (amount escrow) (approvals escrow)
                    (locked (timeline escrow)))
   else mret tt);;
  mret escrow.

Definition release (id : string) (why : option string) : H Escrow :=
  let why := default "manual release" why in
  escrow ← lift (release id (Some why));
  emitHook (EscrowReleased (escrowId escrow) (payer escrow) (payee escrow)
              (amount escrow) why (released (timeline escrow)));;
  mret escrow.

Definition refund (id : string) (why : option string) : H Escrow :=
  let why := default "manual refund" why in
  escrow ← lift (refund id (Some why));
  emitHook (EscrowRefunded (escrowId escrow) (payer escrow) (payee escrow)
              (amount escrow) why (refunded (timeline escrow)));;
  mret escrow.

(** [super.submitDelivery], whose automatic release is the wrapper's
    [release]; then, if the escrow is still locked, the delivery event,
    which reads [escrow.deliveryProof.submittedBy]. *)
Definition submitDelivery (id : string) (proof : ProofArg) : H Escrow :=
  escrow ← submitDeliveryVia release id proof;
  (if decide (state escrow = Locked)
   then match deliveryProof escrow with
        | Some dp =>
            emitHook (DeliveryProofSubmitted (escrowId escrow)
                        (submittedBy dp) (timestamp dp))
        | None => raise TypeError
        end
   else mret tt);;
  mret escrow.

(** [super.dispute(escrowId, reason)]: the base method receives the
    wrapper's [reason] as its [disputerId] and nothing as its [reason]. *)
Definition dispute (id : string) (who why : option string) : H Escrow :=
  escrow ← lift (dispute id why None);
  emitHook (EscrowDisputed (escrowId escrow) (payer escrow) (payee escrow)
              (amount escrow) who why (disputed (timeline escrow)));;
  mret escrow.

(** [resolvedAt: Date.now()] is one more reading of the clock. *)
Definition resolveDispute (id : string) (decision : string) (who : string)
  : H Escrow :=
  escrow ← resolveDisputeVia release refund id decision who;
  now ← lift dateNow;
  emitHook (DisputeResolved (escrowId escrow) decision who now);;
  mret escrow.

(** The loop over [expired]: [const escrow = this.get(escrowId);
    if (escrow) emit('escrow_timeout', ...)]. *)
Fixpoint announceTimeouts (expired : list string) : H unit :=
  match expired with
  | [] => mret tt
  | id :: rest =>
      escrow ← lift (getNow id);
      match escrow with
      | Some e =>
          emitHook (EscrowTimeout (escrowId e) (payer e) (payee e)
                      (amount e) (refunded (timeline e)))
      | None => mret tt
      end;;
      announceTimeouts rest
  end.

Definition processTimeouts : H (list string) :=
  expired ← processTimeoutsVia refund;
  announceTimeouts expired;;
  mret expired.

(** The operations as data, run on a wrapper instance. *)
Definition run (token : option string) (o : Op)
  : Hooked → Hooked * (HookedError + unit) :=
  match o with
  | OpCreate p => create p token ≫= λ _, mret tt
  | OpFund id tx => fund id tx ≫= λ _, mret tt
  | OpApprove id a => approve id a ≫= λ _, mret tt
  | OpSubmitDelivery id proof => submitDelivery id proof ≫= λ _, mret tt
  | OpRelease id why => release id why ≫= λ _, mret tt
  | OpRefund id why => refund id why ≫= λ _, mret tt
  | OpDispute id who why => dispute id who why ≫= λ _, mret tt
  | OpResolveDispute id d who => resolveDispute id d who ≫= λ _, mret tt
  | OpProcessTimeouts => processTimeouts ≫= λ _, mret tt
  end.

(** The base call whose effect on the store a wrapper call has: itself,
    but for [dispute]. *)
Definition baseOf (o : Op) : Op :=
  match o with
  | OpDispute id who why => OpDispute id why None
  | _ => o
  end.

(** A wrapper computation does to the engine what an engine computation
    does, returns what it returns and throws what it throws. *)
Definition mirrors {A : Type} (hm : H A) (m : M A) : Prop :=
  ∀ h,
    engine (fst (hm h)) = fst (m (engine h))
    ∧ snd (hm h) = match snd (m (engine h)) with
                   | inl err => inl (EngineError err)
                   | inr a => inr a
                   end.

End Wrapper.

(** The events about a stored record: the ['escrow_refunded'] payload the
    wrapper's [refund] builds and the ['escrow_timeout'] payload its
    [processTimeouts] builds. *)
Definition refundNotice (why : string) (e : Escrow) : Wrapper.Webhook :=
  Wrapper.EscrowRefunded (escrowId e) (payer e) (payee e) (amount e) why
    (refunded (timeline e)).

Definition timeoutNotice (e : Escrow) : Wrapper.Webhook :=
  Wrapper.EscrowTimeout (escrowId e) (payer e) (payee e) (amount e)
    (refunded (timeline e)).

(** An overdue escrow on a wrapper instance that has emitted nothing. *)
Definition overdueHooked : Wrapper.Hooked := Wrapper.mkHooked overdueWorld [].

(** A clock that reads 1000 at [create], 2000 at [fund], 61000 at the
    reading after that and 61001 from then on. *)
Definition advancingClock (n : nat) : Z :=
  match n with
  | O => 1000
  | S O => 2000
  | S (S O) => 61000
  | _ => 61001
  end.

(** A funded escrow whose timeout is 61000, the instant the next reading
    of the clock gives; the reading after that is past it. *)
Definition dueBetweenSweeps : World :=
  fst ((e ← create (sampleParams None (Some 1)); fund (escrowId e) "0xtx1")
         (newWorld advancingClock sampleEntropy)).

(** ** TippingSystem and TippingWithWebhooks *)

(** The tipping engine (class TippingSystem) keeps tips as the escrow engine keeps
    escrows: one object keyed by id, records changed in place, a file
    rewritten after each change.  Its subclass TippingWithWebhooks reports
    each change and adds [settlePayment].  The subclass is what is
    embedded here: each method runs the inherited body and then emits. *)
Module Tipping.

Inductive TipStatus : Type := TipPending | TipSent | TipConfirmed.

#[global] Instance TipStatus_eq_dec : EqDecision TipStatus.
Proof. solve_decision. Defined.

(** [tip.metadata]: the keys the methods write; a caller's own keys are
    left out. *)
Record TipMetadata : Type := mkTipMetadata {
  blockNumber : option Z;
  settlementData : option string;
  settledAt : option Z
}.

Record Tip : Type := mkTip {
  tipId : string;
  sender : string;
  recipient : string;
  tipAmount : Z;
  token : string;
  tipReason : string;
  status : TipStatus;
  createdAt : Z;
  sentAt : option Z;
  confirmedAt : option Z;
  tipTxHash : option string;
  tipMetadata : TipMetadata
}.

(** The parameter object of [create]; [None] is a key left out.  The
    amount is taken to be a number that was given. *)
Record TipParams : Type := mkTipParams {
  paramSender : option string;
  paramRecipient : option string;
  paramTipAmount : Z;
  paramToken : option string;
  paramReason : option string
}.

(** What the methods throw.  The last three are thrown on a value that
    [this.tips[tipId]] inherits from [Object.prototype] (see
    [objectPrototypeNames]), which is truthy and has neither [status] nor
    [metadata]: the two messages that print the status print [undefined],
    and [settlePayment] fails with a [TypeError] when it assigns to a
    property of [tip.metadata]. *)
Inductive TipError : Type :=
  | SenderAndRecipientRequired
  | AmountMustBePositive
  | TipNotFound
  | CannotMarkSent (s : TipStatus)
  | CannotConfirm (s : TipStatus)
  | CannotMarkSentUndefined
  | CannotConfirmUndefined
  | MetadataUndefined.

Inductive TipEvent : Type :=
  | TipCreated (id from_ to_ : string) (value : Z) (tok why : string)
      (createdAt_ : Z)
  | TipSentEvent (id from_ to_ : string) (value : Z) (tok : string)
      (tx : option string) (sentAt_ : option Z)
  | TippingReceived (id from_ to_ : string) (value : Z) (tok why : string)
      (tx : option string) (confirmedAt_ : option Z)
  | PaymentSettled (id from_ to_ : string) (value : Z) (tok : string)
      (settlement : string) (settledAt_ : option Z).

(** The tips in memory, the tips in the file as [loadState] would read
    them, the clock and the ids to come, the calls made to [emit], and the
    disk: [tipDisk n] tells how the [n]-th write of the file goes, [None]
    when it succeeds and [Some stale] when it fails and leaves a file that
    reads as [stale]; [tipWrites] counts the writes made so far. *)
Record TipWorld : Type := mkTipWorld {
  tips : gmap string Tip;
  savedTips : gmap string Tip;
  tipClock : nat → Z;
  tipTicks : nat;
  tipEntropy : nat → string;
  tipDraws : nat;
  tipsEmitted : list TipEvent;
  tipDisk : nat → option (gmap string Tip);
  tipWrites : nat
}.

Definition T (A : Type) : Type := TipWorld → TipWorld * (TipError + A).

#[global] Instance T_ret : MRet T := λ A a w, (w, inr a).

#[global] Instance T_bind : MBind T := λ A B f m w,
  match m w with
  | (w', inr a) => f a w'
  | (w', inl err) => (w', inl err)
  end.

Definition throwTip {A : Type} (err : TipError) : T A := λ w, (w, inl err).

Definition tipNow : T Z :=
  λ w, (mkTipWorld (tips w) (savedTips w) (tipClock w) (S (tipTicks w))
          (tipEntropy w) (tipDraws w) (tipsEmitted w) (tipDisk w)
          (tipWrites w),
        inr (tipClock w (tipTicks w))).

Definition freshTipId : T string :=
  λ w, (mkTipWorld (tips w) (savedTips w) (tipClock w) (tipTicks w)
          (tipEntropy w) (S (tipDraws w)) (tipsEmitted w) (tipDisk w)
          (tipWrites w),
        inr (tipEntropy w (tipDraws w))).

(** [const tip = this.tips[tipId]; if (!tip) throw new Error('Tip not
    found')], up to the first use of the tip that follows.  [this.tips] is
    a plain object, so for one of [objectPrototypeNames] with no tip
    stored under it the lookup gives an inherited value, which passes
    [!tip]; the method then throws [propertyless] at its first use of a
    property of the tip. *)
Definition findTip (propertyless : TipError) (id : string) : T Tip :=
  λ w, match tips w !! id with
       | Some t => (w, inr t)
       | None =>
           if inherited id then (w, inl propertyless)
           else (w, inl TipNotFound)
       end.

Definition putTip (id : string) (t : Tip) : T unit :=
  λ w, (mkTipWorld (<[id := t]> (tips w)) (savedTips w) (tipClock w)
          (tipTicks w) (tipEntropy w) (tipDraws w) (tipsEmitted w)
          (tipDisk w) (tipWrites w),
        inr tt).

(** What the file reads as after one more write of [current]. *)
Definition written (current : gmap string Tip)
  (result : option (gmap string Tip)) : gmap string Tip :=
  match result with
  | None => current
  | Some stale => stale
  end.

(** [saveState()]: [try { fs.writeFileSync(...) } catch (error)
    { console.error(...) }].  A write that fails is logged and swallowed:
    the method returns all the same, with the file as the failed write
    left it. *)
Definition saveTips : T unit :=
  λ w, (mkTipWorld (tips w) (written (tips w) (tipDisk w (tipWrites w)))
          (tipClock w) (tipTicks w) (tipEntropy w) (tipDraws w)
          (tipsEmitted w) (tipDisk w) (S (tipWrites w)),
        inr tt).

Definition emitTip (ev : TipEvent) : T unit :=
  λ w, (mkTipWorld (tips w) (savedTips w) (tipClock w) (tipTicks w)
          (tipEntropy w) (tipDraws w) (tipsEmitted w ++ [ev]) (tipDisk w)
          (tipWrites w),
        inr tt).

(** [if (x) tip.txHash = x]: a truthy value overwrites, anything else
    leaves what was there. *)
Definition orKeep (new old : option string) : option string :=
  match orNull new with
  | Some x => Some x
  | None => old
  end.

Definition orKeepNumber (new old : option Z) : option Z :=
  match new with
  | Some n => if decide (n = 0) then old else Some n
  | None => old
  end.

Definition markedSent (t : Z) (tx : option string) (tip : Tip) : Tip :=
  mkTip (tipId tip) (sender tip) (recipient tip) (tipAmount tip) (token tip)
    (tipReason tip) TipSent (createdAt tip) (Some t) (confirmedAt tip)
    (orKeep tx (tipTxHash tip)) (tipMetadata tip).

Definition markedConfirmed (t : Z) (tx : option string) (block : option Z)
  (tip : Tip) : Tip :=
  mkTip (tipId tip) (sender tip) (recipient tip) (tipAmount tip) (token tip)
    (tipReason tip) TipConfirmed (createdAt tip) (sentAt tip) (Some t)
    (orKeep tx (tipTxHash tip))
    (mkTipMetadata (orKeepNumber block (blockNumber (tipMetadata tip)))
       (settlementData (tipMetadata tip)) (settledAt (tipMetadata tip))).

Definition markedSettled (t : Z) (settlement : string) (tip : Tip) : Tip :=
  mkTip (tipId tip) (sender tip) (recipient tip) (tipAmount tip) (token tip)
    (tipReason tip) (status tip) (createdAt tip) (sentAt tip)
    (confirmedAt tip) (tipTxHash tip)
    (mkTipMetadata (blockNumber (tipMetadata tip)) (Some settlement)
       (Some t)).

(** [TippingSystem.create], then the ['tip_created'] event. *)
Definition create (p : TipParams) : T Tip :=
  match orNull (paramSender p), orNull (paramRecipient p) with
  | Some from_, Some to_ =>
      if bool_decide (paramTipAmount p ≤ 0) then throwTip AmountMustBePositive
      else
        id ← freshTipId;
        now ← tipNow;
        let tip :=
          mkTip id from_ to_ (paramTipAmount p)
            (default "SHIB" (paramToken p)) (default "" (paramReason p))
            TipPending now None None None (mkTipMetadata None None None) in
        putTip id tip;;
        saveTips;;
        emitTip (TipCreated (tipId tip) (sender tip) (recipient tip)
                   (tipAmount tip) (token tip) (tipReason tip)
                   (createdAt tip));;
        mret tip
  | _, _ => throwTip SenderAndRecipientRequired
  end.

(** [TippingSystem.markSent], then the ['tip_sent'] event. *)
Definition markSent (id : string) (tx : option string) : T Tip :=
  tip ← findTip CannotMarkSentUndefined id;
  if decide (status tip ≠ TipPending) then throwTip (CannotMarkSent (status tip))
  else
    t ← tipNow;
    let tip := markedSent t tx tip in
    putTip id tip;;
    saveTips;;
    emitTip (TipSentEvent (tipId tip) (sender tip) (recipient tip)
               (tipAmount tip) (token tip) (tipTxHash tip) (sentAt tip));;
    mret tip.

(** [TippingSystem.confirm], then the ['tipping_received'] event. *)
Definition confirm (id : string) (tx : option string) (block : option Z)
  : T Tip :=
  tip ← findTip CannotConfirmUndefined id;
  if negb (bool_decide (status tip ∈ [TipPending; TipSent]))
  then throwTip (CannotConfirm (status tip))
  else
    t ← tipNow;
    let tip := markedConfirmed t tx block tip in
    putTip id tip;;
    saveTips;;
    emitTip (TippingReceived (tipId tip) (sender tip) (recipient tip)
               (tipAmount tip) (token tip) (tipReason tip) (tipTxHash tip)
               (confirmedAt tip));;
    mret tip.

(** [settlePayment(tipId, settlementData)]: no test of the status.  The
    first statement after the lookup assigns to
    [tip.metadata.settlementData], before the clock is read. *)
Definition settlePayment (id : string) (settlement : string) : T Tip :=
  tip ← findTip MetadataUndefined id;
  t ← tipNow;
  let tip := markedSettled t settlement tip in
  putTip id tip;;
  saveTips;;
  emitTip (PaymentSettled (tipId tip) (sender tip) (recipient tip)
             (tipAmount tip) (token tip) settlement
             (settledAt (tipMetadata tip)));;
  mret tip.

Inductive TipOp : Type :=
  | DoCreate (p : TipParams)
  | DoMarkSent (id : string) (tx : option string)
  | DoConfirm (id : string) (tx : option string) (block : option Z)
  | DoSettle (id : string) (settlement : string).

Definition tipAfter (o : TipOp) (w : TipWorld) : TipWorld :=
  match o with
  | DoCreate p => fst (create p w)
  | DoMarkSent id tx => fst (markSent id tx w)
  | DoConfirm id tx block => fst (confirm id tx block w)
  | DoSettle id settlement => fst (settlePayment id settlement w)
  end.

Definition tipThrown (o : TipOp) (w : TipWorld) : option TipError :=
  match o with
  | DoCreate p => match snd (create p w) with inl e => Some e | _ => None end
  | DoMarkSent id tx =>
      match snd (markSent id tx w) with inl e => Some e | _ => None end
  | DoConfirm id tx block =>
      match snd (confirm id tx block w) with inl e => Some e | _ => None end
  | DoSettle id settlement =>
      match snd (settlePayment id settlement w) with
      | inl e => Some e
      | _ => None
      end
  end.

Definition newTipWorld (clk : nat → Z) (ent : nat → string)
  (disk : nat → option (gmap string Tip)) : TipWorld :=
  mkTipWorld ∅ ∅ clk 0 ent 0 [] disk 0.

Inductive tipReachable : TipWorld → Prop :=
  | tipReachable_new clk ent disk : tipReachable (newTipWorld clk ent disk)
  | tipReachable_step w o : tipReachable w → tipReachable (tipAfter o w).

(** The arrows of the status diagram, with staying put. *)
Definition tipEdge (s s' : TipStatus) : bool :=
  match s, s' with
  | TipPending, _ => true
  | TipSent, (TipSent | TipConfirmed) => true
  | TipConfirmed, TipConfirmed => true
  | _, _ => false
  end.

(** Every way a method rewrites a stored tip. *)
Inductive tipStep : Tip → Tip → Prop :=
  | step_sent tip t tx :
      status tip = TipPending → tipStep tip (markedSent t tx tip)
  | step_confirmed tip t tx block :
      status tip ∈ [TipPending; TipSent] →
      tipStep tip (markedConfirmed t tx block tip)
  | step_settled tip t settlement :
      tipStep tip (markedSettled t settlement tip).

(** What [create] stores. *)
Definition tipBorn (id : string) (tip : Tip) : Prop :=
  tipId tip = id ∧ status tip = TipPending ∧ sender tip ≠ ""
  ∧ recipient tip ≠ "" ∧ 0 < tipAmount tip
  ∧ sentAt tip = None ∧ confirmedAt tip = None.

(** What holds of every tip of a reachable store. *)
Definition tipValid (id : string) (tip : Tip) : Prop :=
  tipId tip = id ∧ sender tip ≠ "" ∧ recipient tip ≠ ""
  ∧ 0 < tipAmount tip
  ∧ (is_Some (confirmedAt tip) ↔ status tip = TipConfirmed)
  ∧ (status tip = TipSent → is_Some (sentAt tip))
  ∧ (status tip = TipPending → sentAt tip = None).

Definition sampleTipWorld : TipWorld :=
  newTipWorld (λ n, 1000 + Z.of_nat n)
    (λ n, match n with O => "tip_01" | _ => "tip_02" end)
    (λ _, None).

(** The same engine on a disk whose every write fails and leaves the file
    empty. *)
Definition fullDiskTipWorld : TipWorld :=
  newTipWorld (λ n, 1000 + Z.of_nat n)
    (λ n, match n with O => "tip_01" | _ => "tip_02" end)
    (λ _, Some ∅).

Definition sampleTipParams : TipParams :=
  mkTipParams (Some "alice") (Some "bob") 50 None (Some "thanks").

Definition confirmedTipWorld : TipWorld :=
  tipAfter (DoConfirm "tip_01" (Some "0xabc") None)
    (tipAfter (DoCreate sampleTipParams) sampleTipWorld).

End Tipping.

(** ** Equations of the single operations *)

Ltac unfold_ops :=
  unfold mbind, mret, M_bind, M_ret, throw, findEscrow, putEscrow, saveState,
    dateNow, freshId, emit.

Lemma release_wrong_state w id e why :
  escrows w !! id = Some e → state e ≠ Locked →
  release id why w = (w, inl (CannotRelease (state e))).
Proof.
  intros Hid Hst. unfold release. unfold_ops. rewrite Hid.
  by rewrite decide_True.
Qed.

Lemma release_needs_proof w id e why :
  escrows w !! id = Some e → state e = Locked →
  requiresDelivery (conditions e) = true → deliveryProof e = None →
  release id why w = (w, inl DeliveryProofRequired).
Proof.
  intros Hid Hst Hreq Hnone. unfold release. unfold_ops. rewrite Hid.
  rewrite decide_False by (rewrite Hst; tauto).
  by rewrite Hreq, Hnone.
Qed.

Lemma release_ok w id e why :
  escrows w !! id = Some e → state e = Locked →
  requiresDelivery (conditions e) = false ∨ deliveryProof e ≠ None →
  let e' := markReleased (clock w (ticks w)) (default "manual release" why) e in
  release id why w = (commit id e' (tick w), inr e').
Proof.
  intros Hid Hst Hcond. unfold release. unfold_ops. rewrite Hid.
  rewrite decide_False by (rewrite Hst; tauto).
  destruct Hcond as [-> | Hproof]; simpl.
  - reflexivity.
  - rewrite bool_decide_eq_false_2 by done. by rewrite andb_false_r.
Qed.

Lemma refund_wrong_state w id e why :
  escrows w !! id = Some e → state e ∉ [Funded; Locked; Disputed] →
  refund id why w = (w, inl (CannotRefund (state e))).
Proof.
  intros Hid Hst. unfold refund. unfold_ops. rewrite Hid.
  by rewrite bool_decide_eq_false_2.
Qed.

Lemma refund_ok w id e why :
  escrows w !! id = Some e → state e ∈ [Funded; Locked; Disputed] →
  let e' := markRefunded (clock w (ticks w)) (default "manual refund" why) e in
  refund id why w = (commit id e' (tick w), inr e').
Proof.
  intros Hid Hst. unfold refund. unfold_ops. rewrite Hid.
  by rewrite bool_decide_eq_true_2.
Qed.

Lemma dispute_ok w id e who why :
  escrows w !! id = Some e → state e = Locked →
  let e' := markDisputed (clock w (ticks w)) (clock w (S (ticks w))) who why e in
  dispute id who why w = (commit id e' (tick (tick w)), inr e').
Proof.
  intros Hid Hst. unfold dispute. unfold_ops. rewrite Hid.
  by rewrite decide_False by (rewrite Hst; tauto).
Qed.

Lemma submitDelivery_wrong_state w id e proof :
  escrows w !! id = Some e → state e ≠ Locked →
  submitDelivery id proof w = (w, inl (CannotSubmitDelivery (state e))).
Proof.
  intros Hid Hst. unfold submitDelivery. unfold_ops. rewrite Hid.
  by rewrite decide_True.
Qed.

(** In state [locked] the proof is stored; when delivery is the only
    condition the record is released in the same call. *)
Lemma submitDelivery_locked w id e proof :
  escrows w !! id = Some e → state e = Locked →
  let d := markDelivered (clock w (ticks w)) proof e in
  let auto := requiresDelivery (conditions e)
              && negb (requiresArbiter (conditions e))
              && negb (requiresClientConfirmation (conditions e)) in
  let e' := if auto
            then markReleased (clock w (S (ticks w)))
                   "automatic - delivery confirmed" d
            else d in
  ∃ w', submitDelivery id proof w = (w', inr e')
        ∧ escrows w' !! id = Some e'
        ∧ persisted w' = escrows w'
        ∧ ∀ j, j ≠ id → escrows w' !! j = escrows w !! j.
Proof.
  intros Hid Hst d auto e'. unfold submitDelivery. unfold_ops. rewrite Hid.
  rewrite decide_False by (rewrite Hst; tauto). simpl.
  fold d. fold auto. subst e'. destruct auto eqn:Hauto.
  - unfold release. unfold_ops. simpl. rewrite lookup_insert_eq. simpl.
    rewrite decide_False by (rewrite Hst; tauto). simpl.
    rewrite andb_false_r. simpl. rewrite !lookup_insert_eq.
    eexists. split; [reflexivity|]. simpl. rewrite lookup_insert_eq.
    repeat split. intros j Hj. by rewrite !lookup_insert_ne.
  - simpl. rewrite lookup_insert_eq.
    eexists. split; [reflexivity|]. simpl. rewrite lookup_insert_eq.
    repeat split. intros j Hj. by rewrite lookup_insert_ne.
Qed.

Lemma create_ok w p :
  let id := entropy w (draws w) in
  let now := clock w (ticks w) in
  let e := mkEscrow id (paramPayer p) (paramPayee p) (paramAmount p)
             (paramPurpose p)
             (buildConditions (default noConditions (paramConditions p)))
             Pending (mkTimeline now None None None None None)
             (timeoutOf now (paramTimeoutMinutes p))
             [] None None None (mkMetadata None None None) in
  create p w = (commit id e (tick (setDraws (S (draws w)) w)), inr e).
Proof. reflexivity. Qed.

Lemma resolveDispute_wrong_state w id e decision who :
  escrows w !! id = Some e → state e ≠ Disputed →
  resolveDispute id decision who w = (w, inl NotInDisputedState).
Proof.
  intros Hid Hst. unfold resolveDispute. unfold_ops. rewrite Hid.
  by rewrite decide_True.
Qed.

(** ** Disputes, deliveries and creation *)

(** C1 (what the code does): on a disputed escrow,
    [resolveDispute(id, 'release', arbiter)] never succeeds.  It delegates
    to [release], whose state test accepts only [locked], so the call throws
    "Cannot release escrow in state: disputed"; the escrow stays disputed
    and no arbiter is stamped: the world is left exactly as it was. *)
Theorem C1_resolveDispute_release_throws w id e who :
  escrows w !! id = Some e → state e = Disputed →
  resolveDispute id "release" who w = (w, inl (CannotRelease Disputed)).
Proof.
  intros Hid Hst. unfold resolveDispute. unfold_ops. rewrite Hid.
  rewrite decide_False by (rewrite Hst; tauto). simpl.
  rewrite (release_wrong_state w id e) by (done || by rewrite Hst).
  by rewrite Hst.
Qed.

Lemma C1_witness :
  (state <$> escrows disputedWorld !! "esc_01") = Some Disputed
  ∧ resolveDispute "esc_01" "release" "arbiter-agent" disputedWorld
    = (disputedWorld, inl (CannotRelease Disputed)).
Proof.
  split; [vm_compute; reflexivity|].
  eapply C1_resolveDispute_release_throws; vm_compute; reflexivity.
Defined.

(** The sibling decision works: ['refund'] on a disputed escrow succeeds,
    ends in [refunded] and stamps the arbiter. *)
Lemma resolveDispute_refund_ok w id e who :
  escrows w !! id = Some e → state e = Disputed →
  let e' := markArbiter who
              (markRefunded (clock w (ticks w))
                 ("arbiter decision by " +:+ who) e) in
  ∃ w', resolveDispute id "refund" who w = (w', inr e')
        ∧ escrows w' !! id = Some e'.
Proof.
  intros Hid Hst e'. unfold resolveDispute. unfold_ops. rewrite Hid.
  rewrite decide_False by (rewrite Hst; tauto). simpl.
  rewrite (refund_ok w id e) by (done || (rewrite Hst; set_solver)).
  simpl. rewrite lookup_insert_eq. eexists. split; [reflexivity|].
  simpl. by rewrite lookup_insert_eq.
Qed.

(** C4, as stated, fails: after a successful [dispute] a direct
    [refund(id, reason)] succeeds and moves the escrow to [refunded]. *)
Lemma C4_counterexample :
  (state <$> escrows (lockedWorld None) !! "esc_01") = Some Locked
  ∧ (state <$> escrows disputedWorld !! "esc_01") = Some Disputed
  ∧ outcomeState (snd (refund "esc_01" (Some "changed my mind")
                         disputedWorld))
    = inr Refunded
  ∧ (state <$> escrows (fst (refund "esc_01" (Some "changed my mind")
                                disputedWorld)) !! "esc_01")
    = Some Refunded.
Proof. vm_compute. repeat split. Qed.

(** C4 (amended): a [dispute] on a locked escrow succeeds, records the
    disputer and the reason and leaves the escrow disputed.  From then on a
    direct [release] fails with "Cannot release escrow in state: disputed"
    and changes nothing, while a direct [refund] is legal and moves the
    escrow to [refunded]. *)
Theorem C4_dispute_blocks_release_not_refund w id e who why :
  escrows w !! id = Some e → state e = Locked →
  ∃ w1 e1,
    dispute id who why w = (w1, inr e1)
    ∧ escrows w1 !! id = Some e1
    ∧ state e1 = Disputed
    ∧ disputeReason e1
      = Some (mkDisputeReason who why (clock w (S (ticks w))))
    ∧ (∀ r, release id r w1 = (w1, inl (CannotRelease Disputed)))
    ∧ (∀ r, ∃ w2 e2, refund id r w1 = (w2, inr e2)
                     ∧ escrows w2 !! id = Some e2
                     ∧ state e2 = Refunded).
Proof.
  intros Hid Hst. eexists _, _.
  split; [by apply (dispute_ok w id e)|].
  assert (Hid1 : escrows (commit id
             (markDisputed (clock w (ticks w)) (clock w (S (ticks w)))
                who why e) (tick (tick w))) !! id
           = Some (markDisputed (clock w (ticks w)) (clock w (S (ticks w)))
                     who why e))
    by (simpl; apply lookup_insert_eq).
  repeat split; try done.
  - intros r. by rewrite (release_wrong_state _ _ _ r Hid1).
  - intros r. eexists _, _. split.
    + apply (refund_ok _ _ _ r Hid1). simpl. set_solver.
    + simpl. by rewrite lookup_insert_eq.
Qed.

Lemma C4_witness :
  ∃ w1 e1,
    dispute "esc_01" (Some "alice") (Some "Incomplete delivery")
      (lockedWorld None) = (w1, inr e1)
    ∧ escrows w1 !! "esc_01" = Some e1
    ∧ state e1 = Disputed
    ∧ disputeReason e1
      = Some (mkDisputeReason (Some "alice") (Some "Incomplete delivery")
                (clock (lockedWorld None) (S (ticks (lockedWorld None)))))
    ∧ (∀ r, release "esc_01" r w1 = (w1, inl (CannotRelease Disputed)))
    ∧ (∀ r, ∃ w2 e2, refund "esc_01" r w1 = (w2, inr e2)
                     ∧ escrows w2 !! "esc_01" = Some e2
                     ∧ state e2 = Refunded).
Proof.
  eapply C4_dispute_blocks_release_not_refund; vm_compute; reflexivity.
Defined.

(** C5, as stated, fails: on a locked escrow that already holds a delivery
    proof (here one that also needs an arbiter, so nothing was released) a
    second [submitDelivery] returns normally and the stored proof is the
    new one. *)
Lemma C5_counterexample :
  let w1 := fst (submitDelivery "esc_01" sampleProof
                   (lockedWorld (Some deliveryWithArbiter))) in
  let r := submitDelivery "esc_01" secondProof w1 in
  (data <$> (escrows w1 !! "esc_01" ≫= deliveryProof))
    = Some "https://storage.example.com/model.pth"
  ∧ outcomeState (snd r) = inr Locked
  ∧ (data <$> (escrows (fst r) !! "esc_01" ≫= deliveryProof))
    = Some "https://storage.example.com/other.pth".
Proof. vm_compute. repeat split. Qed.

(** C5 (amended): the delivery proof is not write-once.  For an escrow that
    already holds a proof, [submitDelivery] fails only when the state is
    not [locked], with "Cannot submit delivery for escrow in state: ..."
    and the world, hence the stored proof, unchanged; in state [locked] it
    returns normally and the stored proof is the one built from the new
    argument. *)
Theorem C5_submitDelivery_overwrites w id e old proof :
  escrows w !! id = Some e → deliveryProof e = Some old →
  (state e ≠ Locked →
     submitDelivery id proof w = (w, inl (CannotSubmitDelivery (state e))))
  ∧ (state e = Locked →
     ∃ w' e', submitDelivery id proof w = (w', inr e')
              ∧ escrows w' !! id = Some e'
              ∧ deliveryProof e'
                = Some (mkDeliveryProof
                          (orElse (argSubmittedBy proof) (payee e))
                          (clock w (ticks w)) (argData proof)
                          (orNull (argSignature proof)))).
Proof.
  intros Hid _. split.
  - intros Hst. by apply submitDelivery_wrong_state.
  - intros Hst.
    destruct (submitDelivery_locked w id e proof Hid Hst)
      as (w' & Hrun & Hid' & _).
    eexists _, _. split; [exact Hrun|]. split; [exact Hid'|].
    by destruct (requiresDelivery (conditions e)
                 && negb (requiresArbiter (conditions e))
                 && negb (requiresClientConfirmation (conditions e))).
Qed.

Lemma C5_witness :
  let w1 := fst (submitDelivery "esc_01" sampleProof
                   (lockedWorld (Some deliveryWithArbiter))) in
  ∃ w' e', submitDelivery "esc_01" secondProof w1 = (w', inr e')
           ∧ escrows w' !! "esc_01" = Some e'
           ∧ deliveryProof e'
             = Some (mkDeliveryProof "bob" (clock w1 (ticks w1))
                       "https://storage.example.com/other.pth" None).
Proof.
  intros w1.
  eapply (proj2 (C5_submitDelivery_overwrites w1 "esc_01" _ _ secondProof
                   _ _) _).
  Unshelve. 3-5: vm_compute; reflexivity.
Defined.

(** C6, as stated, fails: [create] has no test on the amount; with amount
    [0] and with amount [-5] it returns a pending record like any other. *)
Lemma C6_counterexample :
  outcomeState
    (snd (create (mkCreateParams "alice" "bob" 0 "nothing" None None)
            sampleWorld)) = inr Pending
  ∧ outcomeState
      (snd (create (mkCreateParams "alice" "bob" (-5) "less" None None)
              sampleWorld)) = inr Pending
  ∧ (amount <$> escrows
       (fst (create (mkCreateParams "alice" "bob" (-5) "less" None None)
               sampleWorld)) !! "esc_01") = Some (-5).
Proof. vm_compute. repeat split. Qed.

(** C6 (amended): [create] never fails, whatever the amount.  It returns a
    new record in state [pending] carrying the caller's parties and amount,
    with no approvals and no delivery proof; the record is stored under the
    fresh id and the store is saved.  Apart from drawing the id and reading
    the clock once, nothing else changes: every other record stays as it
    was and no event is emitted. *)
Theorem C6_create_always_pending w p :
  ∃ w' e,
    create p w = (w', inr e)
    ∧ state e = Pending
    ∧ escrowId e = entropy w (draws w)
    ∧ payer e = paramPayer p ∧ payee e = paramPayee p
    ∧ amount e = paramAmount p
    ∧ approvals e = [] ∧ deliveryProof e = None
    ∧ escrows w' = <[escrowId e := e]> (escrows w)
    ∧ persisted w' = escrows w'
    ∧ events w' = events w
    ∧ ticks w' = S (ticks w) ∧ draws w' = S (draws w).
Proof. eexists _, _. split; [apply create_ok|]. by repeat split. Qed.

(** C7: when delivery is the only condition ([requiresDelivery] true,
    [requiresArbiter] and [requiresClientConfirmation] false), a
    [submitDelivery] on a locked escrow returns normally and the escrow it
    returns, which is the one then stored and saved, is in state
    [released] and holds the proof. *)
Theorem C7_submitDelivery_auto_releases w id e proof :
  escrows w !! id = Some e → state e = Locked →
  requiresDelivery (conditions e) = true →
  requiresArbiter (conditions e) = false →
  requiresClientConfirmation (conditions e) = false →
  ∃ w' e',
    submitDelivery id proof w = (w', inr e')
    ∧ escrows w' !! id = Some e'
    ∧ persisted w' = escrows w'
    ∧ state e' = Released
    ∧ state e' ≠ Locked
    ∧ is_Some (deliveryProof e').
Proof.
  intros Hid Hst Hdel Harb Hconf.
  destruct (submitDelivery_locked w id e proof Hid Hst)
    as (w' & Hrun & Hid' & Hsaved & _).
  rewrite Hdel, Harb, Hconf in Hrun, Hid'. simpl in Hrun, Hid'.
  eexists _, _. split; [exact Hrun|]. split; [exact Hid'|].
  split; [exact Hsaved|]. simpl. repeat split; eauto.
Qed.

Lemma C7_witness :
  ∃ w' e',
    submitDelivery "esc_01" sampleProof (lockedWorld (Some deliveryOnly))
    = (w', inr e')
    ∧ escrows w' !! "esc_01" = Some e'
    ∧ persisted w' = escrows w'
    ∧ state e' = Released
    ∧ state e' ≠ Locked
    ∧ is_Some (deliveryProof e').
Proof.
  eapply C7_submitDelivery_auto_releases; vm_compute; reflexivity.
Defined.

(** C8, as stated, fails in its second half: when delivery is the only
    condition, [submitDelivery] has itself released the escrow, so the same
    [release] call that failed for want of a proof now fails with "Cannot
    release escrow in state: released". *)
Lemma C8_counterexample :
  let w := lockedWorld (Some deliveryOnly) in
  let w1 := fst (submitDelivery "esc_01" sampleProof w) in
  (state <$> escrows w !! "esc_01") = Some Locked
  ∧ (escrows w !! "esc_01" ≫= deliveryProof) = None
  ∧ snd (release "esc_01" (Some "confirmed") w) = inl DeliveryProofRequired
  ∧ outcomeState (snd (submitDelivery "esc_01" sampleProof w)) = inr Released
  ∧ snd (release "esc_01" (Some "confirmed") w1)
    = inl (CannotRelease Released).
Proof. vm_compute. repeat split. Qed.

(** C8 (amended): on a locked escrow with [requiresDelivery] and no proof,
    [release] fails with "Delivery proof required before release" and
    leaves the world unchanged.  After [submitDelivery] on that escrow the
    same [release] call succeeds and leaves it released when the escrow
    also requires an arbiter or the client's confirmation; otherwise
    [submitDelivery] has already released it and the call fails with
    "Cannot release escrow in state: released", changing nothing. *)
Theorem C8_release_needs_delivery w id e why proof :
  escrows w !! id = Some e → state e = Locked →
  requiresDelivery (conditions e) = true → deliveryProof e = None →
  release id why w = (w, inl DeliveryProofRequired)
  ∧ ∃ w1 e1,
      submitDelivery id proof w = (w1, inr e1)
      ∧ if requiresArbiter (conditions e)
           || requiresClientConfirmation (conditions e)
        then ∃ w2 e2, release id why w1 = (w2, inr e2)
                      ∧ escrows w2 !! id = Some e2
                      ∧ state e2 = Released
        else state e1 = Released
             ∧ release id why w1 = (w1, inl (CannotRelease Released)).
Proof.
  intros Hid Hst Hdel Hnone.
  split; [by apply (release_needs_proof w id e)|].
  destruct (submitDelivery_locked w id e proof Hid Hst)
    as (w1 & Hrun & Hid1 & _).
  rewrite Hdel in Hrun, Hid1. simpl in Hrun, Hid1.
  eexists _, _. split; [exact Hrun|].
  destruct (requiresArbiter (conditions e)) eqn:Harb;
    [|destruct (requiresClientConfirmation (conditions e)) eqn:Hconf];
    simpl in *.
  - eexists _, _. split.
    + apply (release_ok _ _ _ why Hid1); [done|]. by right.
    + simpl. by rewrite lookup_insert_eq.
  - eexists _, _. split.
    + apply (release_ok _ _ _ why Hid1); [done|]. by right.
    + simpl. by rewrite lookup_insert_eq.
  - split; [done|]. by rewrite (release_wrong_state _ _ _ why Hid1).
Qed.

Lemma C8_witness :
  let w := lockedWorld (Some deliveryWithArbiter) in
  release "esc_01" (Some "confirmed") w = (w, inl DeliveryProofRequired)
  ∧ ∃ w1 e1,
      submitDelivery "esc_01" sampleProof w = (w1, inr e1)
      ∧ ∃ w2 e2, release "esc_01" (Some "confirmed") w1 = (w2, inr e2)
                 ∧ escrows w2 !! "esc_01" = Some e2
                 ∧ state e2 = Released.
Proof.
  intros w.
  apply (C8_release_needs_delivery w "esc_01"
           (lockedSample (Some deliveryWithArbiter)) (Some "confirmed")
           sampleProof); vm_compute; reflexivity.
Defined.

(** C10 (what the code does): the wrapper calls the base [dispute] with its
    [reason] in the place of [disputerId] and with nothing in the place of
    [reason].  On a locked escrow the stored dispute record therefore has
    the wrapper's [reason] as its [disputerId] and [undefined] as its
    [reason]; only the emitted event carries the arguments as given. *)
Theorem C10_wrapper_dispute_shifts_arguments w id e who why :
  escrows w !! id = Some e → state e = Locked →
  ∃ w' e',
    EscrowWithWebhooks.dispute id who why w = (w', inr e')
    ∧ escrows w' !! id = Some e'
    ∧ e' = markDisputed (clock w (ticks w)) (clock w (S (ticks w)))
             why None e
    ∧ (disputerId <$> disputeReason e') = Some why
    ∧ (reason <$> disputeReason e') = Some None
    ∧ events w'
      = events w ++ [EscrowDisputedEvent (escrowId e) (payer e) (payee e)
                       (amount e) who why (Some (clock w (ticks w)))].
Proof.
  intros Hid Hst. unfold EscrowWithWebhooks.dispute. unfold_ops.
  rewrite (dispute_ok w id e why None Hid Hst). simpl.
  eexists _, _. split; [reflexivity|]. simpl.
  rewrite lookup_insert_eq. by repeat split.
Qed.

Lemma C10_witness :
  let w := lockedWorld None in
  ∃ w' e',
    EscrowWithWebhooks.dispute "esc_01" (Some "alice")
      (Some "Incomplete delivery") w = (w', inr e')
    ∧ escrows w' !! "esc_01" = Some e'
    ∧ e' = markDisputed (clock w (ticks w)) (clock w (S (ticks w)))
             (Some "Incomplete delivery") None (lockedSample None)
    ∧ (disputerId <$> disputeReason e') = Some (Some "Incomplete delivery")
    ∧ (reason <$> disputeReason e') = Some None
    ∧ events w'
      = events w ++ [EscrowDisputedEvent "esc_01" "alice" "bob" 100
                       (Some "alice") (Some "Incomplete delivery")
                       (Some (clock w (ticks w)))].
Proof.
  intros w.
  apply (C10_wrapper_dispute_shifts_arguments w "esc_01"
           (lockedSample None)); vm_compute; reflexivity.
Defined.

(** C10 at a concrete call: what the wrapper stores differs from what the
    base engine stores for the same arguments. *)
Example C10_failing_input :
  let w := lockedWorld None in
  let wrapped :=
    EscrowWithWebhooks.dispute "esc_01" (Some "alice")
      (Some "Incomplete delivery") w in
  let base := dispute "esc_01" (Some "alice") (Some "Incomplete delivery") w in
  (escrows (fst wrapped) !! "esc_01" ≫= disputeReason)
  = Some (mkDisputeReason (Some "Incomplete delivery") None 1004)
  ∧ (escrows (fst base) !! "esc_01" ≫= disputeReason)
    = Some (mkDisputeReason (Some "alice") (Some "Incomplete delivery") 1004).
Proof. vm_compute. split; reflexivity. Qed.

(** ** The sweep *)

Lemma timedOut_spec now e :
  timedOut now e = true
  ↔ ∃ t, timeout e = Some t ∧ t ≠ 0 ∧ t < now
         ∧ (state e = Funded ∨ state e = Locked).
Proof.
  unfold timedOut. destruct (timeout e) as [t|]; [|naive_solver].
  rewrite !andb_true_iff, negb_true_iff, bool_decide_eq_false,
    !bool_decide_eq_true.
  split.
  - intros [[Hnz Hlt] Hst]. exists t. repeat split; try done.
    set_solver.
  - intros (t' & [= <-] & Hnz & Hlt & Hst). repeat split; try done.
    set_solver.
Qed.

Lemma timedOut_refundable now e :
  timedOut now e = true → state e ∈ [Funded; Locked; Disputed].
Proof.
  rewrite timedOut_spec. intros (_ & _ & _ & _ & [-> | ->]); set_solver.
Qed.

Lemma timedOut_refunded now t why e :
  timedOut now (markRefunded t why e) = false.
Proof.
  apply not_true_is_false. rewrite timedOut_spec. simpl.
  intros (_ & _ & _ & _ & [? | ?]); discriminate.
Qed.

Lemma sweepOne_eq now expired id w :
  sweepOne now expired id w
  = match escrows w !! id with
    | Some e =>
        if timedOut now e
        then (commit id
                (markRefunded (clock w (ticks w)) "automatic timeout" e)
                (tick w),
              inr (expired ++ [id]))
        else (w, inr expired)
    | None => (w, inr expired)
    end.
Proof.
  unfold sweepOne. destruct (escrows w !! id) as [e|] eqn:Hid; [|done].
  destruct (timedOut now e) eqn:Hout; [|done].
  unfold_ops.
  by rewrite (refund_ok w id e _ Hid (timedOut_refundable _ _ Hout)).
Qed.

(** Nothing to do: a sweep over a store none of whose records passes the
    test changes nothing at all. *)
Lemma sweepLoop_idle now ids expired w :
  (∀ id e, escrows w !! id = Some e → timedOut now e = false) →
  sweepLoop now ids expired w = (w, inr expired).
Proof.
  intros Hnone. induction ids as [|id ids IH]; [done|].
  simpl. unfold_ops. rewrite sweepOne_eq.
  destruct (escrows w !! id) as [e|] eqn:Hid; [|exact IH].
  by rewrite (Hnone id e Hid).
Qed.

Lemma sweepLoop_spec now ids :
  NoDup ids → ∀ expired w,
  ∃ w' swept,
    sweepLoop now ids expired w = (w', inr (expired ++ swept))
    ∧ NoDup swept
    ∧ sweptFrom now ids w w' swept
    ∧ clock w' = clock w ∧ events w' = events w
    ∧ entropy w' = entropy w ∧ draws w' = draws w.
Proof.
  induction 1 as [|id0 ids Hfresh Hnodup IH]; intros expired w.
  - exists w, []. rewrite app_nil_r. repeat split; try done; try constructor.
    intros id. destruct (escrows w !! id) as [e|]; [|set_solver].
    rewrite bool_decide_eq_false_2 by set_solver.
    rewrite andb_false_r. set_solver.
  - simpl. unfold_ops. rewrite sweepOne_eq.
    destruct (escrows w !! id0) as [e0|] eqn:Hid0;
      [destruct (timedOut now e0) eqn:Hout|].
    + set (w1 := commit id0 _ (tick w)).
      destruct (IH (expired ++ [id0]) w1)
        as (w' & swept & Hrun & Hnd & Hrel & Hclk & Hev & Hent & Hdr).
      exists w', (id0 :: swept). rewrite Hrun, <- app_assoc. simpl.
      assert (Hrel0 := Hrel id0). subst w1. simpl in Hrel0.
      rewrite lookup_insert_eq in Hrel0.
      rewrite timedOut_refunded in Hrel0. simpl in Hrel0.
      destruct Hrel0 as [Hnotin Hkept].
      repeat split; try done.
      * by constructor.
      * intros id. destruct (decide (id = id0)) as [->|Hne].
        -- rewrite Hid0, Hout. rewrite bool_decide_eq_true_2 by set_solver.
           simpl. split; [set_solver|]. eauto.
        -- specialize (Hrel id). simpl in Hrel.
           rewrite lookup_insert_ne in Hrel by done.
           destruct (escrows w !! id) as [e|]; [|set_solver].
           rewrite (bool_decide_ext (id ∈ id0 :: ids) (id ∈ ids))
             by set_solver.
           destruct (timedOut now e && bool_decide (id ∈ ids)); set_solver.
    + destruct (IH expired w)
        as (w' & swept & Hrun & Hnd & Hrel & Hclk & Hev & Hent & Hdr).
      exists w', swept. repeat split; try done.
      intros id. specialize (Hrel id).
      destruct (decide (id = id0)) as [->|Hne].
      * rewrite Hid0 in *. rewrite Hout in *. done.
      * destruct (escrows w !! id) as [e|]; [|done].
        by rewrite (bool_decide_ext (id ∈ id0 :: ids) (id ∈ ids))
          by set_solver.
    + destruct (IH expired w)
        as (w' & swept & Hrun & Hnd & Hrel & Hclk & Hev & Hent & Hdr).
      exists w', swept. repeat split; try done.
      intros id. specialize (Hrel id).
      destruct (decide (id = id0)) as [->|Hne].
      * by rewrite Hid0 in *.
      * destruct (escrows w !! id) as [e|]; [|done].
        by rewrite (bool_decide_ext (id ∈ id0 :: ids) (id ∈ ids))
          by set_solver.
Qed.

Lemma entryIds_NoDup w : NoDup (fst <$> map_to_list (escrows w)).
Proof. apply NoDup_fst_map_to_list. Qed.

Lemma entryIds_elem w id e :
  escrows w !! id = Some e → id ∈ fst <$> map_to_list (escrows w).
Proof.
  intros Hid. apply list_elem_of_fmap. exists (id, e).
  split; [done|]. by apply elem_of_map_to_list.
Qed.

Lemma processTimeouts_eq w :
  processTimeouts w
  = sweepLoop (clock w (ticks w)) (fst <$> map_to_list (escrows w)) []
      (tick w).
Proof. reflexivity. Qed.

(** A sweep that finds no record passing its test only reads the clock. *)
Lemma processTimeouts_idle w :
  (∀ id e, escrows w !! id = Some e → timedOut (clock w (ticks w)) e = false) →
  processTimeouts w = (tick w, inr []).
Proof.
  intros Hnone. rewrite processTimeouts_eq. by apply sweepLoop_idle.
Qed.

Lemma processTimeouts_spec w :
  ∃ w' expired,
    processTimeouts w = (w', inr expired)
    ∧ NoDup expired
    ∧ sweptFrom (clock w (ticks w)) (fst <$> map_to_list (escrows w))
        w w' expired
    ∧ clock w' = clock w ∧ events w' = events w.
Proof.
  rewrite processTimeouts_eq.
  destruct (sweepLoop_spec (clock w (ticks w)) _ (entryIds_NoDup w) [] (tick w))
    as (w' & swept & Hrun & Hnd & Hrel & Hclk & Hev & _).
  exists w', swept. by repeat split.
Qed.

(** C2, as stated, fails: an escrow that is funded and whose timeout equals
    the instant the sweep reads (so [timeout ≤ now]) is not refunded; the
    test of the loop is the strict [timeout < now]. *)
Lemma C2_counterexample :
  let w := fundedWithTimeout in
  let now := clock w (ticks w) in
  (state <$> escrows w !! "esc_01") = Some Funded
  ∧ (escrows w !! "esc_01" ≫= timeout) = Some 61000
  ∧ now = 61000
  ∧ snd (processTimeouts w) = inr []
  ∧ (state <$> escrows (fst (processTimeouts w)) !! "esc_01") = Some Funded.
Proof. vm_compute. repeat split. Qed.

(** C2 (amended): [processTimeouts()] takes no instant from its caller; it
    reads the clock once, as [now].  It always returns, and it refunds, with
    reason "automatic timeout", exactly the escrows whose state is [funded]
    or [locked] and whose timeout is set, is not zero and is strictly
    before [now]; it reports exactly their ids, each once.  Every other
    record is left as it was and no record appears or disappears. *)
Theorem C2_processTimeouts_refunds_overdue w :
  ∃ w' expired,
    processTimeouts w = (w', inr expired)
    ∧ NoDup expired
    ∧ (∀ id,
         match escrows w !! id with
         | None => escrows w' !! id = None ∧ id ∉ expired
         | Some e =>
             if timedOut (clock w (ticks w)) e
             then (id ∈ expired
                   ∧ ∃ t, escrows w' !! id
                          = Some (markRefunded t "automatic timeout" e))
             else ((id ∉ expired) ∧ escrows w' !! id = Some e)
         end)
    ∧ (∀ e, timedOut (clock w (ticks w)) e = true
            ↔ ∃ t, timeout e = Some t ∧ t ≠ 0 ∧ t < clock w (ticks w)
                   ∧ (state e = Funded ∨ state e = Locked)).
Proof.
  destruct (processTimeouts_spec w) as (w' & expired & Hrun & Hnd & Hrel & _).
  exists w', expired. repeat split; try done.
  - intros id. specialize (Hrel id).
    destruct (escrows w !! id) as [e|] eqn:Hid; [|done].
    rewrite (bool_decide_eq_true_2 _ (entryIds_elem w id e Hid)) in Hrel.
    by rewrite andb_true_r in Hrel.
  - by apply timedOut_spec.
  - by apply timedOut_spec.
Qed.

(** Whatever instant the second sweep reads, it passes over every escrow
    the first one refunded: the loop's test looks at the record's current
    state, which is now [refunded]. *)
Lemma processTimeouts_skips_refunded w :
  ∃ w1 ex1 w2 ex2,
    processTimeouts w = (w1, inr ex1)
    ∧ processTimeouts w1 = (w2, inr ex2)
    ∧ (∀ id, id ∈ ex1 → (id ∉ ex2) ∧ escrows w2 !! id = escrows w1 !! id).
Proof.
  destruct (processTimeouts_spec w) as (w1 & ex1 & Hrun1 & _ & Hrel1 & _).
  destruct (processTimeouts_spec w1) as (w2 & ex2 & Hrun2 & _ & Hrel2 & _).
  exists w1, ex1, w2, ex2. repeat split; try done.
  - specialize (Hrel1 id). specialize (Hrel2 id).
    destruct (escrows w !! id) as [e|]; [|naive_solver].
    destruct (timedOut _ e && _); [|naive_solver].
    destruct Hrel1 as (_ & t & Hid1). rewrite Hid1 in Hrel2.
    rewrite timedOut_refunded in Hrel2. naive_solver.
  - specialize (Hrel1 id). specialize (Hrel2 id).
    destruct (escrows w !! id) as [e|]; [|naive_solver].
    destruct (timedOut _ e && _); [|naive_solver].
    destruct Hrel1 as (_ & t & Hid1). rewrite Hid1 in Hrel2 |- *.
    rewrite timedOut_refunded in Hrel2. naive_solver.
Qed.

(** C9, as stated, fails: [processTimeouts()] is not handed an instant, each
    call reads the clock for itself, so two sweeps in a row need not leave
    what one sweep leaves.  Here the escrow's timeout is the very instant
    the first sweep reads: the first sweep passes over it and reports
    nothing, the second, a millisecond later, refunds it. *)
Lemma C9_counterexample :
  let w := dueBetweenSweeps in
  let once := fst (processTimeouts w) in
  let twice := fst (processTimeouts once) in
  (escrows w !! "esc_01" ≫= timeout) = Some 61000
  ∧ clock w (ticks w) = 61000
  ∧ clock once (ticks once) = 61001
  ∧ snd (processTimeouts w) = inr []
  ∧ (state <$> escrows once !! "esc_01") = Some Funded
  ∧ snd (processTimeouts once) = inr ["esc_01"]
  ∧ (state <$> escrows twice !! "esc_01") = Some Refunded.
Proof. vm_compute. repeat split. Qed.

(** C9 (amended): two sweeps in a row, each reading the clock for itself.
    Both return.  The first refunds, with reason "automatic timeout", and
    reports exactly the escrows that pass the loop's test at the instant
    it reads.  The second never reports or touches one of those again,
    because the test reads the record's state, which is now [refunded]; a
    record stays as the first refund left it.  What the second sweep does
    refund and report is exactly the escrows that did not pass the test at
    the first instant and pass it at the second.  No id is reported twice
    over the two sweeps, every other record is as it was, and no record
    appears or disappears.  When the second sweep reads the same instant
    as the first it reports nothing and only reads the clock. *)
Theorem C9_two_sweeps_refund_each_overdue_once w :
  ∃ w1 ex1 w2 ex2,
    processTimeouts w = (w1, inr ex1)
    ∧ processTimeouts w1 = (w2, inr ex2)
    ∧ NoDup (ex1 ++ ex2)
    ∧ (∀ id,
         match escrows w !! id with
         | None =>
             (id ∉ ex1) ∧ (id ∉ ex2)
             ∧ escrows w1 !! id = None ∧ escrows w2 !! id = None
         | Some e =>
             if timedOut (clock w (ticks w)) e
             then (id ∈ ex1) ∧ (id ∉ ex2)
                  ∧ ∃ t, escrows w1 !! id
                         = Some (markRefunded t "automatic timeout" e)
                         ∧ escrows w2 !! id = escrows w1 !! id
             else (id ∉ ex1) ∧ escrows w1 !! id = Some e
                  ∧ (if timedOut (clock w1 (ticks w1)) e
                     then (id ∈ ex2)
                          ∧ ∃ t, escrows w2 !! id
                                 = Some (markRefunded t "automatic timeout" e)
                     else (id ∉ ex2) ∧ escrows w2 !! id = Some e)
         end)
    ∧ (clock w1 (ticks w1) = clock w (ticks w) → ex2 = [] ∧ w2 = tick w1).
Proof.
  destruct (processTimeouts_spec w)
    as (w1 & ex1 & Hrun1 & Hnd1 & Hrel1 & Hclk1 & _).
  destruct (processTimeouts_spec w1)
    as (w2 & ex2 & Hrun2 & Hnd2 & Hrel2 & _).
  exists w1, ex1, w2, ex2.
  assert (Hper : ∀ id,
    match escrows w !! id with
    | None =>
        (id ∉ ex1) ∧ (id ∉ ex2)
        ∧ escrows w1 !! id = None ∧ escrows w2 !! id = None
    | Some e =>
        if timedOut (clock w (ticks w)) e
        then (id ∈ ex1) ∧ (id ∉ ex2)
             ∧ ∃ t, escrows w1 !! id
                    = Some (markRefunded t "automatic timeout" e)
                    ∧ escrows w2 !! id = escrows w1 !! id
        else (id ∉ ex1) ∧ escrows w1 !! id = Some e
             ∧ (if timedOut (clock w1 (ticks w1)) e
                then (id ∈ ex2)
                     ∧ ∃ t, escrows w2 !! id
                            = Some (markRefunded t "automatic timeout" e)
                else (id ∉ ex2) ∧ escrows w2 !! id = Some e)
    end).
  { intros id. specialize (Hrel1 id). specialize (Hrel2 id).
    destruct (escrows w !! id) as [e|] eqn:Hid.
    - rewrite (bool_decide_eq_true_2 _ (entryIds_elem w id e Hid)) in Hrel1.
      rewrite andb_true_r in Hrel1.
      destruct (timedOut (clock w (ticks w)) e) eqn:Hout.
      + destruct Hrel1 as (Hin1 & t & Hid1). rewrite Hid1 in Hrel2.
        rewrite timedOut_refunded in Hrel2. simpl in Hrel2.
        destruct Hrel2 as [Hnot2 Hid2].
        repeat split; try done. exists t. by rewrite Hid2.
      + destruct Hrel1 as [Hnot1 Hid1]. rewrite Hid1 in Hrel2.
        rewrite (bool_decide_eq_true_2 _ (entryIds_elem w1 id e Hid1))
          in Hrel2.
        rewrite andb_true_r in Hrel2. by repeat split.
    - destruct Hrel1 as [Hid1 Hnot1]. rewrite Hid1 in Hrel2.
      destruct Hrel2 as [Hid2 Hnot2]. by repeat split. }
  split; [done|]. split; [done|]. split; [|split; [exact Hper|]].
  - apply NoDup_app. repeat split; try done.
    intros id Hin1 Hin2. specialize (Hper id).
    destruct (escrows w !! id) as [e|]; [|naive_solver].
    destruct (timedOut (clock w (ticks w)) e); naive_solver.
  - intros Hsame.
    assert (Hidle : processTimeouts w1 = (tick w1, inr [])).
    { apply processTimeouts_idle. intros id e1 Hid1.
      rewrite Hsame. specialize (Hper id).
      destruct (escrows w !! id) as [e|] eqn:Hid; [|naive_solver].
      destruct (timedOut (clock w (ticks w)) e) eqn:Hout.
      - destruct Hper as (_ & _ & t & Hid1' & _). rewrite Hid1' in Hid1.
        injection Hid1 as <-. apply timedOut_refunded.
      - destruct Hper as (_ & Hid1' & _). rewrite Hid1' in Hid1.
        by injection Hid1 as <-. }
    rewrite Hidle in Hrun2. by injection Hrun2 as <- <-.
Qed.

(** With a clock that stands still the second sweep of the overdue sample
    reads the instant the first one read: the first refunds and reports
    the escrow, the second reports nothing. *)
Lemma C9_witness :
  ∃ w1 w2,
    processTimeouts overdueWorld = (w1, inr ["esc_01"])
    ∧ processTimeouts w1 = (w2, inr [])
    ∧ (state <$> escrows w2 !! "esc_01") = Some Refunded.
Proof.
  destruct (C9_two_sweeps_refund_each_overdue_once overdueWorld)
    as (w1 & ex1 & w2 & ex2 & Hrun1 & Hrun2 & _ & Hper & Hsame).
  assert (Heq : (w1, @inr Error _ ex1) = processTimeouts overdueWorld)
    by done.
  vm_compute in Heq. injection Heq as -> ->.
  destruct Hsame as [-> ->]; [vm_compute; reflexivity|].
  eexists _, _. split; [vm_compute; reflexivity|].
  split; [vm_compute; reflexivity|]. vm_compute. reflexivity.
Defined.

(** The sample sweep does refund: the witness above is not an empty run. *)
Example overdue_sweep_refunds :
  snd (processTimeouts overdueWorld) = inr ["esc_01"]
  ∧ (state <$> escrows (fst (processTimeouts overdueWorld)) !! "esc_01")
    = Some Refunded
  ∧ (escrows (fst (processTimeouts overdueWorld)) !! "esc_01"
       ≫= λ e, refundReason (metadata e)) = Some "automatic timeout".
Proof. vm_compute. repeat split. Qed.

(** ** Approvals and the parties *)

Lemma keeps_ret {A} (a : A) (R : A → Prop) : R a → keeps (mret a) R.
Proof. intros Ha w Hw. split; [done|]. by intros ? [= <-]. Qed.

Lemma keeps_throw {A} (err : Error) (R : A → Prop) : keeps (throw err) R.
Proof. intros w Hw. by split. Qed.

Lemma keeps_bind {A B} (m : M A) (f : A → M B) (R : A → Prop)
    (R' : B → Prop) :
  keeps m R → (∀ a, R a → keeps (f a) R') → keeps (m ≫= f) R'.
Proof.
  intros Hm Hf w Hw. unfold mbind, M_bind.
  destruct (Hm w Hw) as [Hw' Hres].
  destruct (m w) as [w' [err|a]]; simpl in *; [by split|].
  apply (Hf a); [by apply Hres | done].
Qed.

Lemma keeps_findEscrow err id :
  keeps (findEscrow err id) approvalsWithinParties.
Proof.
  intros w Hw. unfold findEscrow.
  destruct (escrows w !! id) as [e|] eqn:Hid; [|by destruct (inherited id)].
  simpl; split; try done.
  intros ? [= <-]. by apply (Hw id).
Qed.

Lemma keeps_putEscrow id e :
  approvalsWithinParties e → keeps (putEscrow id e) (λ _, True).
Proof.
  intros He w Hw. split; [|done]. simpl. by apply map_Forall_insert_2.
Qed.

Lemma keeps_dateNow : keeps dateNow (λ _, True).
Proof. by intros w Hw. Qed.

Lemma keeps_freshId : keeps freshId (λ _, True).
Proof. by intros w Hw. Qed.

Lemma keeps_saveState : keeps saveState (λ _, True).
Proof. by intros w Hw. Qed.

Lemma keeps_entryIds : keeps entryIds (λ _, True).
Proof. by intros w Hw. Qed.

(** One step of a proof that a method keeps the invariant: follow the
    shape of the method's body. *)
Ltac keeps_step :=
  lazymatch goal with
  | |- keeps (mret _) _ => apply keeps_ret
  | |- keeps (throw _) _ => apply keeps_throw
  | |- keeps (findEscrow _ _ ≫= _) _ =>
      eapply keeps_bind; [apply keeps_findEscrow | intros ? ?]
  | |- keeps (putEscrow _ _ ≫= _) _ =>
      eapply keeps_bind; [apply keeps_putEscrow | intros _ _]
  | |- keeps (dateNow ≫= _) _ =>
      eapply keeps_bind; [apply keeps_dateNow | intros ? _]
  | |- keeps (freshId ≫= _) _ =>
      eapply keeps_bind; [apply keeps_freshId | intros ? _]
  | |- keeps (saveState ≫= _) _ =>
      eapply keeps_bind; [apply keeps_saveState | intros _ _]
  | |- keeps (entryIds ≫= _) _ =>
      eapply keeps_bind; [apply keeps_entryIds | intros ? _]
  | |- keeps (if ?c then _ else _) _ => destruct c
  | |- keeps (findEscrow _ _) _ => apply keeps_findEscrow
  end.

Lemma keeps_create p : keeps (create p) approvalsWithinParties.
Proof.
  unfold create. repeat keeps_step; try done; unfold approvalsWithinParties;
    simpl; set_solver.
Qed.

Lemma keeps_fund id tx : keeps (fund id tx) approvalsWithinParties.
Proof.
  unfold fund. repeat keeps_step.
  eapply (keeps_bind _ _ approvalsWithinParties).
  - repeat keeps_step; done.
  - intros e' He'. repeat keeps_step; done.
Qed.

Lemma keeps_release id why : keeps (release id why) approvalsWithinParties.
Proof. unfold release. repeat keeps_step; done. Qed.

Lemma keeps_refund id why : keeps (refund id why) approvalsWithinParties.
Proof. unfold refund. repeat keeps_step; done. Qed.

Lemma keeps_dispute id who why :
  keeps (dispute id who why) approvalsWithinParties.
Proof. unfold dispute. repeat keeps_step; done. Qed.

Lemma keeps_submitDelivery id proof :
  keeps (submitDelivery id proof) approvalsWithinParties.
Proof.
  unfold submitDelivery. repeat keeps_step; try done.
  eapply (keeps_bind _ _ (λ _, True)).
  - destruct (_ && _); [|by apply keeps_ret].
    eapply keeps_bind; [apply keeps_release|]. intros ? _. by apply keeps_ret.
  - intros _ _. repeat keeps_step.
Qed.

Lemma keeps_resolveDispute id decision who :
  keeps (resolveDispute id decision who) approvalsWithinParties.
Proof.
  unfold resolveDispute. repeat keeps_step.
  eapply (keeps_bind _ _ (λ _, True)).
  - repeat case_decide.
    + eapply keeps_bind; [apply keeps_release|]. intros ? _. by apply keeps_ret.
    + eapply keeps_bind; [apply keeps_refund|]. intros ? _. by apply keeps_ret.
    + apply keeps_throw.
  - intros _ _. repeat keeps_step; done.
Qed.

Lemma keeps_sweepOne now expired id :
  keeps (sweepOne now expired id) (λ _, True).
Proof.
  intros w Hw. unfold sweepOne.
  destruct (escrows w !! id) as [e|]; [|by split].
  destruct (timedOut now e); [|by split].
  eapply (keeps_bind _ _ approvalsWithinParties); [apply keeps_refund| |done].
  intros ? _. by apply keeps_ret.
Qed.

Lemma keeps_sweepLoop now ids :
  ∀ expired, keeps (sweepLoop now ids expired) (λ _, True).
Proof.
  induction ids as [|id ids IH]; intros expired; simpl.
  - by apply keeps_ret.
  - eapply keeps_bind; [apply keeps_sweepOne|]. intros ? _. apply IH.
Qed.

Lemma keeps_processTimeouts : keeps processTimeouts (λ _, True).
Proof. unfold processTimeouts. repeat keeps_step. apply keeps_sweepLoop. Qed.

(** [approve] keeps the invariant when the approver is a party. *)
Lemma approve_within_parties w id a :
  storeWithinParties w → approverIsParty (OpApprove id a) w = true →
  storeWithinParties (fst (approve id a w)).
Proof.
  intros Hw Hparty. unfold approve. unfold_ops. simpl in Hparty.
  destruct (escrows w !! id) as [e|] eqn:Hid; [|by destruct (inherited id)].
  case_decide; [done|].
  assert (He : approvalsWithinParties e) by by apply (Hw id).
  apply bool_decide_eq_true_1 in Hparty.
  set (e1 := if includes a (approvals e) then e
             else setApprovals (approvals e ++ [a]) e).
  assert (He1 : approvalsWithinParties e1).
  { subst e1. destruct (includes a (approvals e)); [done|].
    unfold approvalsWithinParties in *. simpl. set_solver. }
  assert (Hpe : payer e1 = payer e ∧ payee e1 = payee e)
    by (subst e1; by destruct (includes a (approvals e))).
  destruct Hpe as [-> ->].
  destruct (forallb _ _); simpl; by apply map_Forall_insert_2.
Qed.

(** What the check that [approve] lacks would have prevented: a stranger's
    id is appended like anyone's. *)
Lemma approve_appends_anyone w id e a :
  escrows w !! id = Some e → state e = Funded → a ∉ approvals e →
  ∃ e', escrows (fst (approve id a w)) !! id = Some e'
        ∧ approvals e' = approvals e ++ [a].
Proof.
  intros Hid Hst Hnew. unfold approve. unfold_ops. rewrite Hid.
  rewrite decide_False by (rewrite Hst; tauto).
  replace (includes a (approvals e)) with false
    by (symmetry; by apply bool_decide_eq_false_2).
  destruct (forallb _ _); simpl; rewrite lookup_insert_eq; eauto.
Qed.

Lemma after_within_parties o w :
  storeWithinParties w → approverIsParty o w = true →
  storeWithinParties (after o w).
Proof.
  intros Hw Hparty. destruct o; simpl.
  - by apply keeps_create.
  - by apply keeps_fund.
  - by apply approve_within_parties.
  - by apply keeps_submitDelivery.
  - by apply keeps_release.
  - by apply keeps_refund.
  - by apply keeps_dispute.
  - by apply keeps_resolveDispute.
  - by apply keeps_processTimeouts.
Qed.

(** C3, as stated, fails: [approve] does not look at who approves.  On the
    sample escrow (payer alice, payee bob), once funded, an approval by
    "mallory" is stored. *)
Lemma C3_counterexample :
  let run :=
    e ← create (sampleParams None None);
    fund (escrowId e) "0xtx1";;
    approve (escrowId e) "mallory" in
  outcomeState (snd (run sampleWorld)) = inr Funded
  ∧ (approvals <$> escrows (fst (run sampleWorld)) !! "esc_01")
    = Some ["mallory"]
  ∧ (payer <$> escrows (fst (run sampleWorld)) !! "esc_01") = Some "alice"
  ∧ (payee <$> escrows (fst (run sampleWorld)) !! "esc_01") = Some "bob".
Proof. vm_compute. repeat split. Qed.

(** C3 (amended): in every store reached from a new engine by the engine's
    operations, provided each [approve(id, approverId)] along the way named
    the payer or the payee of its escrow, every record's approvals are
    among its payer and payee.  The engine itself does not enforce the
    proviso. *)
Theorem C3_approvals_within_parties w :
  partyReachable w →
  ∀ id e, escrows w !! id = Some e → approvals e ⊆ [payer e; payee e].
Proof.
  intros Hreach. change (storeWithinParties w).
  induction Hreach as [clk ent|w o _ IH Hparty].
  - apply map_Forall_empty.
  - by apply after_within_parties.
Qed.

Lemma lockedWorld_reachable : partyReachable (lockedWorld None).
Proof.
  replace (lockedWorld None) with
    (after (OpApprove "esc_01" "bob")
       (after (OpApprove "esc_01" "alice")
          (after (OpFund "esc_01" "0xtx1")
             (after (OpCreate (sampleParams None None)) sampleWorld))))
    by (vm_compute; reflexivity).
  do 4 (apply reach_step; [|vm_compute; reflexivity]).
  apply reach_new.
Defined.

Lemma C3_witness :
  escrows (lockedWorld None) !! "esc_01" = Some (lockedSample None)
  ∧ approvals (lockedSample None)
    ⊆ [payer (lockedSample None); payee (lockedSample None)].
Proof.
  split; [vm_compute; reflexivity|].
  apply (C3_approvals_within_parties (lockedWorld None)
           lockedWorld_reachable "esc_01").
  vm_compute. reflexivity.
Defined.

(** ** More equations: fund, approve, resolveDispute *)

Lemma fund_wrong_state w id e tx :
  escrows w !! id = Some e → state e ≠ Pending →
  fund id tx w = (w, inl (CannotFund (state e))).
Proof.
  intros Hid Hst. unfold fund. unfold_ops. rewrite Hid.
  by rewrite decide_True.
Qed.

Lemma fund_ok w id e tx :
  escrows w !! id = Some e → state e = Pending →
  let f := markFunded (clock w (ticks w)) tx e in
  let l := markLocked (clock w (S (ticks w))) f in
  fund id tx w
  = if requiresApproval (conditions e)
    then (commit id f (tick w), inr f)
    else (commit id l (tick (tick w)), inr l).
Proof.
  intros Hid Hst. unfold fund. unfold_ops. rewrite Hid.
  rewrite decide_False by (rewrite Hst; tauto). simpl.
  by destruct (requiresApproval (conditions e)).
Qed.

Lemma approve_wrong_state w id e a :
  escrows w !! id = Some e → state e ≠ Funded →
  approve id a w = (w, inl (CannotApprove (state e))).
Proof.
  intros Hid Hst. unfold approve. unfold_ops. rewrite Hid.
  by rewrite decide_True.
Qed.

Lemma approve_ok w id e a :
  escrows w !! id = Some e → state e = Funded →
  let e1 := addApproval a e in
  let l := markLocked (clock w (ticks w)) e1 in
  approve id a w
  = if allApproved e1
    then (commit id l (tick w), inr l)
    else (commit id e1 w, inr e1).
Proof.
  intros Hid Hst. unfold approve. unfold_ops. rewrite Hid.
  rewrite decide_False by (rewrite Hst; tauto). cbv zeta.
  unfold allApproved, addApproval.
  destruct (includes a (approvals e)); (destruct (forallb _ _); reflexivity).
Qed.

Lemma dispute_wrong_state w id e who why :
  escrows w !! id = Some e → state e ≠ Locked →
  dispute id who why w = (w, inl (CannotDispute (state e))).
Proof.
  intros Hid Hst. unfold dispute. unfold_ops. rewrite Hid.
  by rewrite decide_True.
Qed.

(** The three outcomes of [resolveDispute] on a disputed escrow. *)
Lemma resolveDispute_disputed w id e decision who :
  escrows w !! id = Some e → state e = Disputed →
  let e' := markArbiter who
              (markRefunded (clock w (ticks w))
                 ("arbiter decision by " +:+ who) e) in
  resolveDispute id decision who w
  = if decide (decision = "release")
    then (w, inl (CannotRelease Disputed))
    else if decide (decision = "refund")
    then (commit id e' (tick w), inr e')
    else (w, inl (InvalidDisputeResolution decision)).
Proof.
  intros Hid Hst e'. unfold resolveDispute. unfold_ops. rewrite Hid.
  rewrite decide_False by (rewrite Hst; tauto). simpl.
  destruct (decide (decision = "release")) as [_|_].
  - rewrite (release_wrong_state w id e) by (done || by rewrite Hst).
    by rewrite Hst.
  - destruct (decide (decision = "refund")) as [_|_]; [|done].
    rewrite (refund_ok w id e) by (done || (rewrite Hst; set_solver)).
    simpl. rewrite lookup_insert_eq. subst e'. unfold commit. simpl.
    by rewrite insert_insert_eq.
Qed.

(** ** Every operation moves along the state machine *)

Lemma moved_same o id before : moved o id before before.
Proof. by left. Qed.

(** Storing a rewrite of the record under [id0]. *)
Lemma moved_commit o w w0 id0 e e' id :
  escrows w !! id0 = Some e → trans e e' → escrows w0 = escrows w →
  moved o id (escrows w !! id) (escrows (commit id0 e' w0) !! id).
Proof.
  intros Hid Htrans Hsame. simpl. rewrite Hsame.
  destruct (decide (id0 = id)) as [<-|Hne].
  - rewrite lookup_insert_eq. right. left. by exists e, e'.
  - rewrite lookup_insert_ne by done. by left.
Qed.

Lemma after_moved o w id :
  moved o id (escrows w !! id) (escrows (after o w) !! id).
Proof.
  destruct o as [p|id0 tx|id0 a|id0 proof|id0 why|id0 why|id0 who why
                 |id0 d who|]; unfold after.
  - (* create *)
    simpl.
    destruct (decide (entropy w (draws w) = id)) as [<-|Hne].
    + rewrite lookup_insert_eq. right. right. eexists p, _.
      split; [done|]. split; [done|]. by repeat split.
    + rewrite lookup_insert_ne by done. by left.
  - (* fund *)
    destruct (escrows w !! id0) as [e|] eqn:Hid0.
    + destruct (decide (state e = Pending)) as [Hst|Hst].
      * rewrite (fund_ok w id0 e tx Hid0 Hst).
        destruct (requiresApproval (conditions e)) eqn:Hreq; simpl fst.
        -- apply (moved_commit _ w _ id0 e); [done| |done].
           by apply trans_fund.
        -- apply (moved_commit _ w _ id0 e); [done| |done].
           by apply trans_fund_lock.
      * rewrite (fund_wrong_state w id0 e tx Hid0 Hst). apply moved_same.
    + unfold fund. unfold_ops. rewrite Hid0. destruct (inherited id0); apply moved_same.
  - (* approve *)
    destruct (escrows w !! id0) as [e|] eqn:Hid0.
    + destruct (decide (state e = Funded)) as [Hst|Hst].
      * rewrite (approve_ok w id0 e a Hid0 Hst).
        destruct (allApproved (addApproval a e)) eqn:Hall; simpl fst.
        -- apply (moved_commit _ w _ id0 e); [done| |done].
           by apply trans_approve_lock.
        -- apply (moved_commit _ w _ id0 e); [done| |done].
           by apply trans_approve.
      * rewrite (approve_wrong_state w id0 e a Hid0 Hst). apply moved_same.
    + unfold approve. unfold_ops. rewrite Hid0. destruct (inherited id0); apply moved_same.
  - (* submitDelivery *)
    destruct (escrows w !! id0) as [e|] eqn:Hid0.
    + destruct (decide (state e = Locked)) as [Hst|Hst].
      * destruct (submitDelivery_locked w id0 e proof Hid0 Hst)
          as (w' & Hrun & Hid' & _ & Hother).
        rewrite Hrun. simpl fst.
        destruct (decide (id0 = id)) as [<-|Hne].
        -- rewrite Hid0, Hid'. right. left. eexists e, _.
           split; [done|]. split; [done|].
           fold (deliveryOnlyCondition e).
           destruct (deliveryOnlyCondition e) eqn:Hauto.
           ++ by apply trans_deliver_release.
           ++ by apply trans_deliver.
        -- rewrite (Hother id) by done. apply moved_same.
      * rewrite (submitDelivery_wrong_state w id0 e proof Hid0 Hst).
        apply moved_same.
    + unfold submitDelivery. unfold_ops. rewrite Hid0. destruct (inherited id0); apply moved_same.
  - (* release *)
    destruct (escrows w !! id0) as [e|] eqn:Hid0.
    + destruct (decide (state e = Locked)) as [Hst|Hst].
      * destruct (requiresDelivery (conditions e)) eqn:Hreq;
          [destruct (deliveryProof e) as [dp|] eqn:Hproof|].
        -- rewrite (release_ok w id0 e why Hid0 Hst)
             by (right; by rewrite Hproof).
           apply (moved_commit _ w _ id0 e); [done| |done].
           apply trans_release; [done|]. right. by rewrite Hproof.
        -- rewrite (release_needs_proof w id0 e why Hid0 Hst Hreq Hproof).
           apply moved_same.
        -- rewrite (release_ok w id0 e why Hid0 Hst) by by left.
           apply (moved_commit _ w _ id0 e); [done| |done].
           apply trans_release; [done|]. by left.
      * rewrite (release_wrong_state w id0 e why Hid0 Hst). apply moved_same.
    + unfold release. unfold_ops. rewrite Hid0. destruct (inherited id0); apply moved_same.
  - (* refund *)
    destruct (escrows w !! id0) as [e|] eqn:Hid0.
    + destruct (decide (state e ∈ [Funded; Locked; Disputed])) as [Hst|Hst].
      * rewrite (refund_ok w id0 e why Hid0 Hst).
        apply (moved_commit _ w _ id0 e); [done| |done].
        by apply trans_refund.
      * rewrite (refund_wrong_state w id0 e why Hid0 Hst). apply moved_same.
    + unfold refund. unfold_ops. rewrite Hid0. destruct (inherited id0); apply moved_same.
  - (* dispute *)
    destruct (escrows w !! id0) as [e|] eqn:Hid0.
    + destruct (decide (state e = Locked)) as [Hst|Hst].
      * rewrite (dispute_ok w id0 e who why Hid0 Hst).
        apply (moved_commit _ w _ id0 e); [done| |done].
        by apply trans_dispute.
      * rewrite (dispute_wrong_state w id0 e who why Hid0 Hst).
        apply moved_same.
    + unfold dispute. unfold_ops. rewrite Hid0. destruct (inherited id0); apply moved_same.
  - (* resolveDispute *)
    destruct (escrows w !! id0) as [e|] eqn:Hid0.
    + destruct (decide (state e = Disputed)) as [Hst|Hst].
      * rewrite (resolveDispute_disputed w id0 e d who Hid0 Hst).
        repeat case_decide; simpl fst; try apply moved_same.
        apply (moved_commit _ w _ id0 e); [done| |done].
        by apply trans_resolve_refund.
      * rewrite (resolveDispute_wrong_state w id0 e d who Hid0 Hst).
        apply moved_same.
    + unfold resolveDispute. unfold_ops. rewrite Hid0. destruct (inherited id0); apply moved_same.
  - (* processTimeouts *)
    destruct (processTimeouts_spec w) as (w' & expired & Hrun & _ & Hrel & _).
    rewrite Hrun. simpl fst. specialize (Hrel id).
    destruct (escrows w !! id) as [e|] eqn:Hid.
    + destruct (timedOut (clock w (ticks w)) e) eqn:Hout; simpl in Hrel.
      * destruct (bool_decide _); [|destruct Hrel as [_ ->]; by left].
        destruct Hrel as (_ & t & ->). right. left. eexists e, _.
        split; [done|]. split; [done|].
        apply trans_refund. by eapply timedOut_refundable.
      * destruct Hrel as [_ ->]. by left.
    + destruct Hrel as [-> _]. by left.
Qed.

(** ** What the state machine keeps *)

Lemma addApproval_fields a e :
  state (addApproval a e) = state e
  ∧ conditions (addApproval a e) = conditions e
  ∧ timeline (addApproval a e) = timeline e
  ∧ metadata (addApproval a e) = metadata e
  ∧ deliveryProof (addApproval a e) = deliveryProof e
  ∧ disputeReason (addApproval a e) = disputeReason e
  ∧ txHash (addApproval a e) = txHash e
  ∧ payer (addApproval a e) = payer e
  ∧ payee (addApproval a e) = payee e
  ∧ escrowId (addApproval a e) = escrowId e
  ∧ amount (addApproval a e) = amount e
  ∧ purpose (addApproval a e) = purpose e
  ∧ timeout (addApproval a e) = timeout e.
Proof. unfold addApproval. by destruct (includes a (approvals e)). Qed.

Lemma addApproval_approvals a e :
  approvals (addApproval a e)
  = if includes a (approvals e) then approvals e else approvals e ++ [a].
Proof. unfold addApproval. by destruct (includes a (approvals e)). Qed.

Lemma addApproval_NoDup a e :
  NoDup (approvals e) → NoDup (approvals (addApproval a e)).
Proof.
  intros Hnd. rewrite addApproval_approvals. unfold includes.
  case_bool_decide as Hin; [done|].
  apply NoDup_app. repeat split; [done| |apply NoDup_singleton].
  intros x Hx ->%list_elem_of_singleton. done.
Qed.

Lemma allApproved_spec e :
  allApproved e = true ↔ payer e ∈ approvals e ∧ payee e ∈ approvals e.
Proof.
  unfold allApproved, includes. simpl.
  rewrite !andb_true_iff, !bool_decide_eq_true. tauto.
Qed.

Lemma deliveryOnlyCondition_needs_delivery e :
  deliveryOnlyCondition e = true → requiresDelivery (conditions e) = true.
Proof.
  unfold deliveryOnlyCondition. by intros [[? _]%andb_true_iff _]%andb_true_iff.
Qed.

Lemma trans_fixed e e' :
  trans e e' →
  escrowId e' = escrowId e ∧ payer e' = payer e ∧ payee e' = payee e
  ∧ amount e' = amount e ∧ purpose e' = purpose e
  ∧ conditions e' = conditions e ∧ timeout e' = timeout e
  ∧ created (timeline e') = created (timeline e).
Proof.
  destruct 1; simpl; try done;
    destruct (addApproval_fields a e)
      as (_ & -> & -> & _ & _ & _ & _ & -> & -> & -> & -> & -> & ->); done.
Qed.

Lemma trans_edge e e' : trans e e' → edge (state e) (state e') = true.
Proof.
  destruct 1 as [e ? ? Hst|e ? ? ? Hst|e a Hst|e a ? Hst|e ? ? Hst
                 |e ? ? ? Hst|e ? ? Hst|e ? ? Hst|e ? ? ? ? Hst|e ? ? Hst];
    simpl; try (destruct (addApproval_fields a e) as (-> & _));
    try (by rewrite Hst).
  rewrite !elem_of_cons, elem_of_nil in Hst.
  destruct Hst as [-> | [-> | [-> | []]]]; done.
Qed.

Ltac use_state :=
  repeat match goal with
         | H : state _ = _ |- _ => rewrite H in *; clear H
         end.

Ltac wf_solve :=
  constructor; simpl; use_state;
  rewrite ?elem_of_cons, ?elem_of_nil in *;
  try done; try naive_solver.

Lemma born_wellFormed id e : born id e → wellFormed e.
Proof.
  intros (_ & Hst & Happ & Hproof & Hdr & Htx & Hmeta
          & Hfu & Hlo & Hrl & Hrf & Hdi).
  constructor;
    rewrite ?Hst, ?Happ, ?Hproof, ?Hdr, ?Htx, ?Hmeta, ?Hfu, ?Hlo, ?Hrl, ?Hrf,
      ?Hdi; simpl;
    rewrite ?elem_of_cons, ?elem_of_nil;
    try apply NoDup_nil_2; try naive_solver.
Qed.

Lemma addApproval_wellFormed a e :
  state e = Funded → wellFormed e → wellFormed (addApproval a e).
Proof.
  intros Hst [].
  pose proof (addApproval_NoDup a e wf_approvals0) as Hnd.
  destruct (addApproval_fields a e)
    as (Hs & Hc & Ht & Hm & Hp & Hd & Hx & Hpr & Hpe & _).
  constructor; unfold deliveryOnlyCondition in *;
    rewrite ?Hs, ?Hc, ?Ht, ?Hm, ?Hp, ?Hd, ?Hx, ?Hpr, ?Hpe; try done.
  rewrite Hst. rewrite !elem_of_cons, elem_of_nil. naive_solver.
Qed.

(** The field of [wellFormed] a goal is about, alone in the context. *)
Ltac wf_fields Hwf :=
  constructor;
  [ pose proof (wf_approvals _ Hwf) as Hf
  | pose proof (wf_funded _ Hwf) as Hf
  | pose proof (wf_locked _ Hwf) as Hf
  | pose proof (wf_released _ Hwf) as Hf
  | pose proof (wf_proof _ Hwf) as Hf
  | pose proof (wf_txHash _ Hwf) as Hf
  | pose proof (wf_stamp_funded _ Hwf) as Hf
  | pose proof (wf_stamp_locked _ Hwf) as Hf
  | pose proof (wf_stamp_released _ Hwf) as Hf
  | pose proof (wf_stamp_refunded _ Hwf) as Hf
  | pose proof (wf_stamp_disputed _ Hwf) as Hf
  | pose proof (wf_releaseReason _ Hwf) as Hf
  | pose proof (wf_refundReason _ Hwf) as Hf
  | pose proof (wf_arbiter _ Hwf) as Hf;
    pose proof (wf_stamp_disputed _ Hwf) as Hf' ];
  clear Hwf; unfold deliveryOnlyCondition in *; simpl in *; use_state;
  rewrite ?elem_of_cons, ?elem_of_nil in *.

Ltac wf_close :=
  try done;
  try (intros; congruence);
  try (split; [by left | intros; congruence]);
  try naive_solver.

Lemma trans_wellFormed e e' : trans e e' → wellFormed e → wellFormed e'.
Proof.
  intros Htrans Hwf.
  destruct Htrans as [e ? ? Hst Hreq|e ? ? ? Hst Hreq|e a Hst Hall
                      |e a ? Hst Hall|e ? ? Hst Hauto|e ? ? ? Hst Hauto
                      |e ? ? Hst Hcond|e ? ? Hst|e ? ? ? ? Hst|e ? ? Hst].
  - wf_fields Hwf; wf_close.
  - wf_fields Hwf; wf_close.
  - by apply addApproval_wellFormed.
  - apply (addApproval_wellFormed a) in Hwf; [|done].
    apply allApproved_spec in Hall.
    assert (Hst1 : state (addApproval a e) = Funded)
      by (by destruct (addApproval_fields a e) as (-> & _)).
    revert Hwf Hall Hst1. generalize (addApproval a e). clear.
    intros e Hwf Hall Hst. wf_fields Hwf; wf_close.
  - wf_fields Hwf; wf_close.
  - apply deliveryOnlyCondition_needs_delivery in Hauto as Hdel.
    wf_fields Hwf; wf_close.
  - wf_fields Hwf; wf_close.
    intros _ ?. destruct Hcond; [congruence|done].
  - rewrite !elem_of_cons, elem_of_nil in Hst.
    destruct Hst as [Hst|[Hst|[Hst|[]]]]; wf_fields Hwf; wf_close.
  - wf_fields Hwf; wf_close.
  - wf_fields Hwf; wf_close.
Qed.

(** Every record of a reachable store is well formed and is stored under
    its own id. *)
Lemma reachable_wellFormed w :
  reachable w →
  ∀ id e, escrows w !! id = Some e → wellFormed e ∧ escrowId e = id.
Proof.
  induction 1 as [clk ent|w o _ IH]; intros id e' Hid'.
  - simpl in Hid'. by rewrite lookup_empty in Hid'.
  - destruct (after_moved o w id) as [Hsame|[(e & ? & Hid & He' & Htrans)|
                                              (p & ? & _ & He' & Hborn)]].
    + rewrite Hsame in Hid'. by apply IH.
    + rewrite Hid' in He'. injection He' as <-.
      destruct (IH id e Hid) as [Hwf Hkey]. split.
      * by apply (trans_wellFormed e).
      * by destruct (trans_fixed e e' Htrans) as (-> & _).
    + rewrite Hid' in He'. injection He' as <-. split.
      * by apply (born_wellFormed id).
      * by destruct Hborn.
Qed.

Lemma reachable_runOps ops w : reachable w → reachable (runOps ops w).
Proof.
  revert w. induction ops as [|o ops IH]; intros w Hw; [done|].
  simpl. apply IH. by apply reachable_step.
Qed.

Lemma reachable_sample ops : reachable (runOps ops sampleWorld).
Proof. apply reachable_runOps, reachable_new. Qed.

(** ** Errors and legality *)

(** X1: an operation called on an id under which no record is stored
    throws and changes nothing.  What it throws is "Escrow not found",
    unless the id is one of the names a plain object inherits from
    [Object.prototype]: the lookup then gives a value that is truthy and
    has no state, and the operation throws the error of its test of the
    state, printed with "undefined" (for [resolveDispute], "Escrow not in
    disputed state"). *)
Theorem unstored_id_is_refused o id w :
  target o = Some id → escrows w !! id = None →
  after o w = w
  ∧ outcome o w = Some (if inherited id then stateless o else EscrowNotFound).
Proof.
  intros Htarget Hnone.
  destruct o; simpl in Htarget; try discriminate;
    injection Htarget as ->; simpl; unfold thrown.
  - unfold fund. unfold_ops. rewrite Hnone. by destruct (inherited id).
  - unfold approve. unfold_ops. rewrite Hnone. by destruct (inherited id).
  - unfold submitDelivery. unfold_ops. rewrite Hnone.
    by destruct (inherited id).
  - unfold release. unfold_ops. rewrite Hnone. by destruct (inherited id).
  - unfold refund. unfold_ops. rewrite Hnone. by destruct (inherited id).
  - unfold dispute. unfold_ops. rewrite Hnone. by destruct (inherited id).
  - unfold resolveDispute. unfold_ops. rewrite Hnone.
    by destruct (inherited id).
Qed.

Lemma unstored_id_is_refused_witness :
  (after (OpRelease "esc_99" None) (lockedWorld None) = lockedWorld None
   ∧ outcome (OpRelease "esc_99" None) (lockedWorld None)
     = Some EscrowNotFound)
  ∧ (after (OpFund "constructor" "0xtx1") (lockedWorld None)
     = lockedWorld None
     ∧ outcome (OpFund "constructor" "0xtx1") (lockedWorld None)
       = Some CannotFundUndefined).
Proof.
  split.
  - apply (unstored_id_is_refused (OpRelease "esc_99" None) "esc_99");
      vm_compute; reflexivity.
  - apply (unstored_id_is_refused (OpFund "constructor" "0xtx1")
             "constructor"); vm_compute; reflexivity.
Defined.

(** An operation called on an escrow whose state is not one of its legal
    sources throws the error that names the state (for [resolveDispute],
    "Escrow not in disputed state") and changes nothing. *)
Theorem illegal_source_is_rejected o id e w :
  target o = Some id → escrows w !! id = Some e → state e ∉ sources o →
  after o w = w ∧ outcome o w = Some (rejection o (state e)).
Proof.
  intros Htarget Hid Hst.
  destruct o; simpl in Htarget; try discriminate;
    injection Htarget as ->; simpl in *; unfold thrown.
  - rewrite (fund_wrong_state w id e) by set_solver. done.
  - rewrite (approve_wrong_state w id e) by set_solver. done.
  - rewrite (submitDelivery_wrong_state w id e) by set_solver. done.
  - rewrite (release_wrong_state w id e) by set_solver. done.
  - rewrite (refund_wrong_state w id e) by set_solver. done.
  - rewrite (dispute_wrong_state w id e) by set_solver. done.
  - rewrite (resolveDispute_wrong_state w id e) by set_solver. done.
Qed.

Lemma illegal_source_is_rejected_witness :
  after (OpApprove "esc_01" "alice") (lockedWorld None) = lockedWorld None
  ∧ outcome (OpApprove "esc_01" "alice") (lockedWorld None)
    = Some (CannotApprove Locked).
Proof.
  apply (illegal_source_is_rejected (OpApprove "esc_01" "alice") "esc_01"
           (lockedSample None)); [reflexivity|vm_compute; reflexivity|].
  vm_compute. set_solver.
Defined.

(** ** One operation, one step of the diagram *)

(** No operation other than [create] removes a record, changes its id,
    parties, amount, purpose, conditions, timeout or creation instant, or
    moves its state otherwise than along an arrow of the state diagram;
    in particular none takes a disputed escrow to released or moves a
    released or refunded one. *)
Theorem operations_follow_the_diagram o w id e :
  isCreate o = false → escrows w !! id = Some e →
  ∃ e', escrows (after o w) !! id = Some e'
        ∧ edge (state e) (state e') = true
        ∧ escrowId e' = escrowId e ∧ payer e' = payer e ∧ payee e' = payee e
        ∧ amount e' = amount e ∧ purpose e' = purpose e
        ∧ conditions e' = conditions e ∧ timeout e' = timeout e
        ∧ created (timeline e') = created (timeline e).
Proof.
  intros Hop Hid.
  destruct (after_moved o w id) as [Hsame|[(e0 & e' & Hid0 & He' & Htrans)|
                                            (p & ? & -> & _)]];
    [| |discriminate].
  - exists e. rewrite Hsame. split; [done|].
    split; [by destruct (state e)|done].
  - rewrite Hid in Hid0. injection Hid0 as <-. exists e'.
    split; [done|]. split; [by apply trans_edge|by apply trans_fixed].
Qed.

Lemma operations_follow_the_diagram_witness :
  ∃ e', escrows (after (OpDispute "esc_01" (Some "alice") None)
                   (lockedWorld None)) !! "esc_01" = Some e'
        ∧ edge Locked (state e') = true
        ∧ escrowId e' = "esc_01" ∧ payer e' = "alice" ∧ payee e' = "bob"
        ∧ amount e' = 100 ∧ purpose e' = "translation"
        ∧ conditions e' = buildConditions noConditions ∧ timeout e' = None
        ∧ created (timeline e') = 1000.
Proof.
  apply (operations_follow_the_diagram
           (OpDispute "esc_01" (Some "alice") None) (lockedWorld None)
           "esc_01" (lockedSample None)); [reflexivity|].
  vm_compute. reflexivity.
Defined.

Lemma trans_from_terminal e e' :
  trans e e' → state e ∉ [Released; Refunded].
Proof.
  destruct 1 as [e ? ? Hst|e ? ? ? Hst|e a Hst|e a ? Hst|e ? ? Hst
                 |e ? ? ? Hst|e ? ? Hst|e ? ? Hst|e ? ? ? ? Hst|e ? ? Hst];
    try (rewrite Hst; set_solver).
  intros Hterm. rewrite !elem_of_cons in Hst. rewrite !elem_of_cons in Hterm.
  destruct Hst as [Hst|[Hst|[Hst|[]%elem_of_nil]]]; rewrite Hst in Hterm;
    destruct Hterm as [?|[?|[]%elem_of_nil]]; discriminate.
Qed.

(** Released and refunded are final: whatever operation other than a
    [create] runs, with whatever arguments, a released or refunded record
    stays in the store exactly as it is. *)
Theorem terminal_records_never_change o w id e :
  isCreate o = false → escrows w !! id = Some e →
  state e ∈ [Released; Refunded] →
  escrows (after o w) !! id = Some e.
Proof.
  intros Hop Hid Hterm.
  destruct (after_moved o w id) as [Hsame|[(e0 & e' & Hid0 & He' & Htrans)|
                                            (p & ? & -> & _)]];
    [| |discriminate].
  - by rewrite Hsame.
  - rewrite Hid in Hid0. injection Hid0 as <-.
    by destruct (trans_from_terminal e e' Htrans).
Qed.

Lemma terminal_records_never_change_witness :
  ∃ e, escrows deliveredSample !! "esc_01" = Some e
       ∧ state e = Released
       ∧ escrows (after (OpRefund "esc_01" (Some "late regret"))
                    deliveredSample) !! "esc_01" = Some e.
Proof.
  eexists. split; [vm_compute; reflexivity|]. split; [reflexivity|].
  apply (terminal_records_never_change
           (OpRefund "esc_01" (Some "late regret")) deliveredSample "esc_01");
    [reflexivity|vm_compute; reflexivity|].
  vm_compute. set_solver.
Defined.

(** ** Approvals *)

Lemma addApproval_includes a e :
  includes a (approvals (addApproval a e)) = true.
Proof.
  rewrite addApproval_approvals. unfold includes.
  apply bool_decide_eq_true_2. case_bool_decide; set_solver.
Qed.

Lemma addApproval_idem a e : addApproval a (addApproval a e) = addApproval a e.
Proof. unfold addApproval at 1. by rewrite addApproval_includes. Qed.

(** Approving is idempotent: after a successful [approve(id, a)] a second
    [approve(id, a)] leaves the stored record exactly as the first left
    it: either the escrow got locked and the call is refused, or [a] is
    already listed and nothing is added or locked. *)
Theorem approve_twice_changes_nothing w id e a :
  escrows w !! id = Some e → state e = Funded →
  ∃ w1 e1,
    approve id a w = (w1, inr e1)
    ∧ escrows w1 !! id = Some e1
    ∧ escrows (fst (approve id a w1)) = escrows w1
    ∧ (thrown (approve id a w1) = None
       ∨ thrown (approve id a w1) = Some (CannotApprove Locked)).
Proof.
  intros Hid Hst. rewrite (approve_ok w id e a Hid Hst).
  destruct (allApproved (addApproval a e)) eqn:Hall.
  - eexists _, _. split; [done|]. simpl. rewrite lookup_insert_eq.
    split; [done|].
    rewrite (approve_wrong_state _ id (markLocked (clock w (ticks w))
                                         (addApproval a e)) a);
      [by auto|simpl; by rewrite lookup_insert_eq|done].
  - eexists _, _. split; [done|]. simpl. rewrite lookup_insert_eq.
    split; [done|].
    assert (Hst1 : state (addApproval a e) = Funded)
      by (by destruct (addApproval_fields a e) as (-> & _)).
    rewrite (approve_ok (commit id (addApproval a e) w) id (addApproval a e) a)
      by (done || (simpl; by rewrite lookup_insert_eq)).
    rewrite addApproval_idem, Hall. simpl.
    split; [by rewrite insert_insert_eq|by left].
Qed.

Lemma approve_twice_changes_nothing_witness :
  let w := fst (fund "esc_01" "0xtx1"
                  (fst (create (sampleParams None None) sampleWorld))) in
  ∃ w1 e1,
    approve "esc_01" "alice" w = (w1, inr e1)
    ∧ escrows w1 !! "esc_01" = Some e1
    ∧ escrows (fst (approve "esc_01" "alice" w1)) = escrows w1
    ∧ (thrown (approve "esc_01" "alice" w1) = None
       ∨ thrown (approve "esc_01" "alice" w1) = Some (CannotApprove Locked)).
Proof.
  intros w.
  eapply (approve_twice_changes_nothing w "esc_01"); vm_compute; reflexivity.
Defined.

(** A successful [approve] locks the escrow exactly when, counting the new
    approval, both the payer and the payee have approved; otherwise the
    escrow stays funded.  The approver is appended unless already listed,
    whoever it is. *)
Theorem approve_locks_iff_both_approved w id e a :
  escrows w !! id = Some e → state e = Funded →
  ∃ w' e',
    approve id a w = (w', inr e')
    ∧ escrows w' !! id = Some e'
    ∧ persisted w' = escrows w'
    ∧ approvals e'
      = (if bool_decide (a ∈ approvals e) then approvals e
         else approvals e ++ [a])
    ∧ (state e' = Locked ∨ state e' = Funded)
    ∧ (state e' = Locked
       ↔ payer e ∈ approvals e' ∧ payee e ∈ approvals e').
Proof.
  intros Hid Hst. rewrite (approve_ok w id e a Hid Hst).
  pose proof (allApproved_spec (addApproval a e)) as Hspec.
  destruct (addApproval_fields a e)
    as (Hs & _ & _ & _ & _ & _ & _ & Hpr & Hpe & _).
  rewrite Hpr, Hpe in Hspec.
  destruct (allApproved (addApproval a e)); eexists _, _;
    (split; [done|]); simpl; rewrite lookup_insert_eq;
    (split; [done|]); (split; [done|]);
    (split; [apply addApproval_approvals|]).
  - split; [by left|]. split; [intros _; by apply Hspec|done].
  - rewrite Hs, Hst. split; [by right|].
    split; [done|]. intros Hboth. apply Hspec in Hboth. done.
Qed.

Lemma approve_locks_iff_both_approved_witness :
  ∃ w' e',
    approve "esc_01" "bob" halfApprovedSample = (w', inr e')
    ∧ escrows w' !! "esc_01" = Some e'
    ∧ persisted w' = escrows w'
    ∧ approvals e' = ["alice"; "bob"]
    ∧ (state e' = Locked ∨ state e' = Funded)
    ∧ (state e' = Locked ↔ "alice" ∈ approvals e' ∧ "bob" ∈ approvals e').
Proof.
  apply (approve_locks_iff_both_approved halfApprovedSample "esc_01"
           (fundedSample ["alice"]) "bob"); vm_compute; reflexivity.
Defined.

(** ** The saved file *)

(** Run a method's body on a store about which the context knows enough. *)
Ltac run_all :=
  repeat (first
    [ rewrite lookup_insert_eq
    | progress simpl
    | case_decide
    | match goal with
      | |- context [match escrows ?w !! ?i with _ => _ end] =>
          destruct (escrows w !! i) eqn:?
      | |- context [if ?b then _ else _] => destruct b eqn:?
      end ]).

Lemma single_settled o w :
  o ≠ OpProcessTimeouts →
  after o w = w ∨ synced (after o w).
Proof.
  intros Hop. destruct o as [p|id tx|id a|id proof|id why|id why|id who why
                             |id d who|]; try done; unfold after, synced.
  - right. reflexivity.
  - unfold fund. unfold_ops. run_all; auto.
  - unfold approve. unfold_ops. run_all; auto.
  - destruct (escrows w !! id) as [e|] eqn:Hid;
      [destruct (decide (state e = Locked)) as [Hst|Hst]|].
    + destruct (submitDelivery_locked w id e proof Hid Hst)
        as (w' & -> & _ & Hsaved & _). by right.
    + rewrite (submitDelivery_wrong_state w id e proof Hid Hst). by left.
    + unfold submitDelivery. unfold_ops. rewrite Hid. destruct (inherited id); by left.
  - unfold release. unfold_ops. run_all; auto.
  - unfold refund. unfold_ops. run_all; auto.
  - unfold dispute. unfold_ops. run_all; auto.
  - destruct (escrows w !! id) as [e|] eqn:Hid;
      [destruct (decide (state e = Disputed)) as [Hst|Hst]|].
    + rewrite (resolveDispute_disputed w id e d who Hid Hst).
      repeat case_decide; auto.
    + rewrite (resolveDispute_wrong_state w id e d who Hid Hst). by left.
    + unfold resolveDispute. unfold_ops. rewrite Hid. destruct (inherited id); by left.
Qed.

Lemma sweepLoop_settled now ids :
  ∀ expired w,
    (escrows (fst (sweepLoop now ids expired w)) = escrows w
     ∧ persisted (fst (sweepLoop now ids expired w)) = persisted w)
    ∨ synced (fst (sweepLoop now ids expired w)).
Proof.
  induction ids as [|id ids IH]; intros expired w; [by left|].
  simpl. unfold_ops. rewrite sweepOne_eq.
  destruct (escrows w !! id) as [e|]; [destruct (timedOut now e)|];
    try apply IH.
  destruct (IH (expired ++ [id])
              (commit id (markRefunded (clock w (ticks w))
                            "automatic timeout" e) (tick w)))
    as [[Hsame Hsaved]|Hsynced]; [|by right].
  right. unfold synced. by rewrite Hsame, Hsaved.
Qed.

(** The file on disk never lags behind: if the saved file holds what the
    engine holds in memory before an operation, it does so after it,
    whether the operation returned or threw.  No method throws between a
    change to a record and the [saveState] that follows it. *)
Theorem saved_file_mirrors_memory o w :
  persisted w = escrows w → persisted (after o w) = escrows (after o w).
Proof.
  intros Hsynced.
  assert (o = OpProcessTimeouts ∨ o ≠ OpProcessTimeouts) as [->|Hop]
    by (destruct o; (by left) || (by right)).
  - simpl. rewrite processTimeouts_eq.
    destruct (sweepLoop_settled (clock w (ticks w))
                (fst <$> map_to_list (escrows w)) [] (tick w))
      as [[-> ->]|Hs]; done.
  - by destruct (single_settled o w Hop) as [->|Hs].
Qed.

Lemma saved_file_mirrors_memory_witness :
  persisted (after (OpResolveDispute "esc_01" "release" "arbiter-agent")
               disputedWorld)
  = escrows (after (OpResolveDispute "esc_01" "release" "arbiter-agent")
               disputedWorld).
Proof.
  apply (saved_file_mirrors_memory
           (OpResolveDispute "esc_01" "release" "arbiter-agent")
           disputedWorld).
  vm_compute. reflexivity.
Defined.

(** ** What holds of every reachable store *)

(** Funds are released only on delivery: in every store the engine can
    reach, a released escrow that requires delivery holds a delivery
    proof. *)
Theorem released_escrow_has_its_proof w id e :
  reachable w → escrows w !! id = Some e →
  state e = Released → requiresDelivery (conditions e) = true →
  is_Some (deliveryProof e).
Proof.
  intros Hreach Hid Hst Hreq.
  destruct (reachable_wellFormed w Hreach id e Hid) as [Hwf _].
  by apply (wf_released e Hwf).
Qed.

Lemma released_escrow_has_its_proof_witness :
  ∃ e, escrows deliveredSample !! "esc_01" = Some e
       ∧ state e = Released ∧ is_Some (deliveryProof e).
Proof.
  eexists. split; [vm_compute; reflexivity|]. split; [reflexivity|].
  apply (released_escrow_has_its_proof deliveredSample "esc_01");
    [apply reachable_sample|vm_compute; reflexivity|reflexivity|reflexivity].
Defined.

(** No escrow gets past [funded] without its approvals: in every reachable
    store an escrow that requires approval and is locked, released or
    disputed lists both its payer and its payee among its approvals, and
    an escrow that does not require approval is never seen in state
    [funded] (it is locked by [fund] itself). *)
Theorem locked_escrow_has_both_approvals w id e :
  reachable w → escrows w !! id = Some e →
  (state e ∈ [Locked; Released; Disputed] →
   requiresApproval (conditions e) = true →
   payer e ∈ approvals e ∧ payee e ∈ approvals e)
  ∧ (state e = Funded → requiresApproval (conditions e) = true).
Proof.
  intros Hreach Hid.
  destruct (reachable_wellFormed w Hreach id e Hid) as [Hwf _].
  split; [apply (wf_locked e Hwf)|apply (wf_funded e Hwf)].
Qed.

Lemma locked_escrow_has_both_approvals_witness :
  escrows (runOps (lockingOps None) sampleWorld) !! "esc_01"
  = Some (lockedSample None)
  ∧ "alice" ∈ approvals (lockedSample None)
  ∧ "bob" ∈ approvals (lockedSample None).
Proof.
  split; [vm_compute; reflexivity|].
  apply (locked_escrow_has_both_approvals
           (runOps (lockingOps None) sampleWorld) "esc_01"
           (lockedSample None));
    [apply reachable_sample|vm_compute; reflexivity| |reflexivity].
  vm_compute. set_solver.
Defined.

(** An approver is listed once: in every reachable store the approvals of
    every escrow are free of repetitions, whoever approved and however
    often. *)
Theorem approvals_never_repeat w id e :
  reachable w → escrows w !! id = Some e → NoDup (approvals e).
Proof.
  intros Hreach Hid.
  destruct (reachable_wellFormed w Hreach id e Hid) as [Hwf _].
  apply (wf_approvals e Hwf).
Qed.

Lemma approvals_never_repeat_witness :
  NoDup (approvals (lockedSample None)).
Proof.
  apply (approvals_never_repeat (runOps (lockingOps None) sampleWorld)
           "esc_01" (lockedSample None));
    [apply reachable_sample|vm_compute; reflexivity].
Defined.

(** The record tells its own history: in every reachable store an escrow
    is stored under its own id; its funding stamp and transaction hash are
    set exactly when it has left [pending]; its release stamp and release
    reason exactly when it is released; its refund stamp and refund reason
    exactly when it is refunded; a locked, released or disputed escrow has
    its lock stamp; a disputed one has its dispute stamp and reason. *)
Theorem record_tells_its_history w id e :
  reachable w → escrows w !! id = Some e →
  escrowId e = id
  ∧ (is_Some (funded (timeline e)) ↔ state e ≠ Pending)
  ∧ (is_Some (txHash e) ↔ state e ≠ Pending)
  ∧ (is_Some (released (timeline e)) ↔ state e = Released)
  ∧ (is_Some (releaseReason (metadata e)) ↔ state e = Released)
  ∧ (is_Some (refunded (timeline e)) ↔ state e = Refunded)
  ∧ (is_Some (refundReason (metadata e)) ↔ state e = Refunded)
  ∧ (state e ∈ [Locked; Released; Disputed] →
     is_Some (locked (timeline e)))
  ∧ (state e = Disputed →
     is_Some (disputed (timeline e)) ∧ is_Some (disputeReason e)).
Proof.
  intros Hreach Hid.
  destruct (reachable_wellFormed w Hreach id e Hid) as [Hwf Hkey].
  split; [done|]. destruct Hwf. intuition.
Qed.

Lemma record_tells_its_history_witness :
  ∃ e, escrows arbitratedSample !! "esc_01" = Some e
       ∧ escrowId e = "esc_01"
       ∧ (is_Some (funded (timeline e)) ↔ state e ≠ Pending)
       ∧ (is_Some (txHash e) ↔ state e ≠ Pending)
       ∧ (is_Some (released (timeline e)) ↔ state e = Released)
       ∧ (is_Some (releaseReason (metadata e)) ↔ state e = Released)
       ∧ (is_Some (refunded (timeline e)) ↔ state e = Refunded)
       ∧ (is_Some (refundReason (metadata e)) ↔ state e = Refunded)
       ∧ (state e ∈ [Locked; Released; Disputed] →
          is_Some (locked (timeline e)))
       ∧ (state e = Disputed →
          is_Some (disputed (timeline e)) ∧ is_Some (disputeReason e)).
Proof.
  eexists. split; [vm_compute; reflexivity|].
  apply (record_tells_its_history arbitratedSample "esc_01");
    [apply reachable_sample|vm_compute; reflexivity].
Defined.

(** An arbiter's name appears only on refunds: in every reachable store an
    escrow that carries an arbiter is refunded, was disputed, and its
    refund reason is "arbiter decision by " followed by that arbiter.  No
    reachable escrow was released by an arbiter. *)
Theorem arbiter_appears_only_on_refunds w id e who :
  reachable w → escrows w !! id = Some e →
  arbiter (metadata e) = Some who →
  state e = Refunded
  ∧ refundReason (metadata e) = Some ("arbiter decision by " +:+ who)
  ∧ is_Some (disputed (timeline e)).
Proof.
  intros Hreach Hid Harb.
  destruct (reachable_wellFormed w Hreach id e Hid) as [Hwf _].
  by apply (wf_arbiter e Hwf).
Qed.

Lemma arbiter_appears_only_on_refunds_witness :
  ∃ e, escrows arbitratedSample !! "esc_01" = Some e
       ∧ state e = Refunded
       ∧ refundReason (metadata e)
         = Some "arbiter decision by arbiter-agent"
       ∧ is_Some (disputed (timeline e)).
Proof.
  eexists. split; [vm_compute; reflexivity|].
  apply (arbiter_appears_only_on_refunds arbitratedSample "esc_01" _
           "arbiter-agent");
    [apply reachable_sample|vm_compute; reflexivity|reflexivity].
Defined.

Lemma releaseX402_is_release id d w :
  ∃ why, releaseX402 id d w = release id why w.
Proof.
  unfold releaseX402, getNow. unfold_ops.
  destruct (get id w) as [e|]; [destruct (autoRelease (conditions e))|];
    eauto.
Qed.

(** An escrow whose only condition is delivery is never released by a
    call to [release] or [releaseX402]: in every reachable store such a
    call throws and changes nothing, "Delivery proof required before
    release" while the escrow is locked and "Cannot release escrow in
    state: ..." in any other state.  Only the automatic release inside
    [submitDelivery] releases it. *)
Theorem delivery_only_escrow_rejects_release w id e :
  reachable w → escrows w !! id = Some e →
  deliveryOnlyCondition e = true →
  ∃ err,
    err = (if decide (state e = Locked) then DeliveryProofRequired
           else CannotRelease (state e))
    ∧ (∀ why, release id why w = (w, inl err))
    ∧ (∀ d, releaseX402 id d w = (w, inl err)).
Proof.
  intros Hreach Hid Hauto.
  destruct (reachable_wellFormed w Hreach id e Hid) as [Hwf _].
  assert (Hrel : ∀ why,
             release id why w
             = (w, inl (if decide (state e = Locked)
                        then DeliveryProofRequired
                        else CannotRelease (state e)))).
  { intros why. case_decide as Hst.
    - apply (release_needs_proof w id e why Hid Hst).
      + by apply deliveryOnlyCondition_needs_delivery.
      + destruct (deliveryProof e) as [dp|] eqn:Hproof; [|done].
        destruct (wf_proof e Hwf) as [_ Hreleased]; [by rewrite Hproof|].
        rewrite (Hreleased Hauto) in Hst. discriminate.
    - by apply release_wrong_state. }
  eexists. split; [done|]. split; [done|].
  intros d. destruct (releaseX402_is_release id d w) as [why ->]. apply Hrel.
Qed.

Lemma delivery_only_escrow_rejects_release_witness :
  ∃ err,
    err = DeliveryProofRequired
    ∧ (∀ why, release "esc_01" why awaitingDeliverySample
              = (awaitingDeliverySample, inl err))
    ∧ (∀ d, releaseX402 "esc_01" d awaitingDeliverySample
            = (awaitingDeliverySample, inl err)).
Proof.
  apply (delivery_only_escrow_rejects_release awaitingDeliverySample "esc_01"
           (lockedSample (Some deliveryOnly)));
    [apply reachable_sample|vm_compute; reflexivity|reflexivity].
Defined.

Lemma trans_stamps e e' :
  trans e e' → wellFormed e →
  (∀ t, funded (timeline e) = Some t → funded (timeline e') = Some t)
  ∧ (∀ t, locked (timeline e) = Some t → locked (timeline e') = Some t)
  ∧ (∀ t, released (timeline e) = Some t → released (timeline e') = Some t)
  ∧ (∀ t, refunded (timeline e) = Some t → refunded (timeline e') = Some t)
  ∧ (∀ t, disputed (timeline e) = Some t → disputed (timeline e') = Some t).
Proof.
  intros Htrans Hwf.
  pose proof (wf_stamp_funded e Hwf) as Hfu.
  pose proof (wf_stamp_locked e Hwf) as [_ Hlo].
  pose proof (wf_stamp_released e Hwf) as Hrl.
  pose proof (wf_stamp_refunded e Hwf) as Hrf.
  pose proof (wf_stamp_disputed e Hwf) as [_ Hdi].
  clear Hwf.
  destruct Htrans as [e ? ? Hst|e ? ? ? Hst|e a Hst|e a ? Hst|e ? ? Hst
                      |e ? ? ? Hst|e ? ? Hst|e ? ? Hst|e ? ? ? ? Hst|e ? ? Hst];
    simpl;
    try (destruct (addApproval_fields a e) as (_ & _ & -> & _));
    try (rewrite !elem_of_cons, elem_of_nil in Hst;
         destruct Hst as [Hst|[Hst|[Hst|[]]]]);
    rewrite Hst in *; rewrite ?elem_of_cons, ?elem_of_nil in *;
    repeat split; intros stamp Hset; try done;
    exfalso; rewrite Hset in *; naive_solver.
Qed.

(** The timeline is append-only: from a reachable store, no operation
    other than [create] changes an instant already stamped on a record
    (funded, locked, released, refunded, disputed). *)
Theorem stamps_are_never_overwritten o w id e :
  reachable w → isCreate o = false → escrows w !! id = Some e →
  ∃ e', escrows (after o w) !! id = Some e'
        ∧ (∀ t, funded (timeline e) = Some t → funded (timeline e') = Some t)
        ∧ (∀ t, locked (timeline e) = Some t → locked (timeline e') = Some t)
        ∧ (∀ t, released (timeline e) = Some t
                → released (timeline e') = Some t)
        ∧ (∀ t, refunded (timeline e) = Some t
                → refunded (timeline e') = Some t)
        ∧ (∀ t, disputed (timeline e) = Some t
                → disputed (timeline e') = Some t).
Proof.
  intros Hreach Hop Hid.
  destruct (reachable_wellFormed w Hreach id e Hid) as [Hwf _].
  destruct (after_moved o w id) as [Hsame|[(e0 & e' & Hid0 & He' & Htrans)|
                                            (p & ? & -> & _)]];
    [| |discriminate].
  - exists e. rewrite Hsame. by repeat split.
  - rewrite Hid in Hid0. injection Hid0 as <-. exists e'.
    split; [done|]. by apply trans_stamps.
Qed.

Lemma stamps_are_never_overwritten_witness :
  ∃ e', escrows (after (OpRefund "esc_01" None)
                   (runOps (lockingOps None) sampleWorld)) !! "esc_01"
        = Some e'
        ∧ funded (timeline e') = Some 1001
        ∧ locked (timeline e') = Some 1002
        ∧ refunded (timeline e') = Some 1003.
Proof.
  destruct (stamps_are_never_overwritten (OpRefund "esc_01" None)
              (runOps (lockingOps None) sampleWorld) "esc_01"
              (lockedSample None))
    as (e' & He' & Hfu & Hlo & _);
    [apply reachable_sample|reflexivity|vm_compute; reflexivity|].
  exists e'. split; [done|]. split; [by apply Hfu|]. split; [by apply Hlo|].
  revert He'. vm_compute. by intros [= <-].
Defined.

(** [resolveDispute] on a disputed escrow: the decision ['refund'] refunds
    it, with the reason "arbiter decision by " and the arbiter's name,
    stamps the arbiter and saves; a decision that is neither ['release']
    nor ['refund'] throws "Invalid dispute resolution: ..." and changes
    nothing. *)
Theorem resolveDispute_refunds_or_rejects w id e decision who :
  escrows w !! id = Some e → state e = Disputed → decision ≠ "release" →
  if decide (decision = "refund")
  then ∃ w' e',
         resolveDispute id decision who w = (w', inr e')
         ∧ escrows w' !! id = Some e'
         ∧ persisted w' = escrows w'
         ∧ state e' = Refunded
         ∧ arbiter (metadata e') = Some who
         ∧ refundReason (metadata e')
           = Some ("arbiter decision by " +:+ who)
         ∧ refunded (timeline e') = Some (clock w (ticks w))
  else resolveDispute id decision who w
       = (w, inl (InvalidDisputeResolution decision)).
Proof.
  intros Hid Hst Hrel.
  rewrite (resolveDispute_disputed w id e decision who Hid Hst).
  rewrite (decide_False (P := decision = "release")) by done.
  case_decide; [|done].
  eexists _, _. split; [done|]. simpl. by rewrite lookup_insert_eq.
Qed.

Lemma resolveDispute_refunds_or_rejects_witness :
  resolveDispute "esc_01" "split" "arbiter-agent" disputedWorld
  = (disputedWorld, inl (InvalidDisputeResolution "split")).
Proof.
  apply (resolveDispute_refunds_or_rejects disputedWorld "esc_01"
           (markDisputed 1003 1004 (Some "alice")
              (Some "Incomplete delivery") (lockedSample None))
           "split" "arbiter-agent");
    [vm_compute; reflexivity|reflexivity|done].
Defined.

(** ** Listing and statistics *)

Lemma allEscrows_elem w e :
  e ∈ allEscrows w ↔ ∃ id, escrows w !! id = Some e.
Proof.
  unfold allEscrows. rewrite list_elem_of_fmap. split.
  - intros ([id e'] & -> & Hin). exists id. by apply elem_of_map_to_list.
  - intros [id Hid]. exists (id, e). split; [done|].
    by apply elem_of_map_to_list.
Qed.

(** [list(filters)] returns exactly the stored escrows that pass every
    filter that is given and truthy; a filter left out, an empty string
    or a minimum amount of zero excludes nothing. *)
Theorem listEscrows_returns_the_matches f w e :
  e ∈ listEscrows f w
  ↔ (∃ id, escrows w !! id = Some e)
    ∧ (∀ p, filterPayer f = Some p → p ≠ "" → payer e = p)
    ∧ (∀ p, filterPayee f = Some p → p ≠ "" → payee e = p)
    ∧ (∀ s, filterState f = Some s → s ≠ "" → stateName (state e) = s)
    ∧ (∀ m, filterMinAmount f = Some m → m ≠ 0 → m ≤ amount e).
Proof.
  rewrite <- allEscrows_elem. unfold listEscrows.
  destruct f as [fp fe fs fm]; simpl. unfold orNull.
  destruct fp as [p|]; [destruct (decide (p = ""))|];
    (destruct fe as [q|]; [destruct (decide (q = ""))|]);
    (destruct fs as [s|]; [destruct (decide (s = ""))|]);
    (destruct fm as [m|]; [destruct (decide (m = 0))|]);
    rewrite ?list_elem_of_filter; naive_solver.
Qed.

Lemma countState_fold l :
  ∀ acc k,
    default 0%nat (foldl countState acc l !! k)
    = (default 0%nat (acc !! k)
       + length (filter (λ e, stateName (state e) = k) l))%nat.
Proof.
  induction l as [|e l IH]; intros acc k; simpl; [lia|].
  rewrite IH. unfold countState. rewrite filter_cons.
  destruct (decide (stateName (state e) = k)) as [->|Hne].
  - rewrite lookup_insert_eq. simpl. lia.
  - rewrite lookup_insert_ne by done. lia.
Qed.

Lemma active_is_funded_plus_locked (l : list Escrow) :
  length (filter (λ e, state e ∈ [Funded; Locked]) l)
  = (length (filter (λ e, stateName (state e) = "funded") l)
     + length (filter (λ e, stateName (state e) = "locked") l))%nat.
Proof.
  induction l as [|e l IH]; [done|].
  rewrite !filter_cons.
  destruct (state e) eqn:Hst; simpl;
    repeat (case_decide; try (exfalso; set_solver)); simpl; lia.
Qed.

(** The statistics agree with the listing: [total] is the number of
    escrows [list()] returns, the count [byState] keeps for a state (zero
    when it has no key for it) is the number [list({state})] returns, and
    [activeEscrows] is the funded count plus the locked count. *)
Theorem getStats_agrees_with_listEscrows w :
  total (getStats w) = length (listEscrows noFilters w)
  ∧ (∀ s, default 0%nat (byState (getStats w) !! stateName s)
          = length (listEscrows
                      (mkFilters None None (Some (stateName s)) None) w))
  ∧ activeEscrows (getStats w)
    = (length (listEscrows (mkFilters None None (Some "funded") None) w)
       + length (listEscrows (mkFilters None None (Some "locked") None) w))%nat.
Proof.
  split; [done|]. split.
  - intros s. unfold getStats, listEscrows. simpl.
    rewrite countState_fold, lookup_empty. simpl.
    by destruct s.
  - unfold getStats, listEscrows. simpl. apply active_is_funded_plus_locked.
Qed.

(** ** The X402 helpers *)

(** [verifyX402Payment] accepts an escrow exactly when it is stored, is
    funded or locked, holds at least the expected amount and has a purpose
    that begins with "X402:"; what it returns as valid is the stored
    record. *)
Theorem verifyX402Payment_accepts_iff id expected w e :
  verifyX402Payment id expected w = inr e
  ↔ escrows w !! id = Some e
    ∧ (state e = Funded ∨ state e = Locked)
    ∧ expected ≤ amount e
    ∧ String.prefix "X402:" (purpose e) = true.
Proof.
  unfold verifyX402Payment, get.
  destruct (escrows w !! id) as [e0|];
    [|destruct (inherited id); naive_solver].
  case_bool_decide as Hst; simpl.
  - case_bool_decide as Hamt; simpl.
    + split; [done|]. intros ([= <-] & _ & ? & _). lia.
    + destruct (String.prefix "X402:" (purpose e0)) eqn:Hpre; simpl.
      * split.
        -- intros [= <-]. repeat split; try done; [set_solver|lia].
        -- by intros ([= <-] & _).
      * split; [done|]. intros ([= <-] & _ & _ & ?). congruence.
  - split; [done|]. intros ([= <-] & Hs & _). set_solver.
Qed.

(** An X402 escrow needs no approval: for any payment and options,
    [createX402Escrow] followed by [fund] leaves the escrow locked, and it
    then verifies as payment for every expected amount up to the amount
    paid and is refused as insufficient for any higher one. *)
Theorem x402_escrow_is_locked_by_funding w paymentInfo options tx expected :
  ∃ w1 e1 w2 e2,
    createX402Escrow paymentInfo options w = (w1, inr e1)
    ∧ fund (escrowId e1) tx w1 = (w2, inr e2)
    ∧ get (escrowId e1) w2 = Some e2
    ∧ state e2 = Locked
    ∧ payee e2 = recipient paymentInfo
    ∧ amount e2 = paymentAmount paymentInfo
    ∧ verifyX402Payment (escrowId e1) expected w2
      = (if bool_decide (paymentAmount paymentInfo < expected)
         then inl (X402Insufficient (paymentAmount paymentInfo) expected)
         else inr e2).
Proof.
  unfold createX402Escrow. rewrite create_ok. eexists _, _, _, _.
  split; [done|]. simpl.
  erewrite fund_ok; [|simpl; by rewrite lookup_insert_eq|done]. simpl.
  split; [done|]. unfold verifyX402Payment, get. simpl.
  rewrite !lookup_insert_eq. simpl. by repeat split.
Qed.

(** Delivery spends an X402 escrow: after [createX402Escrow] and [fund],
    [submitDelivery] releases the escrow with the reason "automatic -
    delivery confirmed"; from then on the escrow no longer verifies as
    payment ("Escrow not funded (state: released)").  [releaseX402] never
    succeeds on it: before delivery it throws "Delivery proof required
    before release", after delivery "Cannot release escrow in state:
    released". *)
Theorem x402_delivery_releases_and_spends w paymentInfo options tx proof
    expected d :
  ∃ w1 e1 w2 e2 w3 e3,
    createX402Escrow paymentInfo options w = (w1, inr e1)
    ∧ fund (escrowId e1) tx w1 = (w2, inr e2)
    ∧ releaseX402 (escrowId e1) d w2 = (w2, inl DeliveryProofRequired)
    ∧ submitDelivery (escrowId e1) proof w2 = (w3, inr e3)
    ∧ get (escrowId e1) w3 = Some e3
    ∧ state e3 = Released
    ∧ releaseReason (metadata e3) = Some "automatic - delivery confirmed"
    ∧ verifyX402Payment (escrowId e1) expected w3
      = inl (X402NotFunded Released)
    ∧ releaseX402 (escrowId e1) d w3 = (w3, inl (CannotRelease Released)).
Proof.
  unfold createX402Escrow. rewrite create_ok. cbv zeta.
  set (id := entropy w (draws w)).
  match goal with
  | |- context [commit id ?e ?w0] => set (e1 := e); set (w1 := commit id e1 w0)
  end.
  assert (Hid1 : escrows w1 !! id = Some e1)
    by (subst w1; simpl; by rewrite lookup_insert_eq).
  pose proof (fund_ok w1 id e1 tx Hid1 eq_refl) as Hfund.
  cbv zeta in Hfund.
  change (requiresApproval (conditions e1)) with false in Hfund.
  cbv iota in Hfund.
  match type of Hfund with
  | _ = (commit id ?e ?w0, _) => set (e2 := e) in *; set (w2 := commit id e2 w0) in *
  end.
  assert (Hid2 : escrows w2 !! id = Some e2)
    by (subst w2; simpl; by rewrite lookup_insert_eq).
  destruct (submitDelivery_locked w2 id e2 proof Hid2 eq_refl)
    as (w3 & Hsub & Hid3 & _).
  change (requiresDelivery (conditions e2)
          && negb (requiresArbiter (conditions e2))
          && negb (requiresClientConfirmation (conditions e2)))
    with true in Hsub, Hid3.
  cbv iota in Hsub, Hid3.
  exists w1, e1, w2, e2, w3. eexists. change (escrowId e1) with id.
  split; [done|]. split; [exact Hfund|].
  split.
  { destruct (releaseX402_is_release id d w2) as [why ->].
    by apply (release_needs_proof w2 id e2 why). }
  split; [exact Hsub|]. split; [exact Hid3|].
  split; [done|]. split; [done|].
  split.
  { unfold verifyX402Payment, get. by rewrite Hid3. }
  destruct (releaseX402_is_release id d w3) as [why ->].
  by rewrite (release_wrong_state w3 id _ why Hid3).
Qed.

(** ** The wrapper and the engine *)

Lemma mirrors_ret {A} (a : A) : Wrapper.mirrors (mret a) (mret a).
Proof. by intros h. Qed.

Lemma mirrors_lift {A} (m : M A) : Wrapper.mirrors (Wrapper.lift m) m.
Proof.
  intros h. unfold Wrapper.lift.
  by destruct (m (Wrapper.engine h)) as [w' [err|a]].
Qed.

Lemma mirrors_raise {A} (err : Error) :
  Wrapper.mirrors (Wrapper.raise (A := A) (Wrapper.EngineError err))
    (throw err).
Proof. by intros h. Qed.

Lemma mirrors_bind {A B} (hm : Wrapper.H A) (m : M A) (hf : A → Wrapper.H B)
    (f : A → M B) :
  Wrapper.mirrors hm m → (∀ a, Wrapper.mirrors (hf a) (f a)) →
  Wrapper.mirrors (hm ≫= hf) (m ≫= f).
Proof.
  intros Hm Hf h. unfold mbind, Wrapper.H_bind, M_bind.
  destruct (Hm h) as [Heng Hres].
  destruct (hm h) as [h' r], (m (Wrapper.engine h)) as [w' r']. simpl in *.
  subst w'. destruct r as [err|a], r' as [err'|a']; try done.
  - by injection Hres as ->.
  - injection Hres as ->. apply Hf.
Qed.

(** Emitting after a computation does not show in the engine. *)
Lemma mirrors_then {A} (hm : Wrapper.H A) (m : M A) (k : A → Wrapper.H unit) :
  Wrapper.mirrors hm m → (∀ a, Wrapper.mirrors (k a) (mret tt)) →
  Wrapper.mirrors (a ← hm; k a;; mret a) m.
Proof.
  intros Hm Hk h. unfold mbind, Wrapper.H_bind, mret, Wrapper.H_ret.
  destruct (Hm h) as [Heng Hres].
  destruct (hm h) as [h' r], (m (Wrapper.engine h)) as [w' r']. simpl in *.
  subst w'. destruct r as [err|a]; [done|].
  destruct (Hk a h') as [Heng' Hres']. simpl in *.
  destruct (k a h') as [h'' [err|[]]]; simpl in *; [done|].
  by rewrite Heng'.
Qed.

Lemma mirrors_emitHook ev : Wrapper.mirrors (Wrapper.emitHook ev) (mret tt).
Proof. by intros h. Qed.

Lemma mirrors_release id why :
  Wrapper.mirrors (Wrapper.release id why) (release id why).
Proof.
  unfold Wrapper.release. apply (mirrors_then _ _ _ (mirrors_lift _)).
  intros a. apply mirrors_emitHook.
Qed.

Lemma mirrors_refund id why :
  Wrapper.mirrors (Wrapper.refund id why) (refund id why).
Proof.
  unfold Wrapper.refund. apply (mirrors_then _ _ _ (mirrors_lift _)).
  intros a. apply mirrors_emitHook.
Qed.

Lemma mirrors_create p token :
  Wrapper.mirrors (Wrapper.create p token) (create p).
Proof.
  unfold Wrapper.create. apply (mirrors_then _ _ _ (mirrors_lift _)).
  intros a. apply mirrors_emitHook.
Qed.

Lemma mirrors_fund id tx : Wrapper.mirrors (Wrapper.fund id tx) (fund id tx).
Proof.
  unfold Wrapper.fund. apply (mirrors_then _ _ _ (mirrors_lift _)).
  intros a. apply mirrors_emitHook.
Qed.

Lemma mirrors_approve id a :
  Wrapper.mirrors (Wrapper.approve id a) (approve id a).
Proof.
  unfold Wrapper.approve. apply (mirrors_then _ _ _ (mirrors_lift _)).
  intros e. case_decide; [apply mirrors_emitHook|apply mirrors_ret].
Qed.

Lemma mirrors_dispute id who why :
  Wrapper.mirrors (Wrapper.dispute id who why) (dispute id why None).
Proof.
  unfold Wrapper.dispute. apply (mirrors_then _ _ _ (mirrors_lift _)).
  intros a. apply mirrors_emitHook.
Qed.

Section Dispatch.

Variables thisRelease thisRefund : string → option string → Wrapper.H Escrow.
Hypothesis release_mirrors :
  ∀ id why, Wrapper.mirrors (thisRelease id why) (release id why).
Hypothesis refund_mirrors :
  ∀ id why, Wrapper.mirrors (thisRefund id why) (refund id why).

Lemma mirrors_submitDeliveryVia id proof :
  Wrapper.mirrors (Wrapper.submitDeliveryVia thisRelease id proof)
    (submitDelivery id proof).
Proof.
  unfold Wrapper.submitDeliveryVia, submitDelivery.
  apply mirrors_bind; [apply mirrors_lift|]. intros e.
  case_decide; [apply mirrors_raise|].
  apply mirrors_bind; [apply mirrors_lift|]. intros t.
  apply mirrors_bind; [apply mirrors_lift|]. intros _.
  apply mirrors_bind.
  - destruct (_ && _); [|apply mirrors_ret].
    apply mirrors_bind; [apply release_mirrors|]. intros _. apply mirrors_ret.
  - intros _. apply mirrors_bind; [apply mirrors_lift|]. intros _.
    apply mirrors_lift.
Qed.

Lemma mirrors_resolveDisputeVia id decision who :
  Wrapper.mirrors
    (Wrapper.resolveDisputeVia thisRelease thisRefund id decision who)
    (resolveDispute id decision who).
Proof.
  unfold Wrapper.resolveDisputeVia, resolveDispute.
  apply mirrors_bind; [apply mirrors_lift|]. intros e.
  case_decide; [apply mirrors_raise|].
  apply mirrors_bind.
  - repeat case_decide.
    + apply mirrors_bind; [apply release_mirrors|]. intros _.
      apply mirrors_ret.
    + apply mirrors_bind; [apply refund_mirrors|]. intros _.
      apply mirrors_ret.
    + apply mirrors_raise.
  - intros _. apply mirrors_bind; [apply mirrors_lift|]. intros e'.
    apply mirrors_bind; [apply mirrors_lift|]. intros _.
    apply mirrors_bind; [apply mirrors_lift|]. intros _. apply mirrors_ret.
Qed.

Lemma mirrors_sweepOneVia now expired id :
  Wrapper.mirrors (Wrapper.sweepOneVia thisRefund now expired id)
    (sweepOne now expired id).
Proof.
  intros h. unfold Wrapper.sweepOneVia, sweepOne.
  destruct (escrows (Wrapper.engine h) !! id) as [e|]; [|done].
  destruct (timedOut now e); [|done].
  apply (mirrors_bind _ _ _ _ (refund_mirrors _ _)).
  intros _. apply mirrors_ret.
Qed.

Lemma mirrors_sweepLoopVia now ids :
  ∀ expired,
    Wrapper.mirrors (Wrapper.sweepLoopVia thisRefund now ids expired)
      (sweepLoop now ids expired).
Proof.
  induction ids as [|id ids IH]; intros expired; simpl.
  - apply mirrors_ret.
  - apply mirrors_bind; [apply mirrors_sweepOneVia|apply IH].
Qed.

Lemma mirrors_processTimeoutsVia :
  Wrapper.mirrors (Wrapper.processTimeoutsVia thisRefund) processTimeouts.
Proof.
  unfold Wrapper.processTimeoutsVia, processTimeouts.
  apply mirrors_bind; [apply mirrors_lift|]. intros now.
  apply mirrors_bind; [apply mirrors_lift|]. intros ids.
  apply mirrors_sweepLoopVia.
Qed.

End Dispatch.

Lemma mirrors_submitDelivery id proof :
  Wrapper.mirrors (Wrapper.submitDelivery id proof) (submitDelivery id proof).
Proof.
  intros h.
  destruct (mirrors_submitDeliveryVia Wrapper.release mirrors_release
              id proof h) as [Heng Hres].
  unfold Wrapper.submitDelivery, mbind, Wrapper.H_bind, mret, Wrapper.H_ret.
  destruct (Wrapper.submitDeliveryVia Wrapper.release id proof h) as [h' r].
  simpl in Heng, Hres.
  destruct (escrows (Wrapper.engine h) !! id) as [e|] eqn:Hid.
  - destruct (decide (state e = Locked)) as [Hst|Hst].
    + destruct (submitDelivery_locked (Wrapper.engine h) id e proof Hid Hst)
        as (w' & Hrun & _).
      rewrite Hrun in Heng, Hres |- *. simpl in Heng, Hres |- *. subst r.
      destruct (requiresDelivery (conditions e)
                && negb (requiresArbiter (conditions e))
                && negb (requiresClientConfirmation (conditions e)));
        simpl.
      * done.
      * rewrite decide_True by done. done.
    + rewrite (submitDelivery_wrong_state _ id e proof Hid Hst) in Heng, Hres
        |- *. simpl in *. by subst r.
  - unfold submitDelivery in Heng, Hres |- *. unfold_ops.
    unfold mbind, M_bind, findEscrow in Heng, Hres.
    rewrite Hid in Heng, Hres |- *.
    destruct (inherited id); simpl in *; by subst r.
Qed.

Lemma mirrors_announceTimeouts expired :
  Wrapper.mirrors (Wrapper.announceTimeouts expired) (mret tt).
Proof.
  induction expired as [|id rest IH]; simpl; [apply mirrors_ret|].
  intros h. unfold mbind, Wrapper.H_bind, Wrapper.lift, getNow. simpl.
  destruct (get id (Wrapper.engine h)); simpl; apply IH.
Qed.

Lemma mirrors_processTimeouts :
  Wrapper.mirrors Wrapper.processTimeouts processTimeouts.
Proof.
  unfold Wrapper.processTimeouts.
  apply mirrors_then.
  - apply (mirrors_processTimeoutsVia Wrapper.refund mirrors_refund).
  - apply mirrors_announceTimeouts.
Qed.

(** What [run] makes of a method that mirrors an engine method. *)
Lemma mirrors_run {A} (hm : Wrapper.H A) (m : M A) h :
  Wrapper.mirrors hm m →
  Wrapper.engine (fst ((hm ≫= λ _, mret tt) h)) = fst (m (Wrapper.engine h))
  ∧ snd ((hm ≫= λ _, mret tt) h)
    = match thrown (m (Wrapper.engine h)) with
      | Some err => inl (Wrapper.EngineError err)
      | None => inr tt
      end.
Proof.
  intros Hm. destruct (Hm h) as [Heng Hres].
  unfold mbind, Wrapper.H_bind, mret, Wrapper.H_ret, thrown.
  destruct (hm h) as [h' r]. simpl in *. rewrite <- Heng.
  destruct (snd (m (Wrapper.engine h))); by subst r.
Qed.

(** The wrapper is transparent: whatever method is called on a wrapper
    instance, the store and the saved file end as the engine's own method
    would leave them, the call throws exactly when the engine's would and
    throws the same error, and it never fails with a [TypeError].  The
    one method whose engine call differs is [dispute], which runs the
    engine's [dispute] with the reason in the place of the disputer. *)
Theorem wrapper_is_transparent token o h :
  escrows (Wrapper.engine (fst (Wrapper.run token o h)))
  = escrows (after (Wrapper.baseOf o) (Wrapper.engine h))
  ∧ persisted (Wrapper.engine (fst (Wrapper.run token o h)))
    = persisted (after (Wrapper.baseOf o) (Wrapper.engine h))
  ∧ snd (Wrapper.run token o h)
    = match outcome (Wrapper.baseOf o) (Wrapper.engine h) with
      | Some err => inl (Wrapper.EngineError err)
      | None => inr tt
      end.
Proof.
  destruct o as [p|id tx|id a|id proof|id why|id why|id who why|id d who|];
    unfold Wrapper.run, Wrapper.baseOf, after, outcome.
  - destruct (mirrors_run _ _ h (mirrors_create p token)) as [-> ->]. done.
  - destruct (mirrors_run _ _ h (mirrors_fund id tx)) as [-> ->]. done.
  - destruct (mirrors_run _ _ h (mirrors_approve id a)) as [-> ->]. done.
  - destruct (mirrors_run _ _ h (mirrors_submitDelivery id proof))
      as [-> ->]. done.
  - destruct (mirrors_run _ _ h (mirrors_release id why)) as [-> ->]. done.
  - destruct (mirrors_run _ _ h (mirrors_refund id why)) as [-> ->]. done.
  - destruct (mirrors_run _ _ h (mirrors_dispute id who why)) as [-> ->].
    done.
  - destruct (mirrors_resolveDisputeVia Wrapper.release Wrapper.refund
                mirrors_release mirrors_refund id d who h) as [Heng Hres].
    unfold Wrapper.resolveDispute, mbind, Wrapper.H_bind, mret,
      Wrapper.H_ret, thrown.
    destruct (Wrapper.resolveDisputeVia Wrapper.release Wrapper.refund
                id d who h) as [h' r].
    simpl in Heng, Hres. rewrite <- Heng.
    destruct (snd (resolveDispute id d who (Wrapper.engine h))); subst r;
      done.
  - destruct (mirrors_run _ _ h mirrors_processTimeouts) as [-> ->]. done.
Qed.

(** ** What the wrapper emits *)

Ltac unfold_hooked :=
  unfold mbind, mret, Wrapper.H_bind, Wrapper.H_ret, Wrapper.lift,
    Wrapper.raise, Wrapper.emitHook.

Lemma wrapper_release_eq id why w log :
  Wrapper.release id why (Wrapper.mkHooked w log)
  = match release id why w with
    | (w', inr e) =>
        (Wrapper.mkHooked w'
           (log ++ [Wrapper.EscrowReleased (escrowId e) (payer e) (payee e)
                      (amount e) (default "manual release" why)
                      (released (timeline e))]),
         inr e)
    | (w', inl err) => (Wrapper.mkHooked w' log, inl (Wrapper.EngineError err))
    end.
Proof.
  unfold Wrapper.release. unfold_hooked. simpl.
  change (release id (Some (default "manual release" why)) w)
    with (release id why w).
  by destruct (release id why w) as [w' [err|e]].
Qed.

Lemma wrapper_refund_eq id why w log :
  Wrapper.refund id why (Wrapper.mkHooked w log)
  = match refund id why w with
    | (w', inr e) =>
        (Wrapper.mkHooked w'
           (log ++ [Wrapper.EscrowRefunded (escrowId e) (payer e) (payee e)
                      (amount e) (default "manual refund" why)
                      (refunded (timeline e))]),
         inr e)
    | (w', inl err) => (Wrapper.mkHooked w' log, inl (Wrapper.EngineError err))
    end.
Proof.
  unfold Wrapper.refund. unfold_hooked. simpl.
  change (refund id (Some (default "manual refund" why)) w)
    with (refund id why w).
  by destruct (refund id why w) as [w' [err|e]].
Qed.

Lemma wrapper_submitDelivery_locked id e proof w log :
  escrows w !! id = Some e → state e = Locked →
  ∃ w' e',
    submitDelivery id proof w = (w', inr e')
    ∧ Wrapper.submitDelivery id proof (Wrapper.mkHooked w log)
      = (Wrapper.mkHooked w'
           (log ++ [if deliveryOnlyCondition e
                    then Wrapper.EscrowReleased (escrowId e) (payer e)
                           (payee e) (amount e)
                           "automatic - delivery confirmed"
                           (Some (clock w (S (ticks w))))
                    else Wrapper.DeliveryProofSubmitted (escrowId e)
                           (orElse (argSubmittedBy proof) (payee e))
                           (clock w (ticks w))]),
         inr e').
Proof.
  intros Hid Hst.
  destruct (submitDelivery_locked w id e proof Hid Hst) as (w' & Hrun & _).
  eexists _, _. split; [exact Hrun|].
  revert Hrun.
  unfold Wrapper.submitDelivery, Wrapper.submitDeliveryVia, submitDelivery.
  unfold_hooked. unfold_ops. simpl. rewrite Hid.
  rewrite !decide_False by (rewrite Hst; tauto). simpl.
  fold (deliveryOnlyCondition e).
  destruct (deliveryOnlyCondition e) eqn:Hauto.
  - rewrite wrapper_release_eq.
    rewrite (release_ok _ id (markDelivered (clock w (ticks w)) proof e))
      by (simpl; rewrite ?lookup_insert_eq; auto).
    simpl. rewrite !lookup_insert_eq. simpl. by intros [= <-].
  - simpl. rewrite !lookup_insert_eq. simpl.
    rewrite decide_True by done. by intros [= <-].
Qed.

Lemma wrapper_resolveDispute_disputed id e decision who w log :
  escrows w !! id = Some e → state e = Disputed →
  let why := "arbiter decision by " +:+ who in
  let e' := markArbiter who (markRefunded (clock w (ticks w)) why e) in
  Wrapper.resolveDispute id decision who (Wrapper.mkHooked w log)
  = if decide (decision = "release")
    then (Wrapper.mkHooked w log,
          inl (Wrapper.EngineError (CannotRelease Disputed)))
    else if decide (decision = "refund")
    then (Wrapper.mkHooked (tick (commit id e' (tick w)))
            (log ++ [Wrapper.EscrowRefunded (escrowId e) (payer e) (payee e)
                       (amount e) why (Some (clock w (ticks w)));
                     Wrapper.DisputeResolved (escrowId e) decision who
                       (clock w (S (ticks w)))]),
          inr e')
    else (Wrapper.mkHooked w log,
          inl (Wrapper.EngineError (InvalidDisputeResolution decision))).
Proof.
  intros Hid Hst why e'.
  unfold Wrapper.resolveDispute, Wrapper.resolveDisputeVia.
  unfold_hooked. unfold_ops. simpl. rewrite Hid.
  rewrite decide_False by (rewrite Hst; tauto). simpl.
  destruct (decide (decision = "release")) as [_|_].
  - rewrite wrapper_release_eq.
    rewrite (release_wrong_state w id e) by (done || by rewrite Hst).
    by rewrite Hst.
  - destruct (decide (decision = "refund")) as [_|_]; [|done].
    rewrite wrapper_refund_eq.
    rewrite (refund_ok w id e) by (done || (rewrite Hst; set_solver)).
    simpl. rewrite lookup_insert_eq. simpl. subst e' why.
    unfold commit, tick. simpl. rewrite insert_insert_eq.
    by rewrite <- app_assoc.
Qed.

(** The outcome of a wrapper method that only adds an emission to an
    engine method. *)
Lemma lift_then_emit_silent {A} (m : M A) (k : A → Wrapper.H unit) w log :
  (∀ a h, ∃ h', k a h = (h', inr tt)) →
  ∀ h' err,
    (a ← Wrapper.lift m; k a;; mret a) (Wrapper.mkHooked w log)
    = (h', inl err) →
    Wrapper.sent h' = log.
Proof.
  intros Hk h' err. unfold_hooked. simpl.
  destruct (m w) as [w' [err'|a]]; [by intros [= <- _]|].
  destruct (Hk a (Wrapper.mkHooked w' log)) as [h'' ->]. done.
Qed.

(** A call that throws emits nothing: whatever method of the wrapper
    fails, the list of emitted events is as it was before the call. *)
Theorem wrapper_failure_is_silent token o h h' err :
  Wrapper.run token o h = (h', inl err) →
  Wrapper.sent h' = Wrapper.sent h.
Proof.
  destruct h as [w log]. simpl.
  destruct o as [p|id tx|id a|id proof|id why|id why|id who why|id d who|];
    unfold Wrapper.run; unfold mbind at 1; unfold Wrapper.H_bind at 1.
  - destruct (Wrapper.create p token _) as [h1 [err1|e1]] eqn:Hrun;
      [|done]. intros [= <- _].
    eapply (lift_then_emit_silent _ _ w log); [|exact Hrun]. by eexists.
  - destruct (Wrapper.fund id tx _) as [h1 [err1|e1]] eqn:Hrun;
      [|done]. intros [= <- _].
    eapply (lift_then_emit_silent _ _ w log); [|exact Hrun]. by eexists.
  - destruct (Wrapper.approve id a _) as [h1 [err1|e1]] eqn:Hrun;
      [|done]. intros [= <- _].
    eapply (lift_then_emit_silent _ _ w log); [|exact Hrun].
    intros e h0. simpl. destruct (decide (state e = Locked)); by eexists.
  - destruct (Wrapper.submitDelivery id proof _) as [h1 [err1|e1]] eqn:Hrun;
      [|done]. intros [= <- _].
    destruct (escrows w !! id) as [e|] eqn:Hid;
      [destruct (decide (state e = Locked)) as [Hst|Hst]|].
    + destruct (wrapper_submitDelivery_locked id e proof w log Hid Hst)
        as (w' & e' & _ & Heq). rewrite Heq in Hrun. discriminate.
    + revert Hrun. unfold Wrapper.submitDelivery, Wrapper.submitDeliveryVia.
      unfold_hooked. unfold_ops. simpl. rewrite Hid.
      rewrite decide_True by done. by intros [= <- _].
    + revert Hrun. unfold Wrapper.submitDelivery, Wrapper.submitDeliveryVia.
      unfold_hooked. unfold_ops. simpl. rewrite Hid.
      destruct (inherited id); by intros [= <- _].
  - destruct (Wrapper.release id why _) as [h1 [err1|e1]] eqn:Hrun;
      [|done]. intros [= <- _].
    rewrite wrapper_release_eq in Hrun.
    destruct (release id why w) as [w' [err'|e']]; by injection Hrun as <-.
  - destruct (Wrapper.refund id why _) as [h1 [err1|e1]] eqn:Hrun;
      [|done]. intros [= <- _].
    rewrite wrapper_refund_eq in Hrun.
    destruct (refund id why w) as [w' [err'|e']]; by injection Hrun as <-.
  - destruct (Wrapper.dispute id who why _) as [h1 [err1|e1]] eqn:Hrun;
      [|done]. intros [= <- _].
    eapply (lift_then_emit_silent _ _ w log); [|exact Hrun]. by eexists.
  - destruct (Wrapper.resolveDispute id d who _) as [h1 [err1|e1]] eqn:Hrun;
      [|done]. intros [= <- _].
    destruct (escrows w !! id) as [e|] eqn:Hid;
      [destruct (decide (state e = Disputed)) as [Hst|Hst]|].
    + rewrite (wrapper_resolveDispute_disputed id e d who w log Hid Hst)
        in Hrun.
      repeat case_decide; by injection Hrun as <-.
    + revert Hrun. unfold Wrapper.resolveDispute, Wrapper.resolveDisputeVia.
      unfold_hooked. unfold_ops. simpl. rewrite Hid.
      rewrite decide_True by done. by intros [= <- _].
    + revert Hrun. unfold Wrapper.resolveDispute, Wrapper.resolveDisputeVia.
      unfold_hooked. unfold_ops. simpl. rewrite Hid.
      destruct (inherited id); by intros [= <- _].
  - destruct (mirrors_processTimeouts (Wrapper.mkHooked w log))
      as [_ Hres].
    destruct (processTimeouts_spec w) as (w' & expired & Hbase & _).
    simpl in Hres. rewrite Hbase in Hres. simpl in Hres.
    destruct (Wrapper.processTimeouts _) as [h1 r1]. simpl in Hres.
    by subst r1.
Qed.

Lemma wrapper_failure_is_silent_witness :
  Wrapper.sent
    (fst (Wrapper.run None (OpResolveDispute "esc_01" "release" "arbiter-agent")
            (Wrapper.mkHooked disputedWorld [])))
  = [].
Proof.
  eapply (wrapper_failure_is_silent None
            (OpResolveDispute "esc_01" "release" "arbiter-agent")
            (Wrapper.mkHooked disputedWorld [])).
  vm_compute. reflexivity.
Defined.

(** On a locked escrow the wrapper's [submitDelivery] emits exactly one
    event: ['escrow_released'], through the wrapper's own [release], when
    delivery is the only condition, and ['delivery_proof_submitted']
    otherwise; it returns the record the engine returns. *)
Theorem wrapper_submitDelivery_emits_one_event id e proof h :
  escrows (Wrapper.engine h) !! id = Some e → state e = Locked →
  ∃ h' e',
    Wrapper.submitDelivery id proof h = (h', inr e')
    ∧ snd (submitDelivery id proof (Wrapper.engine h)) = inr e'
    ∧ state e' = (if deliveryOnlyCondition e then Released else Locked)
    ∧ Wrapper.sent h'
      = Wrapper.sent h
        ++ [if deliveryOnlyCondition e
            then Wrapper.EscrowReleased (escrowId e) (payer e) (payee e)
                   (amount e) "automatic - delivery confirmed"
                   (released (timeline e'))
            else Wrapper.DeliveryProofSubmitted (escrowId e)
                   (orElse (argSubmittedBy proof) (payee e))
                   (clock (Wrapper.engine h) (ticks (Wrapper.engine h)))].
Proof.
  destruct h as [w log]. simpl. intros Hid Hst.
  destruct (wrapper_submitDelivery_locked id e proof w log Hid Hst)
    as (w' & e' & Hbase & Hrun).
  exists (Wrapper.mkHooked w'
            (log ++ [if deliveryOnlyCondition e
                     then Wrapper.EscrowReleased (escrowId e) (payer e)
                            (payee e) (amount e)
                            "automatic - delivery confirmed"
                            (Some (clock w (S (ticks w))))
                     else Wrapper.DeliveryProofSubmitted (escrowId e)
                            (orElse (argSubmittedBy proof) (payee e))
                            (clock w (ticks w))])), e'.
  split; [exact Hrun|]. rewrite Hbase. split; [done|].
  destruct (submitDelivery_locked w id e proof Hid Hst)
    as (w'' & Hbase' & _).
  rewrite Hbase in Hbase'. injection Hbase' as _ ->.
  fold (deliveryOnlyCondition e). simpl.
  destruct (deliveryOnlyCondition e); simpl; by rewrite ?Hst.
Qed.

Lemma wrapper_submitDelivery_emits_one_event_witness :
  ∃ h' e',
    Wrapper.submitDelivery "esc_01" sampleProof
      (Wrapper.mkHooked (lockedWorld (Some deliveryWithArbiter)) [])
    = (h', inr e')
    ∧ state e' = Locked
    ∧ Wrapper.sent h' = [Wrapper.DeliveryProofSubmitted "esc_01" "bob" 1003].
Proof.
  destruct (wrapper_submitDelivery_emits_one_event "esc_01"
              (lockedSample (Some deliveryWithArbiter)) sampleProof
              (Wrapper.mkHooked (lockedWorld (Some deliveryWithArbiter)) []))
    as (h' & e' & Hrun & _ & Hst & Hsent);
    [vm_compute; reflexivity|reflexivity|].
  exists h', e'. split; [exact Hrun|]. split; [exact Hst|exact Hsent].
Defined.

(** The wrapper's [resolveDispute] with the decision ['refund'] on a
    disputed escrow emits two events, in this order: ['escrow_refunded'],
    from the wrapper's own [refund] that the engine's body calls, with the
    reason "arbiter decision by " and the arbiter, then
    ['dispute_resolved'], stamped with one more reading of the clock. *)
Theorem wrapper_resolveDispute_refund_emits_two id e who h :
  escrows (Wrapper.engine h) !! id = Some e → state e = Disputed →
  ∃ h' e',
    Wrapper.resolveDispute id "refund" who h = (h', inr e')
    ∧ escrows (Wrapper.engine h') !! id = Some e'
    ∧ state e' = Refunded
    ∧ Wrapper.sent h'
      = Wrapper.sent h
        ++ [refundNotice ("arbiter decision by " +:+ who) e';
            Wrapper.DisputeResolved (escrowId e) "refund" who
              (clock (Wrapper.engine h) (S (ticks (Wrapper.engine h))))].
Proof.
  destruct h as [w log]. simpl. intros Hid Hst.
  rewrite (wrapper_resolveDispute_disputed id e "refund" who w log Hid Hst).
  simpl. eexists _, _. split; [done|]. simpl.
  rewrite lookup_insert_eq. done.
Qed.

Lemma wrapper_resolveDispute_refund_emits_two_witness :
  ∃ h' e',
    Wrapper.resolveDispute "esc_01" "refund" "arbiter-agent"
      (Wrapper.mkHooked disputedWorld []) = (h', inr e')
    ∧ escrows (Wrapper.engine h') !! "esc_01" = Some e'
    ∧ state e' = Refunded
    ∧ Wrapper.sent h'
      = [refundNotice "arbiter decision by arbiter-agent" e';
         Wrapper.DisputeResolved "esc_01" "refund" "arbiter-agent" 1006].
Proof.
  apply (wrapper_resolveDispute_refund_emits_two "esc_01"
           (markDisputed 1003 1004 (Some "alice")
              (Some "Incomplete delivery") (lockedSample None))
           "arbiter-agent" (Wrapper.mkHooked disputedWorld []));
    [vm_compute; reflexivity|reflexivity].
Defined.

(** ** The wrapper's sweep *)

Lemma sweepOneVia_refund_eq now expired id w log :
  Wrapper.sweepOneVia Wrapper.refund now expired id (Wrapper.mkHooked w log)
  = match escrows w !! id with
    | Some e =>
        if timedOut now e
        then
          let e' := markRefunded (clock w (ticks w)) "automatic timeout" e in
          (Wrapper.mkHooked (commit id e' (tick w))
             (log ++ [refundNotice "automatic timeout" e']),
           inr (expired ++ [id]))
        else (Wrapper.mkHooked w log, inr expired)
    | None => (Wrapper.mkHooked w log, inr expired)
    end.
Proof.
  unfold Wrapper.sweepOneVia. simpl.
  destruct (escrows w !! id) as [e|] eqn:Hid; [|done].
  destruct (timedOut now e) eqn:Hout; [|done].
  unfold mbind, Wrapper.H_bind. rewrite wrapper_refund_eq.
  by rewrite (refund_ok w id e _ Hid (timedOut_refundable _ _ Hout)).
Qed.

Lemma sweepLoopVia_refund_spec now ids :
  NoDup ids → ∀ expired w log,
  ∃ w' swept,
    sweepLoop now ids expired w = (w', inr (expired ++ swept))
    ∧ Wrapper.sweepLoopVia Wrapper.refund now ids expired
        (Wrapper.mkHooked w log)
      = (Wrapper.mkHooked w'
           (log ++ omap (λ id, refundNotice "automatic timeout"
                                 <$> escrows w' !! id) swept),
         inr (expired ++ swept))
    ∧ (∀ id, id ∉ ids → escrows w' !! id = escrows w !! id)
    ∧ (∀ id, id ∈ swept → id ∈ ids).
Proof.
  induction 1 as [|id0 ids Hfresh Hnodup IH]; intros expired w log.
  - exists w, []. simpl. rewrite !app_nil_r. repeat split; try done.
  - simpl. unfold mbind at 1 2. unfold M_bind at 1. unfold Wrapper.H_bind at 1.
    rewrite sweepOne_eq, sweepOneVia_refund_eq.
    destruct (escrows w !! id0) as [e0|] eqn:Hid0;
      [destruct (timedOut now e0) eqn:Hout|].
    + set (e1 := markRefunded (clock w (ticks w)) "automatic timeout" e0).
      cbv zeta. fold e1.
      destruct (IH (expired ++ [id0]) (commit id0 e1 (tick w))
                  (log ++ [refundNotice "automatic timeout" e1]))
        as (w' & swept & Hbase & Hrun & Hframe & Hsub).
      exists w', (id0 :: swept). rewrite Hbase, Hrun, <- !app_assoc. simpl.
      rewrite (Hframe id0 Hfresh). simpl. rewrite lookup_insert_eq. simpl.
      repeat split; try done.
      * intros id Hid. rewrite Hframe by set_solver. simpl.
        apply lookup_insert_ne. set_solver.
      * intros id [->|Hin]%elem_of_cons; [left|right; by apply Hsub].
    + destruct (IH expired w log) as (w' & swept & Hbase & Hrun & Hframe & Hsub).
      exists w', swept. rewrite Hbase, Hrun. repeat split; try done.
      * intros id Hid. apply Hframe. set_solver.
      * intros id Hin. right. by apply Hsub.
    + destruct (IH expired w log) as (w' & swept & Hbase & Hrun & Hframe & Hsub).
      exists w', swept. rewrite Hbase, Hrun. repeat split; try done.
      * intros id Hid. apply Hframe. set_solver.
      * intros id Hin. right. by apply Hsub.
Qed.

Lemma announceTimeouts_eq expired :
  ∀ w log,
    Wrapper.announceTimeouts expired (Wrapper.mkHooked w log)
    = (Wrapper.mkHooked w
         (log ++ omap (λ id, timeoutNotice <$> escrows w !! id) expired),
       inr tt).
Proof.
  induction expired as [|id rest IH]; intros w log; simpl.
  - by rewrite app_nil_r.
  - unfold mbind, Wrapper.H_bind, Wrapper.lift, getNow, get. simpl.
    destruct (escrows w !! id) as [e|]; simpl.
    + rewrite IH. by rewrite <- app_assoc.
    + apply IH.
Qed.

(** The wrapper's sweep tells of each refund twice: it returns the ids the
    engine's sweep returns and leaves the engine's store, and it emits for
    each of these escrows one ['escrow_refunded'] event with the reason
    "automatic timeout" (from the wrapper's own [refund], which the
    engine's loop calls), and after all of them one ['escrow_timeout']
    event for each, in the same order.  Every listed escrow is then
    refunded in the store. *)
Theorem wrapper_sweep_announces_each_refund_twice h :
  ∃ w' expired,
    processTimeouts (Wrapper.engine h) = (w', inr expired)
    ∧ Wrapper.processTimeouts h
      = (Wrapper.mkHooked w'
           (Wrapper.sent h
            ++ omap (λ id, refundNotice "automatic timeout"
                             <$> escrows w' !! id) expired
            ++ omap (λ id, timeoutNotice <$> escrows w' !! id) expired),
         inr expired)
    ∧ Forall (λ id, ∃ e', escrows w' !! id = Some e' ∧ state e' = Refunded)
        expired.
Proof.
  destruct h as [w log]. simpl.
  destruct (processTimeouts_spec w) as (w1 & ex1 & Hbase1 & _ & Hrel & _).
  destruct (sweepLoopVia_refund_spec (clock w (ticks w))
              (fst <$> map_to_list (escrows w)) (entryIds_NoDup w) []
              (tick w) log)
    as (w' & swept & Hbase & Hrun & _).
  rewrite processTimeouts_eq in Hbase1 |- *. simpl in Hbase.
  rewrite Hbase in Hbase1 |- *. injection Hbase1 as <- <-.
  exists w', swept. split; [done|]. split.
  - unfold Wrapper.processTimeouts, Wrapper.processTimeoutsVia.
    unfold mbind at 1 2 3 4. unfold Wrapper.H_bind at 1 2 3 4.
    unfold Wrapper.lift, dateNow, entryIds. simpl.
    change (setTicks (S (ticks w)) w) with (tick w).
    rewrite Hrun. simpl. rewrite announceTimeouts_eq. simpl.
    by rewrite <- app_assoc.
  - apply Forall_forall. intros id Hin. specialize (Hrel id).
    destruct (escrows w !! id) as [e|]; [|naive_solver].
    destruct (timedOut _ e && _); [|naive_solver].
    destruct Hrel as (_ & t & ->). by eexists.
Qed.

(** The sample: one overdue escrow, two events. *)
Example wrapper_sweep_sample :
  Wrapper.sent (fst (Wrapper.processTimeouts overdueHooked))
  = [Wrapper.EscrowRefunded "esc_01" "alice" "bob" 100 "automatic timeout"
       (Some 5000);
     Wrapper.EscrowTimeout "esc_01" "alice" "bob" 100 (Some 5000)]
  ∧ snd (Wrapper.processTimeouts overdueHooked) = inr ["esc_01"].
Proof. vm_compute. split; reflexivity. Qed.

(** ** The tipping engine *)

Section TippingFacts.
Import Tipping.

Ltac tip_run :=
  repeat first
    [ progress (cbn [fst snd tips savedTips tipsEmitted tipClock tipTicks
                     tipEntropy tipDraws tipDisk tipWrites])
    | progress (unfold findTip, putTip, saveTips, emitTip, tipNow, freshTipId,
                throwTip, mbind, mret, T_bind, T_ret) ].

Lemma create_eq (p : TipParams) (w : TipWorld) :
  create p w =
  match orNull (paramSender p), orNull (paramRecipient p) with
  | Some from_, Some to_ =>
      if bool_decide (paramTipAmount p ≤ 0) then (w, inl AmountMustBePositive)
      else
        let id := tipEntropy w (tipDraws w) in
        let tip :=
          mkTip id from_ to_ (paramTipAmount p)
            (default "SHIB" (paramToken p)) (default "" (paramReason p))
            TipPending (tipClock w (tipTicks w)) None None None
            (mkTipMetadata None None None) in
        (mkTipWorld (<[id := tip]> (tips w))
           (written (<[id := tip]> (tips w)) (tipDisk w (tipWrites w)))
           (tipClock w) (S (tipTicks w)) (tipEntropy w) (S (tipDraws w))
           (tipsEmitted w ++
              [TipCreated id from_ to_ (paramTipAmount p)
                 (default "SHIB" (paramToken p))
                 (default "" (paramReason p)) (tipClock w (tipTicks w))])
           (tipDisk w) (S (tipWrites w)),
         inr tip)
  | _, _ => (w, inl SenderAndRecipientRequired)
  end.
Proof.
  unfold create.
  destruct (orNull (paramSender p)), (orNull (paramRecipient p)); try done.
  case_bool_decide; done.
Qed.

Lemma markSent_eq (id : string) (tx : option string) (w : TipWorld) :
  markSent id tx w =
  match tips w !! id with
  | None =>
      (w, inl (if inherited id then CannotMarkSentUndefined else TipNotFound))
  | Some tip =>
      if decide (status tip ≠ TipPending)
      then (w, inl (CannotMarkSent (status tip)))
      else
        let tip' := markedSent (tipClock w (tipTicks w)) tx tip in
        (mkTipWorld (<[id := tip']> (tips w))
           (written (<[id := tip']> (tips w)) (tipDisk w (tipWrites w)))
           (tipClock w) (S (tipTicks w)) (tipEntropy w) (tipDraws w)
           (tipsEmitted w ++
              [TipSentEvent (tipId tip') (sender tip') (recipient tip')
                 (tipAmount tip') (token tip') (tipTxHash tip')
                 (sentAt tip')])
           (tipDisk w) (S (tipWrites w)),
         inr tip')
  end.
Proof.
  unfold markSent. tip_run.
  destruct (tips w !! id) as [tip|]; [|by destruct (inherited id)].
  destruct (decide (status tip ≠ TipPending)); done.
Qed.

Lemma confirm_eq (id : string) (tx : option string) (block : option Z)
  (w : TipWorld) :
  confirm id tx block w =
  match tips w !! id with
  | None =>
      (w, inl (if inherited id then CannotConfirmUndefined else TipNotFound))
  | Some tip =>
      if bool_decide (status tip ∈ [TipPending; TipSent])
      then
        let tip' := markedConfirmed (tipClock w (tipTicks w)) tx block tip in
        (mkTipWorld (<[id := tip']> (tips w))
           (written (<[id := tip']> (tips w)) (tipDisk w (tipWrites w)))
           (tipClock w) (S (tipTicks w)) (tipEntropy w) (tipDraws w)
           (tipsEmitted w ++
              [TippingReceived (tipId tip') (sender tip') (recipient tip')
                 (tipAmount tip') (token tip') (tipReason tip')
                 (tipTxHash tip') (confirmedAt tip')])
           (tipDisk w) (S (tipWrites w)),
         inr tip')
      else (w, inl (CannotConfirm (status tip)))
  end.
Proof.
  unfold confirm. tip_run.
  destruct (tips w !! id) as [tip|]; [|by destruct (inherited id)].
  case_bool_decide; done.
Qed.

Lemma settlePayment_eq (id : string) (settlement : string) (w : TipWorld) :
  settlePayment id settlement w =
  match tips w !! id with
  | None =>
      (w, inl (if inherited id then MetadataUndefined else TipNotFound))
  | Some tip =>
      let tip' := markedSettled (tipClock w (tipTicks w)) settlement tip in
      (mkTipWorld (<[id := tip']> (tips w))
         (written (<[id := tip']> (tips w)) (tipDisk w (tipWrites w)))
         (tipClock w) (S (tipTicks w)) (tipEntropy w) (tipDraws w)
         (tipsEmitted w ++
            [PaymentSettled (tipId tip') (sender tip') (recipient tip')
               (tipAmount tip') (token tip') settlement
               (settledAt (tipMetadata tip'))])
         (tipDisk w) (S (tipWrites w)),
       inr tip')
  end.
Proof.
  unfold settlePayment. tip_run.
  destruct (tips w !! id) as [tip|]; [done|by destruct (inherited id)].
Qed.

Lemma orNull_nonempty (x : option string) (s : string) :
  orNull x = Some s → s ≠ "".
Proof.
  unfold orNull. destruct x as [y|]; [|done].
  case_decide; [done|]. by intros [= <-].
Qed.

(** What one call does to the tip stored under one id: nothing, one of
    the rewrites of [tipStep], or the record [create] has just made. *)
Lemma tipAfter_lookup (o : TipOp) (w : TipWorld) (id : string) :
  tips (tipAfter o w) !! id = tips w !! id
  ∨ (∃ t t', tips w !! id = Some t ∧ tips (tipAfter o w) !! id = Some t'
             ∧ tipStep t t')
  ∨ (∃ p t', o = DoCreate p ∧ tipEntropy w (tipDraws w) = id
             ∧ tips (tipAfter o w) !! id = Some t' ∧ tipBorn id t').
Proof.
  destruct o as [p|k tx|k tx block|k settlement]; unfold tipAfter.
  - rewrite create_eq.
    destruct (orNull (paramSender p)) as [from_|] eqn:Hs; [|by left].
    destruct (orNull (paramRecipient p)) as [to_|] eqn:Hr; [|by left].
    case_bool_decide as Ha; [by left|].
    cbn [fst tips].
    destruct (decide (tipEntropy w (tipDraws w) = id)) as [<-|Hne].
    + right; right. eexists p, _. rewrite lookup_insert_eq.
      repeat split; try done; cbn.
      * by eapply orNull_nonempty.
      * by eapply orNull_nonempty.
      * lia.
    + left. by rewrite lookup_insert_ne.
  - rewrite markSent_eq.
    destruct (tips w !! k) as [tip|] eqn:Hk; [|by left].
    destruct (decide (status tip ≠ TipPending)) as [|Hst]; [by left|].
    cbn [fst tips].
    destruct (decide (k = id)) as [<-|Hne].
    + right; left. eexists tip, _. rewrite lookup_insert_eq.
      repeat split; try done. constructor.
      by apply dec_stable.
    + left. by rewrite lookup_insert_ne.
  - rewrite confirm_eq.
    destruct (tips w !! k) as [tip|] eqn:Hk; [|by left].
    case_bool_decide as Hst; [|by left].
    cbn [fst tips].
    destruct (decide (k = id)) as [<-|Hne].
    + right; left. eexists tip, _. rewrite lookup_insert_eq.
      repeat split; try done. by constructor.
    + left. by rewrite lookup_insert_ne.
  - rewrite settlePayment_eq.
    destruct (tips w !! k) as [tip|] eqn:Hk; [|by left].
    cbn [fst tips].
    destruct (decide (k = id)) as [<-|Hne].
    + right; left. eexists tip, _. rewrite lookup_insert_eq.
      repeat split; try done. constructor.
    + left. by rewrite lookup_insert_ne.
Qed.

Lemma tipBorn_valid (id : string) (tip : Tip) :
  tipBorn id tip → tipValid id tip.
Proof.
  intros (Hid & Hst & Hs & Hr & Ha & Hsent & Hconf).
  repeat split; try done.
  - rewrite Hconf. by intros [? ?].
  - by rewrite Hst.
  - by rewrite Hst.
Qed.

Lemma tipStep_valid (id : string) (t t' : Tip) :
  tipStep t t' → tipValid id t → tipValid id t'.
Proof.
  intros Hstep (Hid & Hs & Hr & Ha & Hconf & Hsent & Hpend).
  destruct Hstep as [tip t tx Hst|tip t tx block Hst|tip t settlement];
    repeat split; cbn; try done; try (by eexists); try apply Hconf.
  intros Hc. apply Hconf in Hc. congruence.
Qed.

Lemma tipStep_edge (t t' : Tip) :
  tipStep t t' →
  tipEdge (status t) (status t') = true ∧ tipId t' = tipId t
  ∧ sender t' = sender t ∧ recipient t' = recipient t
  ∧ tipAmount t' = tipAmount t ∧ token t' = token t
  ∧ tipReason t' = tipReason t ∧ createdAt t' = createdAt t
  ∧ (status t = TipConfirmed →
     status t' = TipConfirmed ∧ confirmedAt t' = confirmedAt t
     ∧ sentAt t' = sentAt t ∧ tipTxHash t' = tipTxHash t).
Proof.
  intros [tip t0 tx Hst|tip t0 tx block Hst|tip t0 settlement]; cbn.
  - rewrite Hst. repeat split; done.
  - assert (status tip ≠ TipConfirmed) as Hne
      by (intros Hc; rewrite Hc in Hst; set_solver).
    repeat split; try done. by destruct (status tip).
  - repeat split; try done. by destruct (status tip).
Qed.

Lemma confirmedTipWorld_lookup :
  ∃ t, tips confirmedTipWorld !! "tip_01" = Some t
       ∧ status t = TipConfirmed.
Proof. eexists. split; [vm_compute; reflexivity|reflexivity]. Qed.

(** X26: a stored tip only moves forward.  Whatever is called, a tip
    under an id that is not the next one drawn is still stored afterwards,
    its status has stayed or moved along pending → sent → confirmed (or
    pending → confirmed), and its id, sender, recipient, amount, token,
    reason and creation time are what they were; once confirmed, its
    status, stamps and transaction hash are fixed as well. *)
Theorem tip_status_only_moves_forward
  (o : TipOp) (w : TipWorld) (id : string) (t : Tip) :
  tips w !! id = Some t →
  tipEntropy w (tipDraws w) ≠ id →
  ∃ t', tips (tipAfter o w) !! id = Some t'
        ∧ tipEdge (status t) (status t') = true
        ∧ tipId t' = tipId t ∧ sender t' = sender t
        ∧ recipient t' = recipient t ∧ tipAmount t' = tipAmount t
        ∧ token t' = token t ∧ tipReason t' = tipReason t
        ∧ createdAt t' = createdAt t
        ∧ (status t = TipConfirmed →
           status t' = TipConfirmed ∧ confirmedAt t' = confirmedAt t
           ∧ sentAt t' = sentAt t ∧ tipTxHash t' = tipTxHash t).
Proof.
  intros Ht Hfresh.
  destruct (tipAfter_lookup o w id)
    as [Heq|[(t0 & t' & Ht0 & Ht' & Hstep)|(p & t' & _ & Hid & _)]].
  - exists t. rewrite Heq. repeat split; try done.
    by destruct (status t).
  - rewrite Ht in Ht0. injection Ht0 as <-.
    exists t'. split; [done|]. by apply tipStep_edge.
  - done.
Qed.

Lemma tip_status_only_moves_forward_witness :
  ∃ t', tips (tipAfter (DoMarkSent "tip_01" (Some "0xdef"))
                confirmedTipWorld) !! "tip_01" = Some t'
        ∧ status t' = TipConfirmed.
Proof.
  destruct confirmedTipWorld_lookup as (t & Ht & Hst).
  destruct (tip_status_only_moves_forward
              (DoMarkSent "tip_01" (Some "0xdef")) confirmedTipWorld
              "tip_01" t Ht)
    as (t' & Ht' & _ & _ & _ & _ & _ & _ & _ & _ & Hfix).
  - vm_compute. discriminate.
  - exists t'. split; [done|]. by apply Hfix.
Defined.

(** X27: every tip of a store reached from the empty one by calls of the
    methods is stored under its own id, has a sender and a recipient that
    are not empty and an amount above zero, carries a confirmation time
    exactly when it is confirmed, a sending time whenever its status is
    sent, and no sending time while it is pending. *)
Theorem stored_tips_are_valid (w : TipWorld) (id : string) (t : Tip) :
  tipReachable w → tips w !! id = Some t → tipValid id t.
Proof.
  intros Hreach. revert id t.
  induction Hreach as [clk ent|w o Hreach IH]; intros id t Ht.
  - done.
  - destruct (tipAfter_lookup o w id)
      as [Heq|[(t0 & t' & Ht0 & Ht' & Hstep)|(p & t' & _ & _ & Ht' & Hb)]].
    + rewrite Heq in Ht. by apply IH.
    + rewrite Ht in Ht'. injection Ht' as <-.
      eapply tipStep_valid; [done|]. by apply IH.
    + rewrite Ht in Ht'. injection Ht' as <-. by apply tipBorn_valid.
Qed.

Lemma stored_tips_are_valid_witness :
  ∃ t, tips confirmedTipWorld !! "tip_01" = Some t ∧ tipValid "tip_01" t.
Proof.
  destruct confirmedTipWorld_lookup as (t & Ht & _).
  exists t. split; [done|].
  apply (stored_tips_are_valid confirmedTipWorld "tip_01" t); [|done].
  unfold confirmedTipWorld, sampleTipWorld. do 2 constructor. constructor.
Defined.



(** X29: a call that throws has changed nothing, and a call that
    returns has emitted one event and written the file once.  A throw
    leaves the tips, the file, the clock reading, the ids drawn, the
    events and the count of writes as they were: every test comes before
    the first write.  A return has appended exactly one event and has made
    exactly one write of the file, and it returns whether or not that
    write went through: [saveState] swallows the failure.  The file holds
    the tips in memory when the write succeeded, and what the failed write
    left when it did not. *)
Theorem failed_tip_call_changes_nothing (o : TipOp) (w : TipWorld) :
  match tipThrown o w with
  | Some _ => tipAfter o w = w
  | None =>
      (∃ ev, tipsEmitted (tipAfter o w) = tipsEmitted w ++ [ev])
      ∧ tipWrites (tipAfter o w) = S (tipWrites w)
      ∧ savedTips (tipAfter o w)
        = match tipDisk w (tipWrites w) with
          | None => tips (tipAfter o w)
          | Some stale => stale
          end
  end.
Proof.
  destruct o as [p|k tx|k tx block|k settlement];
    unfold tipThrown, tipAfter.
  - rewrite create_eq.
    destruct (orNull (paramSender p)); [|done].
    destruct (orNull (paramRecipient p)); [|done].
    case_bool_decide; [done|]. cbn. eauto.
  - rewrite markSent_eq.
    destruct (tips w !! k) as [tip|]; [|done].
    destruct (decide (status tip ≠ TipPending)); [done|]. cbn. eauto.
  - rewrite confirm_eq.
    destruct (tips w !! k) as [tip|]; [|done].
    case_bool_decide; [|done]. cbn. eauto.
  - rewrite settlePayment_eq.
    destruct (tips w !! k) as [tip|]; [|done]. cbn. eauto.
Qed.

(** On a disk whose writes fail, [create] still returns the tip and emits
    its event; the tip is in memory and not in the file. *)
Example create_returns_on_a_full_disk :
  tipThrown (DoCreate sampleTipParams) fullDiskTipWorld = None
  ∧ (status <$> tips (tipAfter (DoCreate sampleTipParams) fullDiskTipWorld)
                  !! "tip_01") = Some TipPending
  ∧ savedTips (tipAfter (DoCreate sampleTipParams) fullDiskTipWorld)
              !! "tip_01" = None.
Proof. vm_compute. repeat split. Qed.

End TippingFacts.
